(** * solana-messenger SDK: a shallow embedding and its verified properties

    The TypeScript sources embedded here are
    - [sdk/src/crypto.ts]       frame codec and NaCl wrappers,
    - [sdk/src/instructions.ts] instruction builders and the messenger class,
    - [events.ts]               the [MessageSent] log parser,
    - [registry.ts]             the registry lookup,
    - [utils.ts]                [addressToBytes] and [hexEncode].

    JavaScript numbers that hold integers are modelled by [Z]; the 32-bit
    coercions of the bitwise operators are written out.  A [Uint8Array] is a
    [list byte].  Exceptions are the [Throw] case of [result]; calls into
    the network, the random generator and the signer thread a world. *)

From Stdlib Require Import ZArith String Ascii Lia Bool.
From Stdlib Require Import Strings.Byte.
From Stdlib Require Import List.
From Stdlib Require Import Permutation Sorted.
Import ListNotations.
Open Scope string_scope.
Open Scope list_scope.
Open Scope Z_scope.

(* ================================================================= *)
(** ** The JavaScript runtime *)

Module JS.

(** Exceptions carry their message. *)
Definition Error := string.

Inductive result (A : Type) : Type :=
| Ok (a : A)
| Throw (e : Error).
Arguments Ok {A} a.
Arguments Throw {A} e.

Definition bind {A B} (m : result A) (k : A -> result B) : result B :=
  match m with
  | Ok a => k a
  | Throw e => Throw e
  end.

Declare Scope js_scope.
Delimit Scope js_scope with js.
Notation "x <- m ;; k" := (bind m (fun x => k))
  (at level 61, m at next level, right associativity) : js_scope.

(** *** Bytes *)

Definition u8 (z : Z) : byte :=
  match Byte.of_N (Z.to_N (z mod 256)) with
  | Some b => b
  | None => x00
  end.

Definition Zb (b : byte) : Z := Z.of_N (Byte.to_N b).

Definition len {A} (l : list A) : Z := Z.of_nat (length l).

(** [new Uint8Array(n)] *)
Definition Uint8Array (n : Z) : list byte := repeat x00 (Z.to_nat n).

(** [buf[i]] used as a number: an absent element is [undefined]. *)
Definition get (buf : list byte) (i : Z) : option Z :=
  if (0 <=? i) && (i <? len buf)
  then option_map Zb (nth_error buf (Z.to_nat i))
  else None.

(** [buf[i] = v]: the value is taken modulo 256, a store outside the array
    is dropped. *)
Definition store (buf : list byte) (i : Z) (v : Z) : list byte :=
  if (0 <=? i) && (i <? len buf)
  then firstn (Z.to_nat i) buf ++ u8 v :: skipn (Z.to_nat (i + 1)) buf
  else buf.

(** [buf.set(src, offset)]: a source that does not fit is a [RangeError]. *)
Definition set (buf src : list byte) (offset : Z) : result (list byte) :=
  if (offset <? 0) || (len buf <? offset + len src)
  then Throw "RangeError: offset is out of bounds"
  else Ok (firstn (Z.to_nat offset) buf ++ src
           ++ skipn (Z.to_nat (offset + len src)) buf).

(** Relative index of [slice] and [subarray]: negative counts from the end,
    everything is clamped to the array. *)
Definition relIndex (n i : Z) : Z :=
  if i <? 0 then Z.max (n + i) 0 else Z.min i n.

(** [buf.slice(start, end)] and [buf.subarray(start, end)] *)
Definition slice {A} (buf : list A) (start stop : Z) : list A :=
  let k := relIndex (len buf) start in
  let f := relIndex (len buf) stop in
  firstn (Z.to_nat (f - k)) (skipn (Z.to_nat k) buf).

(** [buf.slice(start)] *)
Definition sliceFrom {A} (buf : list A) (start : Z) : list A :=
  slice buf start (len buf).

(** *** 32-bit integer coercions and the bitwise operators *)

Definition ToInt32 (z : Z) : Z := (z + 2 ^ 31) mod 2 ^ 32 - 2 ^ 31.
Definition ToUint32 (z : Z) : Z := z mod 2 ^ 32.

(** [undefined] coerces to 0 in a bitwise operator. *)
Definition num (v : option Z) : Z :=
  match v with Some z => z | None => 0 end.

Definition shl (a n : Z) : Z := ToInt32 (Z.shiftl (ToInt32 a) (n mod 32)).
Definition shr (a n : Z) : Z := Z.shiftr (ToInt32 a) (n mod 32).
Definition ushr (a n : Z) : Z := Z.shiftr (ToUint32 a) (n mod 32).
Definition bor (a b : Z) : Z := Z.lor (ToInt32 a) (ToInt32 b).
Definition band (a b : Z) : Z := Z.land (ToInt32 a) (ToInt32 b).

(** *** Arithmetic on numbers

    A number is a double.  It holds every integer up to 2^53 in magnitude;
    beyond, the result of an operation is the double nearest to the exact
    result, the one with the even significand when two are equally near.
    [roundToDouble] is this rounding on integers; the integers met in the
    SDK stay below 2^64 in magnitude, far from the overflow of doubles. *)
Definition roundToDouble (z : Z) : Z :=
  let a := Z.abs z in
  if a <? 2 ^ 53 then z else
  let ulp := 2 ^ (Z.log2 a - 52) in
  let q := a / ulp in
  let r := a mod ulp in
  let q :=
    if 2 * r <? ulp then q
    else if ulp <? 2 * r then q + 1
    else if Z.even q then q else q + 1 in
  Z.sgn z * (q * ulp).

(** [a + b] and [a * b] on numbers that hold integers. *)
Definition number_add (a b : Z) : Z := roundToDouble (a + b).
Definition number_mul (a b : Z) : Z := roundToDouble (a * b).

(** [Math.ceil(a / b)] on integers, [b > 0]. *)
Definition Math_ceil_div (a b : Z) : Z := (a + b - 1) / b.

(** [for (let i = start; i < stop; i++) body], the loop state threaded. *)
Fixpoint for_range {S} (n : nat) (i : Z) (body : Z -> S -> result S) (s : S)
  : result S :=
  match n with
  | O => Ok s
  | Datatypes.S n' => bind (body i s) (for_range n' (i + 1) body)
  end.

Definition for_loop {S} (start stop : Z) (body : Z -> S -> result S) (s : S)
  : result S :=
  for_range (Z.to_nat (stop - start)) start body s.

(** [l.map(f)] for an [f] that may throw *)
Fixpoint mapM {A B} (f : A -> result B) (l : list A) : result (list B) :=
  match l with
  | [] => Ok []
  | a :: l' => (b <- f a ;; bs <- mapM f l' ;; Ok (b :: bs))%js
  end.

Fixpoint somes {A} (l : list (option A)) : list A :=
  match l with
  | [] => []
  | Some a :: l' => a :: somes l'
  | None :: l' => somes l'
  end.

End JS.
Import JS.
Open Scope js_scope.

(* ================================================================= *)
(** ** Worlds: randomness, network, signer *)

(** A computation reads and changes the world and may throw. *)
Definition M (W A : Type) : Type := W -> result A * W.

Definition ret {W A} (a : A) : M W A := fun w => (Ok a, w).
Definition raise {W A} (e : Error) : M W A := fun w => (Throw e, w).
Definition lift {W A} (r : result A) : M W A := fun w => (r, w).
Definition mbind {W A B} (m : M W A) (k : A -> M W B) : M W B :=
  fun w => match m w with
           | (Ok a, w') => k a w'
           | (Throw e, w') => (Throw e, w')
           end.
(** [try { m } catch { h }] *)
Definition catch {W A} (m : M W A) (h : Error -> M W A) : M W A :=
  fun w => match m w with
           | (Ok a, w') => (Ok a, w')
           | (Throw e, w') => h e w'
           end.

Declare Scope m_scope.
Delimit Scope m_scope with m.
Notation "x <~ m ;; k" := (mbind m (fun x => k))
  (at level 61, m at next level, right associativity) : m_scope.
Notation "' pat <~ m ;; k" := (mbind m (fun x => match x with pat => k end))
  (at level 61, pat pattern, m at next level, right associativity) : m_scope.
Open Scope m_scope.

(* ================================================================= *)
(** ** Values of [@solana/kit] *)

Inductive AccountRole : Type :=
| READONLY
| WRITABLE
| READONLY_SIGNER
| WRITABLE_SIGNER.

Record KeyPairSigner : Type := {
  signer_address : string;
  signer_keypair : list byte;
}.

Record AccountMeta : Type := {
  am_address : string;
  am_role : AccountRole;
  am_signer : option KeyPairSigner;
}.

Record Instruction : Type := {
  programAddress : string;
  accounts : list AccountMeta;
  data : list byte;
}.

Record Blockhash : Type := {
  blockhash : string;
  lastValidBlockHeight : Z;
}.

Record TransactionMessage : Type := {
  tm_version : Z;
  tm_feePayer : option string;
  tm_lifetime : option Blockhash;
  tm_instructions : list Instruction;
}.

(** [result.value.data] of [getAccountInfo]: a string, or the pair of the
    encoded content and the name of the encoding. *)
Inductive AccountData : Type :=
| DataString (s : string)
| DataTuple (content encoding : string).

Record AccountInfo : Type := {
  ai_data : option AccountData;
}.

(** One entry of [getSignaturesForAddress]. *)
Record SignatureInfo : Type := {
  signature : string;
  blockTime : option Z;
}.

(* ================================================================= *)
(** ** External libraries *)

(** Pure functions of [@solana/kit], [tweetnacl], [ed2curve] and the
    platform.  Their code is outside the repository; the embedding takes them
    as an interface and every statement holds for all implementations. *)
Class Library : Type := {
  (** text of a message, a JavaScript string *)
  Text : Type;
  TextEncoder_encode : Text -> list byte;
  TextDecoder_decode : list byte -> Text;
  (** [getBase58Encoder().encode]: base58 text to bytes *)
  getBase58Encoder_encode : string -> result (list byte);
  (** [getBase58Decoder().decode]: bytes to base58 text *)
  getBase58Decoder_decode : list byte -> string;
  (** [address(s)]: asserts that [s] is a well-formed address *)
  address : string -> result string;
  (** [getProgramDerivedAddress({programAddress, seeds})], first component *)
  getProgramDerivedAddress : string -> list (list byte) -> result string;
  (** [globalThis.atob], when the platform has one; the binary string it
      returns has one character per byte *)
  globalThis_atob : option (string -> result string);
  (** [Buffer.from(s, "base64")], which never throws *)
  Buffer_from_base64 : string -> list byte;
  (** [Buffer.from(bytes).toString("base64")] *)
  Buffer_toString_base64 : list byte -> string;
  ed2curve_convertPublicKey : list byte -> option (list byte);
  ed2curve_convertSecretKey : list byte -> list byte;
  (** [nacl.box(msg, nonce, pk, sk)]; throws on arguments of a bad size *)
  nacl_box : list byte -> list byte -> list byte -> list byte
             -> result (list byte);
  (** [nacl.box.open(ct, nonce, pk, sk)]: [null] when authentication fails;
      throws on arguments of a bad size *)
  nacl_box_open : list byte -> list byte -> list byte -> list byte
                  -> result (option (list byte));
  createKeyPairSignerFromBytes : list byte -> result KeyPairSigner;
  (** [getTransactionEncoder().encode(compileTransaction(m))] *)
  compileAndEncodeTransaction : TransactionMessage -> result (list byte);
  (** [getSignatureFromTransaction(getTransactionDecoder().decode(b))] *)
  getSignatureFromTransaction : list byte -> result string;
}.

(** The random generator of [tweetnacl]. *)
Class Random (W : Type) : Type := {
  nacl_randomByte : W -> byte * W;
}.

(** The JSON-RPC node, the websocket subscription and the in-process
    signer, as far as the messenger calls them. *)
Class Chain (W : Type) : Type := {
  rpc_getAccountInfo : string -> M W (option AccountInfo);
  rpc_getLatestBlockhash : M W Blockhash;
  rpc_sendTransaction : string -> M W unit;
  (** [statuses.value[0]?.confirmationStatus] for one signature *)
  rpc_getSignatureStatuses : string -> M W (option string);
  rpc_getSignaturesForAddress :
    string -> option string -> Z -> M W (list SignatureInfo);
  (** [tx?.meta?.logMessages]: [None] when a link of the chain is null *)
  rpc_getTransaction : string -> M W (option (list string));
  signTransactionMessageWithSigners : TransactionMessage -> M W (list byte);
  sendAndConfirm : list byte -> M W unit;
  setTimeout : Z -> M W unit;
}.

Section RandomBytes.
Context {W : Type} `{Random W}.

(** [nacl.randomBytes(n)] *)
Fixpoint nacl_randomBytes (n : nat) : M W (list byte) :=
  match n with
  | O => ret []
  | S n' => fun w =>
      let (b, w1) := nacl_randomByte w in
      (bs <~ nacl_randomBytes n' ;; ret (b :: bs)) w1
  end.

End RandomBytes.

(* ================================================================= *)
(** ** utils.ts *)

Section Utils.
Context `{Library}.

Definition addressToBytes (addr : string) : result (list byte) :=
  getBase58Encoder_encode addr.

(** One hexadecimal digit of [Number.prototype.toString(16)]. *)
Definition hexDigit (d : Z) : ascii :=
  if d <? 10 then ascii_of_N (Z.to_N (48 + d))
  else ascii_of_N (Z.to_N (87 + d)).

(** [b.toString(16).padStart(2, "0")] for a byte [b] *)
Definition hexByte (b : byte) : string :=
  String (hexDigit (Zb b / 16)) (String (hexDigit (Zb b mod 16)) EmptyString).

Definition hexEncode (bytes : list byte) : string :=
  fold_left (fun hex b => (hex ++ hexByte b)%string) bytes EmptyString.

End Utils.

(* ================================================================= *)
(** ** crypto.ts *)

Module Crypto.

Definition HEADER_SIZE : Z := 13.
Definition MAX_PAYLOAD_SIZE : Z := 661.
Definition FLAGS_STANDALONE : Z := 0.
Definition FLAGS_CHUNKED : Z := 1.

Record EncryptedPayload : Type := {
  ep_ciphertext : list byte;
  ep_nonce : list byte;
}.

Record DecodedMessage : Type := {
  flags : Z;
  messageId : list byte;
  chunkIndex : Z;
  totalChunks : Z;
  payload : list byte;
}.

Definition writeU16BE (buf : list byte) (value offset : Z) : list byte :=
  let buf := store buf offset (band (shr value 8) 255) in
  store buf (offset + 1) (band value 255).

Definition readU16BE (buf : list byte) (offset : Z) : Z :=
  bor (shl (num (get buf offset)) 8) (num (get buf (offset + 1))).

Definition decodeMessage (data : list byte) : result DecodedMessage :=
  if len data <? HEADER_SIZE
  then Throw "Message too short"
  else Ok {| flags := num (get data 0);
             messageId := slice data 1 9;
             chunkIndex := readU16BE data 9;
             totalChunks := readU16BE data 11;
             payload := sliceFrom data HEADER_SIZE |}.

Section WithLibrary.
Context `{Library}.

Definition decrypt (ciphertext nonce senderPublicKey recipientSecretKey
                    : list byte) : result Text :=
  let senderX := ed2curve_convertPublicKey senderPublicKey in
  let recipientX := ed2curve_convertSecretKey recipientSecretKey in
  match senderX with
  | None => Throw "Failed to convert sender public key to x25519"
  | Some senderX =>
      plaintext <- nacl_box_open ciphertext nonce senderX recipientX ;;
      match plaintext with
      | None => Throw "Decryption failed — invalid ciphertext or wrong keys"
      | Some plaintext => Ok (TextDecoder_decode plaintext)
      end
  end.

Definition decryptRaw (ciphertext nonce senderPublicKey recipientSecretKey
                       : list byte) : result (option (list byte)) :=
  let senderX := ed2curve_convertPublicKey senderPublicKey in
  let recipientX := ed2curve_convertSecretKey recipientSecretKey in
  match senderX with
  | None => Ok None
  | Some senderX => nacl_box_open ciphertext nonce senderX recipientX
  end.

Context {W : Type} `{Random W}.

Definition encrypt (message senderSecretKey recipientPublicKey : list byte)
  : M W EncryptedPayload :=
  let senderX := ed2curve_convertSecretKey senderSecretKey in
  let recipientX := ed2curve_convertPublicKey recipientPublicKey in
  match recipientX with
  | None => raise "Failed to convert recipient public key to x25519"
  | Some recipientX =>
      nonce <~ nacl_randomBytes 24 ;;
      ciphertext <~ lift (nacl_box message nonce recipientX senderX) ;;
      ret {| ep_ciphertext := ciphertext; ep_nonce := nonce |}
  end.

Definition randomMessageId : M W (list byte) := nacl_randomBytes 8.

Definition encodeMessage (text : Text) : M W (list (list byte)) :=
  let payload := TextEncoder_encode text in
  messageId <~ randomMessageId ;;
  if len payload <=? MAX_PAYLOAD_SIZE then
    lift (let frame := Uint8Array (HEADER_SIZE + len payload) in
          let frame := store frame 0 FLAGS_STANDALONE in
          frame <- set frame messageId 1 ;;
          let frame := writeU16BE frame 0 9 in
          let frame := writeU16BE frame 1 11 in
          frame <- set frame payload HEADER_SIZE ;;
          Ok [frame])
  else
    let totalChunks := Math_ceil_div (len payload) MAX_PAYLOAD_SIZE in
    lift (for_loop 0 totalChunks
            (fun i chunks =>
               let start := i * MAX_PAYLOAD_SIZE in
               let stop := Z.min (start + MAX_PAYLOAD_SIZE) (len payload) in
               let chunkPayload := slice payload start stop in
               let frame := Uint8Array (HEADER_SIZE + len chunkPayload) in
               let frame := store frame 0 FLAGS_CHUNKED in
               frame <- set frame messageId 1 ;;
               let frame := writeU16BE frame i 9 in
               let frame := writeU16BE frame totalChunks 11 in
               frame <- set frame chunkPayload HEADER_SIZE ;;
               Ok (chunks ++ [frame]))
            []).

End WithLibrary.

End Crypto.

(* ================================================================= *)
(** ** JavaScript strings, arrays and maps used by the SDK *)

Module JSString.

(** [s.indexOf(p)], -1 when [p] does not occur *)
Definition indexOf (s p : string) : Z :=
  match String.index 0 p s with
  | Some i => Z.of_nat i
  | None => -1
  end.

(** [s.slice(n)] for [0 <= n] *)
Definition sliceFrom (s : string) (n : Z) : string :=
  String.substring (Z.to_nat n) (String.length s - Z.to_nat n) s.

(** White space of [String.prototype.trim] among the code units below 256. *)
Definition isWhiteSpace (c : ascii) : bool :=
  let n := Z.of_N (N_of_ascii c) in
  ((9 <=? n) && (n <=? 13)) || (n =? 32) || (n =? 160).

Fixpoint trimStart (s : list ascii) : list ascii :=
  match s with
  | c :: s' => if isWhiteSpace c then trimStart s' else s
  | [] => []
  end.

Definition trim (s : string) : string :=
  string_of_list_ascii
    (rev (trimStart (rev (trimStart (list_ascii_of_string s))))).

(** A string is falsy exactly when it is empty. *)
Definition truthy (s : string) : bool :=
  match s with EmptyString => false | _ => true end.

(** [s.replace(p, r)] for a string pattern and a replacement without
    [$]: the first occurrence is replaced, a string without occurrence is
    returned as it is. *)
Definition replace (s p r : string) : string :=
  match String.index 0 p s with
  | Some i =>
      String.substring 0 i s ++ r
      ++ String.substring (i + String.length p)
                          (String.length s - (i + String.length p)) s
  | None => s
  end.

End JSString.

Module JSArray.

Fixpoint insert {A} (key : A -> Z) (x : A) (l : list A) : list A :=
  match l with
  | [] => [x]
  | y :: l' => if key x <=? key y then x :: l else y :: insert key x l'
  end.

(** [l.sort((a, b) => key(a) - key(b))]: the sort of the language is
    stable, and so is this insertion sort. *)
Definition sort {A} (key : A -> Z) (l : list A) : list A :=
  fold_right (insert key) [] l.

End JSArray.

(** A [Map] with string keys; iteration follows the order of first
    insertion. *)
Module JSMap.

Definition t (V : Type) : Type := list (string * V).

Definition empty {V} : t V := [].

Fixpoint get {V} (m : t V) (k : string) : option V :=
  match m with
  | [] => None
  | (k', v) :: m' => if String.eqb k k' then Some v else get m' k
  end.

Definition has {V} (m : t V) (k : string) : bool :=
  match get m k with Some _ => true | None => false end.

Fixpoint set {V} (m : t V) (k : string) (v : V) : t V :=
  match m with
  | [] => [(k, v)]
  | (k', v') :: m' =>
      if String.eqb k k' then (k', v) :: m' else (k', v') :: set m' k v
  end.

Fixpoint delete {V} (m : t V) (k : string) : t V :=
  match m with
  | [] => []
  | (k', v') :: m' =>
      if String.eqb k k' then m' else (k', v') :: delete m' k
  end.

Definition values {V} (m : t V) : list V := map snd m.

End JSMap.

(* ================================================================= *)
(** ** types.ts *)

Record MessageSentEvent : Type := {
  ev_sender : string;
  ev_recipient : string;
  ev_ciphertext : list byte;
  ev_nonce : list byte;
  ev_timestamp : Z;
  ev_txSignature : option string;
}.

Definition with_txSignature (e : MessageSentEvent) (sig : string)
  : MessageSentEvent :=
  {| ev_sender := ev_sender e;
     ev_recipient := ev_recipient e;
     ev_ciphertext := ev_ciphertext e;
     ev_nonce := ev_nonce e;
     ev_timestamp := ev_timestamp e;
     ev_txSignature := Some sig |}.

Record Message `{Library} : Type := {
  msg_sender : string;
  msg_recipient : string;
  msg_text : Text;
  msg_timestamp : Z;
  msg_messageId : list byte;
  msg_txSignatures : list string;
}.

(* ================================================================= *)
(** ** events.ts *)

Module Events.

Definition MESSAGE_SENT_DISCRIMINATOR : list byte :=
  map u8 [116; 70; 224; 76; 128; 28; 110; 55].

Fixpoint bytesEqual_loop (n : nat) (i : Z) (a b : list byte) : bool :=
  match n with
  | O => true
  | S n' =>
      if negb (Z.eqb (num (get a i)) (num (get b i))) then false
      else bytesEqual_loop n' (i + 1) a b
  end.

Definition bytesEqual (a b : list byte) : bool :=
  if negb (len a =? len b) then false
  else bytesEqual_loop (length a) 0 a b.

Definition readU32LE (data : list byte) (offset : Z) : Z :=
  bor (bor (bor (num (get data offset))
                (shl (num (get data (offset + 1))) 8))
           (shl (num (get data (offset + 2))) 16))
      (shl (num (get data (offset + 3))) 24).

(** The two halves are combined with [|], whose result is a signed 32-bit
    integer whatever [>>> 0] produced on the way.  The last line is
    arithmetic on doubles: the product is exact, the sum is rounded once
    it passes 2^53 in magnitude. *)
Definition readI64LE (data : list byte) (offset : Z) : Z :=
  let lo := bor (bor (bor (num (get data offset))
                          (shl (num (get data (offset + 1))) 8))
                     (shl (num (get data (offset + 2))) 16))
                (ushr (shl (num (get data (offset + 3))) 24) 0) in
  let hi := bor (bor (bor (num (get data (offset + 4)))
                          (shl (num (get data (offset + 5))) 8))
                     (shl (num (get data (offset + 6))) 16))
                (ushr (shl (num (get data (offset + 7))) 24) 0) in
  number_add lo (number_mul hi 4294967296).

Section WithLibrary.
Context `{Library}.

Definition base64Decode (str : string) : result (list byte) :=
  match globalThis_atob with
  | Some atob =>
      binary <- atob str ;;
      Ok (list_byte_of_string binary)
  | None => Ok (Buffer_from_base64 str)
  end.

Definition pubkeyBytesToAddress (bytes : list byte) : string :=
  getBase58Decoder_decode bytes.

(** The body of the loop over the log lines: [None] is [continue]. *)
Definition parseLine (line : string) : option MessageSentEvent :=
  let prefix := "Program data: " in
  let idx := JSString.indexOf line prefix in
  if idx =? -1 then None else
  let b64 :=
    JSString.trim
      (JSString.sliceFrom line (idx + Z.of_nat (String.length prefix))) in
  match base64Decode b64 with
  | Throw _ => None
  | Ok data =>
      if len data <? 8 then None else
      if negb (bytesEqual (slice data 0 8) MESSAGE_SENT_DISCRIMINATOR)
      then None else
      let offset := 8 in
      let senderBytes := slice data offset (offset + 32) in
      let offset := offset + 32 in
      let recipientBytes := slice data offset (offset + 32) in
      let offset := offset + 32 in
      let ctLen := readU32LE data offset in
      let offset := offset + 4 in
      let ciphertext := slice data offset (offset + ctLen) in
      let offset := offset + ctLen in
      let nonce := slice data offset (offset + 24) in
      let offset := offset + 24 in
      let timestamp := readI64LE data offset in
      Some {| ev_sender := pubkeyBytesToAddress senderBytes;
              ev_recipient := pubkeyBytesToAddress recipientBytes;
              ev_ciphertext := ciphertext;
              ev_nonce := nonce;
              ev_timestamp := timestamp;
              ev_txSignature := None |}
  end.

Definition parseMessageSentEvents (logs : list string)
  : list MessageSentEvent :=
  fold_left
    (fun events line =>
       match parseLine line with
       | Some event => events ++ [event]
       | None => events
       end)
    logs [].

End WithLibrary.

End Events.

(* ================================================================= *)
(** ** instructions.ts *)

(** [new DataView(buf.buffer, ...).setUint32(offset, value, true)]:
    the four bytes of [value] modulo 2^32, least significant first. *)
Definition setUint32LE (buf : list byte) (offset value : Z)
  : result (list byte) :=
  if (offset <? 0) || (len buf <? offset + 4)
  then Throw "RangeError: Offset is outside the bounds of the DataView"
  else
    let v := ToUint32 value in
    let buf := store buf offset v in
    let buf := store buf (offset + 1) (Z.shiftr v 8) in
    let buf := store buf (offset + 2) (Z.shiftr v 16) in
    let buf := store buf (offset + 3) (Z.shiftr v 24) in
    Ok buf.

(** [new DataView(buf.buffer).setBigUint64(offset, value, true)]: the
    eight bytes of [value] modulo 2^64, least significant first. *)
Definition setBigUint64LE (buf : list byte) (offset value : Z)
  : result (list byte) :=
  if (offset <? 0) || (len buf <? offset + 8)
  then Throw "RangeError: Offset is outside the bounds of the DataView"
  else
    let v := value mod 2 ^ 64 in
    Ok (firstn (Z.to_nat offset) buf
        ++ map (fun k => u8 (Z.shiftr v (8 * k))) [0; 1; 2; 3; 4; 5; 6; 7]
        ++ skipn (Z.to_nat (offset + 8)) buf).

Definition mkAccount (a : string) (r : AccountRole) : AccountMeta :=
  {| am_address := a; am_role := r; am_signer := None |}.

Module Instructions.

Definition SEND_MESSAGE_DISC : list byte :=
  map u8 [57; 40; 34; 178; 189; 10; 65; 26].
Definition REGISTER_DISC : list byte :=
  map u8 [211; 124; 67; 15; 211; 194; 178; 240].
Definition UPDATE_ENCRYPTION_KEY_DISC : list byte :=
  map u8 [92; 233; 29; 101; 152; 97; 110; 235].
Definition DEREGISTER_DISC : list byte :=
  map u8 [161; 178; 39; 189; 231; 224; 13; 187].

Definition SET_MIN_FEE_DISC : list byte :=
  map u8 [114; 198; 35; 3; 41; 196; 194; 246].
Definition INITIALIZE_CONFIG_DISC : list byte :=
  map u8 [208; 127; 21; 1; 194; 190; 196; 70].
Definition UPDATE_CONFIG_DISC : list byte :=
  map u8 [29; 158; 252; 191; 10; 83; 219; 99].

Definition DEFAULT_PROGRAM_ID : string :=
  "msg1jhfewu1hGDnQKGhXDmqas6JZTq7Lg7PbSX5jY9y".
Definition SYSTEM_PROGRAM : string := "11111111111111111111111111111111".

Definition serializeSendMessageData
  (recipientPubkey ciphertext nonce : list byte) : result (list byte) :=
  let len_ := 8 + 32 + 4 + len ciphertext + 24 in
  let buf := Uint8Array len_ in
  let offset := 0 in
  buf <- set buf SEND_MESSAGE_DISC offset ;;
  let offset := offset + 8 in
  buf <- set buf recipientPubkey offset ;;
  let offset := offset + 32 in
  buf <- setUint32LE buf offset (len ciphertext) ;;
  let offset := offset + 4 in
  buf <- set buf ciphertext offset ;;
  let offset := offset + len ciphertext in
  buf <- set buf nonce offset ;;
  Ok buf.

Record SendMessageParams : Type := {
  sm_sender : string;
  sm_recipient : string;
  sm_ciphertext : list byte;
  sm_nonce : list byte;
  sm_configPda : string;
  sm_feeVault : string;
  sm_recipientRegistryPda : string;
  sm_programId : option string;
}.

Record RegisterParams : Type := {
  rg_owner : string;
  rg_encryptionPubkey : list byte;
  rg_registryPda : string;
  rg_programId : option string;
}.

Record UpdateEncryptionKeyParams : Type := {
  up_owner : string;
  up_newEncryptionPubkey : list byte;
  up_registryPda : string;
  up_programId : option string;
}.

Record DeregisterParams : Type := {
  dr_owner : string;
  dr_registryPda : string;
  dr_programId : option string;
}.

Record SetMinFeeParams : Type := {
  mf_owner : string;
  mf_registryPda : string;
  mf_minFee : Z;
  mf_programId : option string;
}.

Record InitializeConfigParams : Type := {
  ic_authority : string;
  ic_configPda : string;
  ic_feeVault : string;
  ic_protocolFee : Z;
  ic_programId : option string;
}.

Record UpdateConfigParams : Type := {
  uc_authority : string;
  uc_configPda : string;
  uc_feeVault : option string;
  uc_protocolFee : option Z;
  uc_programId : option string;
}.

Definition orDefault (programId : option string) : string :=
  match programId with Some p => p | None => DEFAULT_PROGRAM_ID end.

Section WithLibrary.
Context `{Library}.

Definition buildSendMessageInstruction (params : SendMessageParams)
  : result Instruction :=
  let programId := orDefault (sm_programId params) in
  recipientBytes <- addressToBytes (sm_recipient params) ;;
  data <- serializeSendMessageData recipientBytes (sm_ciphertext params)
                                   (sm_nonce params) ;;
  programAddress <- address programId ;;
  a0 <- address (sm_sender params) ;;
  a1 <- address (sm_configPda params) ;;
  a2 <- address (sm_feeVault params) ;;
  a3 <- address (sm_recipientRegistryPda params) ;;
  a4 <- address (sm_recipient params) ;;
  a5 <- address SYSTEM_PROGRAM ;;
  Ok {| programAddress := programAddress;
        accounts := [ mkAccount a0 WRITABLE_SIGNER;
                      mkAccount a1 READONLY;
                      mkAccount a2 WRITABLE;
                      mkAccount a3 READONLY;
                      mkAccount a4 WRITABLE;
                      mkAccount a5 READONLY ];
        data := data |}.

Definition buildRegisterInstruction (params : RegisterParams)
  : result Instruction :=
  let programId := orDefault (rg_programId params) in
  let data := Uint8Array 40 in
  data <- set data REGISTER_DISC 0 ;;
  data <- set data (rg_encryptionPubkey params) 8 ;;
  programAddress <- address programId ;;
  a0 <- address (rg_registryPda params) ;;
  a1 <- address (rg_owner params) ;;
  a2 <- address SYSTEM_PROGRAM ;;
  Ok {| programAddress := programAddress;
        accounts := [ mkAccount a0 WRITABLE;
                      mkAccount a1 WRITABLE_SIGNER;
                      mkAccount a2 READONLY ];
        data := data |}.

Definition buildUpdateEncryptionKeyInstruction
  (params : UpdateEncryptionKeyParams) : result Instruction :=
  let programId := orDefault (up_programId params) in
  let data := Uint8Array 40 in
  data <- set data UPDATE_ENCRYPTION_KEY_DISC 0 ;;
  data <- set data (up_newEncryptionPubkey params) 8 ;;
  programAddress <- address programId ;;
  a0 <- address (up_registryPda params) ;;
  a1 <- address (up_owner params) ;;
  Ok {| programAddress := programAddress;
        accounts := [ mkAccount a0 WRITABLE;
                      mkAccount a1 READONLY_SIGNER ];
        data := data |}.

Definition buildDeregisterInstruction (params : DeregisterParams)
  : result Instruction :=
  let programId := orDefault (dr_programId params) in
  let data := Uint8Array 8 in
  data <- set data DEREGISTER_DISC 0 ;;
  programAddress <- address programId ;;
  a0 <- address (dr_registryPda params) ;;
  a1 <- address (dr_owner params) ;;
  Ok {| programAddress := programAddress;
        accounts := [ mkAccount a0 WRITABLE;
                      mkAccount a1 WRITABLE_SIGNER ];
        data := data |}.

Definition buildSetMinFeeInstruction (params : SetMinFeeParams)
  : result Instruction :=
  let programId := orDefault (mf_programId params) in
  let data := Uint8Array 16 in
  data <- set data SET_MIN_FEE_DISC 0 ;;
  data <- setBigUint64LE data 8 (mf_minFee params) ;;
  programAddress <- address programId ;;
  a0 <- address (mf_registryPda params) ;;
  a1 <- address (mf_owner params) ;;
  Ok {| programAddress := programAddress;
        accounts := [ mkAccount a0 WRITABLE;
                      mkAccount a1 READONLY_SIGNER ];
        data := data |}.

Definition buildInitializeConfigInstruction (params : InitializeConfigParams)
  : result Instruction :=
  let programId := orDefault (ic_programId params) in
  let data := Uint8Array 48 in
  data <- set data INITIALIZE_CONFIG_DISC 0 ;;
  feeVaultBytes <- addressToBytes (ic_feeVault params) ;;
  data <- set data feeVaultBytes 8 ;;
  data <- setBigUint64LE data 40 (ic_protocolFee params) ;;
  programAddress <- address programId ;;
  a0 <- address (ic_configPda params) ;;
  a1 <- address (ic_authority params) ;;
  a2 <- address SYSTEM_PROGRAM ;;
  Ok {| programAddress := programAddress;
        accounts := [ mkAccount a0 WRITABLE;
                      mkAccount a1 WRITABLE_SIGNER;
                      mkAccount a2 READONLY ];
        data := data |}.

(** [feeVault] is tested for truthiness, [protocolFee] against
    [undefined]: an empty string counts as absent, a fee of zero does
    not. *)
Definition buildUpdateConfigInstruction (params : UpdateConfigParams)
  : result Instruction :=
  let programId := orDefault (uc_programId params) in
  let data := Uint8Array (8 + 33 + 9) in
  data <- set data UPDATE_CONFIG_DISC 0 ;;
  data <-
    match uc_feeVault params with
    | Some feeVault =>
        if JSString.truthy feeVault then
          let data := store data 8 1 in
          feeVaultBytes <- addressToBytes feeVault ;;
          set data feeVaultBytes 9
        else Ok data
    | None => Ok data
    end ;;
  data <-
    match uc_protocolFee params with
    | Some protocolFee =>
        let data := store data 41 1 in
        setBigUint64LE data 42 protocolFee
    | None => Ok data
    end ;;
  programAddress <- address programId ;;
  a0 <- address (uc_configPda params) ;;
  a1 <- address (uc_authority params) ;;
  Ok {| programAddress := programAddress;
        accounts := [ mkAccount a0 WRITABLE;
                      mkAccount a1 READONLY_SIGNER ];
        data := data |}.

End WithLibrary.

End Instructions.

(** The revision of [instructions.ts] whose [buildSendMessageInstruction]
    takes the five fields that [SolanaMessenger.send] passes.  Its
    [serializeSendMessageData] and discriminators are the ones above; the
    sender is the only account. *)
Module Instructions0.

Record SendMessageParams : Type := {
  sm_sender : string;
  sm_recipient : string;
  sm_ciphertext : list byte;
  sm_nonce : list byte;
  sm_programId : option string;
}.

Section WithLibrary.
Context `{Library}.

Definition buildSendMessageInstruction (params : SendMessageParams)
  : result Instruction :=
  let programId := Instructions.orDefault (sm_programId params) in
  recipientBytes <- addressToBytes (sm_recipient params) ;;
  data <- Instructions.serializeSendMessageData
            recipientBytes (sm_ciphertext params) (sm_nonce params) ;;
  programAddress <- address programId ;;
  a0 <- address (sm_sender params) ;;
  Ok {| programAddress := programAddress;
        accounts := [ mkAccount a0 WRITABLE_SIGNER ];
        data := data |}.

End WithLibrary.

End Instructions0.

(* ================================================================= *)
(** ** pda.ts *)

Section Pda.
Context `{Library}.

Definition deriveRegistryPda (walletAddress : string)
  (programId : option string) : result string :=
  walletBytes <- addressToBytes walletAddress ;;
  programAddress <- address (Instructions.orDefault programId) ;;
  getProgramDerivedAddress programAddress
    [list_byte_of_string "messenger"; walletBytes].

End Pda.

(* ================================================================= *)
(** ** registry.ts *)

Section Registry.
Context `{Library} {W : Type} `{Chain W}.

(** [!result.value?.data]: the value is null, or its data is undefined or
    an empty string. *)
Definition noData (value : option AccountInfo) : bool :=
  match value with
  | None => true
  | Some info =>
      match ai_data info with
      | None => true
      | Some (DataString s) => negb (JSString.truthy s)
      | Some (DataTuple _ _) => false
      end
  end.

Definition lookupEncryptionKey (walletAddress : string)
  (programId : option string) : M W (option string) :=
  registryPda <~ lift (deriveRegistryPda walletAddress programId) ;;
  catch
    (pda <~ lift (address registryPda) ;;
     value <~ rpc_getAccountInfo pda ;;
     if noData value then ret None else
     let raw :=
       match value with
       | Some {| ai_data := Some (DataString s) |} => Buffer_from_base64 s
       | Some {| ai_data := Some (DataTuple content _) |} =>
           Buffer_from_base64 content
       | _ => []
       end in
     let encryptionKeyBytes := slice raw 40 72 in
     ret (Some (getBase58Decoder_decode encryptionKeyBytes)))
    (fun _ => ret None).

End Registry.

(* ================================================================= *)
(** ** messenger.ts *)

Module Messenger.

Record KeyPair : Type := {
  publicKey : list byte;
  secretKey : list byte;
}.

(** One notification of the log subscription. *)
Record LogsNotification : Type := {
  ln_signature : string;
  ln_logs : list string;
  ln_err : bool;
}.

(** An entry of the buffer of [listen]. *)
Record ChunkBuffer : Type := {
  cb_events : list MessageSentEvent;
  cb_totalChunks : Z;
}.

(** [event.txSignature || ""] *)
Definition txSignatureOrEmpty (e : MessageSentEvent) : string :=
  match ev_txSignature e with
  | Some s => if JSString.truthy s then s else ""
  | None => ""
  end.

(** [arr[i] = { ...arr[i], signer }] on the account list *)
Fixpoint attachSigner (l : list AccountMeta) (i : nat) (s : KeyPairSigner)
  : list AccountMeta :=
  match l, i with
  | [], _ => []
  | a :: l', O =>
      {| am_address := am_address a; am_role := am_role a;
         am_signer := Some s |} :: l'
  | a :: l', S i' => a :: attachSigner l' i' s
  end.

Definition withSigner (ix : Instruction) (i : nat) (s : KeyPairSigner)
  : Instruction :=
  {| programAddress := programAddress ix;
     accounts := attachSigner (accounts ix) i s;
     data := data ix |}.

(** The address [getSubscriptions] connects to:
    [this.wsUrl ?? this.rpcUrl.replace("https://", "wss://")
                              .replace("http://", "ws://")]. *)
Definition subscriptionsUrl (wsUrl : option string) (rpcUrl : string)
  : string :=
  match wsUrl with
  | Some u => u
  | None =>
      JSString.replace (JSString.replace rpcUrl "https://" "wss://")
                       "http://" "ws://"
  end.

Section WithWorld.
Context `{Library} {W : Type} `{Random W} `{Chain W}.

Definition ExternalSignerFn : Type :=
  list byte -> string -> string -> M W (list byte).

(** The fields of the class that its methods read. *)
Record SolanaMessenger : Type := {
  programId : string;
  encryptionKeypair : option KeyPair;
  initialized : bool;
  signerPromise : option (result KeyPairSigner);
  keypairBytes : option (list byte);
  externalSigner : option ExternalSignerFn;
  _walletAddress : option string;
}.

Section Methods.
Variable this : SolanaMessenger.

Definition awaitSigner : M W KeyPairSigner :=
  match signerPromise this with
  | Some p => lift p
  | None => raise "TypeError: Cannot read properties of null"
  end.

Definition getAddress : M W string :=
  match _walletAddress this with
  | Some a =>
      if JSString.truthy a then ret a
      else signer <~ awaitSigner ;; ret (signer_address signer)
  | None => signer <~ awaitSigner ;; ret (signer_address signer)
  end.

Definition isExternalSigner : bool :=
  match externalSigner this with Some _ => true | None => false end.

(** The confirmation poll of the external-signer branch. *)
Fixpoint pollConfirmation (n : nat) (sig : string) : M W string :=
  match n with
  | O => raise ("Transaction " ++ sig ++ " not confirmed after 30s")%string
  | S n' =>
      status <~ rpc_getSignatureStatuses sig ;;
      match status with
      | Some st =>
          if String.eqb st "confirmed" || String.eqb st "finalized"
          then ret sig
          else _ <~ setTimeout 1000 ;; pollConfirmation n' sig
      | None => _ <~ setTimeout 1000 ;; pollConfirmation n' sig
      end
  end.

Definition sendInstruction (instruction : Instruction) : M W string :=
  myAddress <~ getAddress ;;
  latestBlockhash <~ rpc_getLatestBlockhash ;;
  match externalSigner this with
  | Some externalSigner =>
      feePayer <~ lift (address myAddress) ;;
      let txMessage :=
        {| tm_version := 0;
           tm_feePayer := Some feePayer;
           tm_lifetime := Some latestBlockhash;
           tm_instructions := [instruction] |} in
      unsignedBytes <~ lift (compileAndEncodeTransaction txMessage) ;;
      signedBytes <~
        externalSigner unsignedBytes (blockhash latestBlockhash) myAddress ;;
      sig <~ lift (getSignatureFromTransaction signedBytes) ;;
      let b64 := Buffer_toString_base64 signedBytes in
      _ <~ rpc_sendTransaction b64 ;;
      pollConfirmation 30 sig
  | None =>
      signer <~ awaitSigner ;;
      let txMessage :=
        {| tm_version := 0;
           tm_feePayer := Some (signer_address signer);
           tm_lifetime := Some latestBlockhash;
           tm_instructions := [instruction] |} in
      signedTx <~ signTransactionMessageWithSigners txMessage ;;
      sig <~ lift (getSignatureFromTransaction signedTx) ;;
      _ <~ sendAndConfirm signedTx ;;
      ret sig
  end.

(** The body of [for (const chunk of chunks)] in [send]: encrypt, build,
    attach the signer, submit. *)
Definition sendChunk (myAddress recipient : string)
  (encryptionSecretKey encryptToBytes : list byte) (chunk : list byte)
  : M W string :=
  ep <~ Crypto.encrypt chunk encryptionSecretKey encryptToBytes ;;
  ix <~ lift (Instructions0.buildSendMessageInstruction
                {| Instructions0.sm_sender := myAddress;
                   Instructions0.sm_recipient := recipient;
                   Instructions0.sm_ciphertext := Crypto.ep_ciphertext ep;
                   Instructions0.sm_nonce := Crypto.ep_nonce ep;
                   Instructions0.sm_programId := Some (programId this) |}) ;;
  ix <~ match signerPromise this with
        | Some p => signer <~ lift p ;; ret (withSigner ix 0 signer)
        | None => ret ix
        end ;;
  sendInstruction ix.

(** The loop of [send]; [signatures] is the array the loop pushes to. *)
Fixpoint send_loop (myAddress recipient : string)
  (encryptionSecretKey encryptToBytes : list byte)
  (chunks : list (list byte)) (signatures : list string)
  : M W (list string) :=
  match chunks with
  | [] => ret signatures
  | chunk :: rest =>
      sig <~ sendChunk myAddress recipient encryptionSecretKey
                       encryptToBytes chunk ;;
      send_loop myAddress recipient encryptionSecretKey encryptToBytes
                rest (signatures ++ [sig])
  end.

(** The statements of [send] in front of the loop: the sender address,
    the frames, the key to encrypt to and the secret key to encrypt
    with. *)
Definition sendPrepare (recipient : string) (message : Text)
  (encryptionPubkey : option (list byte))
  : M W (string * list (list byte) * list byte * list byte) :=
  myAddress <~ getAddress ;;
  chunks <~ Crypto.encodeMessage message ;;
  encryptToBytes <~
    match encryptionPubkey with
    | Some k => ret k
    | None =>
        if initialized this then
          lookedUp <~ lookupEncryptionKey recipient (Some (programId this)) ;;
          match lookedUp with
          | Some k =>
              if JSString.truthy k then lift (addressToBytes k)
              else lift (addressToBytes recipient)
          | None => lift (addressToBytes recipient)
          end
        else lift (addressToBytes recipient)
    end ;;
  let encryptionSecretKey :=
    match keypairBytes this with
    | Some k => Some k
    | None => option_map secretKey (encryptionKeypair this)
    end in
  match encryptionSecretKey with
  | None =>
      raise "No encryption key available. Call init() first when using external signer mode."
  | Some encryptionSecretKey =>
      ret (myAddress, chunks, encryptToBytes, encryptionSecretKey)
  end.

Definition send (recipient : string) (message : Text)
  (encryptionPubkey : option (list byte)) : M W (list string) :=
  prepared <~ sendPrepare recipient message encryptionPubkey ;;
  let '(myAddress, chunks, encryptToBytes, encryptionSecretKey) :=
    prepared in
  send_loop myAddress recipient encryptionSecretKey encryptToBytes
            chunks [].

Definition decryptToBytes (event : MessageSentEvent)
  : result (option (list byte)) :=
  senderPubkeyBytes <- addressToBytes (ev_sender event) ;;
  first <-
    match encryptionKeypair this with
    | Some kp =>
        Crypto.decryptRaw (ev_ciphertext event) (ev_nonce event)
                          senderPubkeyBytes (secretKey kp)
    | None => Ok None
    end ;;
  match first with
  | Some r => Ok (Some r)
  | None =>
      match keypairBytes this with
      | Some k =>
          Crypto.decryptRaw (ev_ciphertext event) (ev_nonce event)
                            senderPubkeyBytes k
      | None => Ok None
      end
  end.

Definition Chunk : Type := Crypto.DecodedMessage * MessageSentEvent.

Definition chunkKey (c : Chunk) : Z := Crypto.chunkIndex (fst c).

(** The message built from the sorted chunks of a group; [first] is
    [chunks[0]]. *)
Definition messageOfChunks (first : Chunk) (chunks : list Chunk) : Message :=
  let payloads := map (fun c => Crypto.payload (fst c)) chunks in
  let combined := List.concat payloads in
  {| msg_sender := ev_sender (snd first);
     msg_recipient := ev_recipient (snd first);
     msg_text := TextDecoder_decode combined;
     msg_timestamp := ev_timestamp (snd first);
     msg_messageId := Crypto.messageId (fst first);
     msg_txSignatures := map (fun c => txSignatureOrEmpty (snd c)) chunks |}.

Definition standaloneMessage (decoded : Crypto.DecodedMessage)
  (event : MessageSentEvent) : Message :=
  {| msg_sender := ev_sender event;
     msg_recipient := ev_recipient event;
     msg_text := TextDecoder_decode (Crypto.payload decoded);
     msg_timestamp := ev_timestamp event;
     msg_messageId := Crypto.messageId decoded;
     msg_txSignatures := [txSignatureOrEmpty event] |}.

(** First loop of [reassembleMessages]: the state is the pair of
    [chunkGroups] and [standaloneMessages]. *)
Fixpoint collectFrames (events : list MessageSentEvent)
  (chunkGroups : JSMap.t (list Chunk)) (standaloneMessages : list Message)
  : result (JSMap.t (list Chunk) * list Message) :=
  match events with
  | [] => Ok (chunkGroups, standaloneMessages)
  | event :: rest =>
      raw <- decryptToBytes event ;;
      match raw with
      | None => collectFrames rest chunkGroups standaloneMessages
      | Some raw =>
          match Crypto.decodeMessage raw with
          | Throw _ => collectFrames rest chunkGroups standaloneMessages
          | Ok decoded =>
              let msgIdHex := hexEncode (Crypto.messageId decoded) in
              if Crypto.totalChunks decoded =? 1 then
                collectFrames rest chunkGroups
                  (standaloneMessages ++ [standaloneMessage decoded event])
              else
                let chunkGroups :=
                  if negb (JSMap.has chunkGroups msgIdHex)
                  then JSMap.set chunkGroups msgIdHex []
                  else chunkGroups in
                let group :=
                  match JSMap.get chunkGroups msgIdHex with
                  | Some g => g
                  | None => []
                  end in
                collectFrames rest
                  (JSMap.set chunkGroups msgIdHex (group ++ [(decoded, event)]))
                  standaloneMessages
          end
      end
  end.

(** Second loop of [reassembleMessages], over the groups. *)
Fixpoint finalizeGroups (groups : list (list Chunk))
  (standaloneMessages : list Message) : list Message :=
  match groups with
  | [] => standaloneMessages
  | chunks :: rest =>
      let chunks := JSArray.sort chunkKey chunks in
      match chunks with
      | [] => finalizeGroups rest standaloneMessages
      | first :: _ =>
          if negb (len chunks =? Crypto.totalChunks (fst first))
          then finalizeGroups rest standaloneMessages
          else finalizeGroups rest
                 (standaloneMessages ++ [messageOfChunks first chunks])
      end
  end.

Definition reassembleMessages (events : list MessageSentEvent)
  : result (list Message) :=
  st <- collectFrames events JSMap.empty [] ;;
  let (chunkGroups, standaloneMessages) := st in
  let standaloneMessages :=
    finalizeGroups (JSMap.values chunkGroups) standaloneMessages in
  Ok (JSArray.sort msg_timestamp standaloneMessages).

Definition assembleChunks (events : list MessageSentEvent)
  : result (option Message) :=
  decoded <-
    mapM (fun e =>
            raw <- decryptToBytes e ;;
            match raw with
            | None => Ok None
            | Some raw =>
                d <- Crypto.decodeMessage raw ;;
                Ok (Some (d, e))
            end)
         events ;;
  let decoded : list Chunk := somes decoded in
  if len decoded =? 0 then Ok None else
  let decoded := JSArray.sort chunkKey decoded in
  match decoded with
  | [] => Ok None
  | first :: _ => Ok (Some (messageOfChunks first decoded))
  end.

(** The pagination loop of [read]:
    [while (allSignatures.length < limit * 10)].  Every turn that does not
    leave the loop adds at least [batchSize] entries, so [fuel] turns are
    enough when [limit * 10 <= fuel * batchSize]. *)
Definition batchSize : Z := 1000.

Fixpoint paginate (fuel : nat) (programAddr : string) (limit : Z)
  (allSignatures : list SignatureInfo) (before : option string)
  : M W (list SignatureInfo) :=
  match fuel with
  | O => ret allSignatures
  | S fuel' =>
      if len allSignatures <? limit * 10 then
        result <~ rpc_getSignaturesForAddress programAddr before batchSize ;;
        if len result =? 0 then ret allSignatures else
        let allSignatures :=
          allSignatures
          ++ map (fun s => {| signature := signature s;
                              blockTime := blockTime s |}) result in
        let before := option_map signature (last (map Some result) None) in
        if len result <? batchSize then ret allSignatures
        else paginate fuel' programAddr limit allSignatures before
      else ret allSignatures
  end.

(** [s.blockTime && s.blockTime >= since] as a filter predicate: a null or
    zero block time is falsy. *)
Definition sinceFilter (since : Z) (s : SignatureInfo) : bool :=
  match blockTime s with
  | None => false
  | Some t => negb (t =? 0) && (since <=? t)
  end.

Definition filterSince (since : Z) (allSignatures : list SignatureInfo)
  : list SignatureInfo :=
  if 0 <? since then filter (sinceFilter since) allSignatures
  else allSignatures.

(** The inner loop of [read] over one batch; it is left early by [break]
    once [limit] events are held. *)
Fixpoint readBatch (myAddress : string) (limit : Z)
  (batch : list SignatureInfo) (messages : list MessageSentEvent)
  : M W (list MessageSentEvent) :=
  match batch with
  | [] => ret messages
  | entry :: rest =>
      logMessages <~ rpc_getTransaction (signature entry) ;;
      match logMessages with
      | None => readBatch myAddress limit rest messages
      | Some logs =>
          let events := Events.parseMessageSentEvents logs in
          let messages :=
            messages
            ++ map (fun e => with_txSignature e (signature entry))
                   (filter (fun e => String.eqb (ev_recipient e) myAddress)
                           events) in
          if limit <=? len messages then ret messages
          else readBatch myAddress limit rest messages
      end
  end.

(** The outer loop, [for (let i = 0; i < allSignatures.length; i += 20)];
    [fuel] bounds the number of batches. *)
Fixpoint readBatches (fuel : nat) (myAddress : string) (limit : Z)
  (allSignatures : list SignatureInfo) (i : Z)
  (messages : list MessageSentEvent) : M W (list MessageSentEvent) :=
  match fuel with
  | O => ret messages
  | S fuel' =>
      if i <? len allSignatures then
        let batch := slice allSignatures i (i + 20) in
        messages <~ readBatch myAddress limit batch messages ;;
        if limit <=? len messages then ret messages
        else readBatches fuel' myAddress limit allSignatures (i + 20) messages
      else ret messages
  end.

Record ReadOptions : Type := {
  since : option Z;
  limit : option Z;
}.

Definition read (options : option ReadOptions) : M W (list Message) :=
  myAddress <~ getAddress ;;
  let limit :=
    match options with
    | Some {| limit := Some l |} => l
    | _ => 100
    end in
  let since :=
    match options with
    | Some {| since := Some s |} => s
    | _ => 0
    end in
  programAddr <~ lift (address (programId this)) ;;
  allSignatures <~
    paginate (S (Z.to_nat (limit * 10))) programAddr limit [] None ;;
  let allSignatures := filterSince since allSignatures in
  messages <~
    readBatches (S (length allSignatures)) myAddress limit allSignatures 0
                [] ;;
  lift (reassembleMessages (slice messages 0 limit)).

(** What [listen] does with one event of a notification.  The state is the
    chunk buffer and the messages handed to the callback so far;
    [callbackThrows] tells for which messages the callback raises. *)
Definition ListenState : Type := JSMap.t ChunkBuffer * list Message.

Definition listenEvent (callbackThrows : Message -> bool)
  (myAddress sig : string) (st : ListenState) (event : MessageSentEvent)
  : ListenState :=
  let (chunkBuffer, delivered) := st in
  if negb (String.eqb (ev_recipient event) myAddress) then st else
  let event := with_txSignature event sig in
  match decryptToBytes event with
  | Throw _ => st
  | Ok None => st
  | Ok (Some rawFrame) =>
      match Crypto.decodeMessage rawFrame with
      | Throw _ => st
      | Ok decoded =>
          let msgIdHex := hexEncode (Crypto.messageId decoded) in
          if Crypto.totalChunks decoded =? 1 then
            (chunkBuffer, delivered ++ [standaloneMessage decoded event])
          else
            let chunkBuffer :=
              if negb (JSMap.has chunkBuffer msgIdHex)
              then JSMap.set chunkBuffer msgIdHex
                     {| cb_events := [];
                        cb_totalChunks := Crypto.totalChunks decoded |}
              else chunkBuffer in
            match JSMap.get chunkBuffer msgIdHex with
            | None => (chunkBuffer, delivered)
            | Some buf =>
                let buf :=
                  {| cb_events := cb_events buf ++ [event];
                     cb_totalChunks := cb_totalChunks buf |} in
                let chunkBuffer := JSMap.set chunkBuffer msgIdHex buf in
                if len (cb_events buf) =? cb_totalChunks buf then
                  match assembleChunks (cb_events buf) with
                  | Throw _ => (chunkBuffer, delivered)
                  | Ok None => (JSMap.delete chunkBuffer msgIdHex, delivered)
                  | Ok (Some assembled) =>
                      if callbackThrows assembled
                      then (chunkBuffer, delivered ++ [assembled])
                      else (JSMap.delete chunkBuffer msgIdHex,
                            delivered ++ [assembled])
                  end
                else (chunkBuffer, delivered)
            end
      end
  end.

Definition listenNotification (callbackThrows : Message -> bool)
  (myAddress : string) (st : ListenState) (n : LogsNotification)
  : ListenState :=
  if ln_err n then st else
  fold_left (listenEvent callbackThrows myAddress (ln_signature n))
            (Events.parseMessageSentEvents (ln_logs n)) st.

(** [processLogs] over the notifications that arrive before the
    subscription is aborted. *)
Definition processLogs (callbackThrows : Message -> bool)
  (myAddress : string) (notifications : list LogsNotification)
  : ListenState :=
  fold_left (listenNotification callbackThrows myAddress) notifications
            (JSMap.empty, []).

(** The three methods that change the registry entry of the wallet.
    Each builds its instruction, attaches the signer to the owner account,
    the second of the list, and submits. *)
Definition register (encryptionPubkey : list byte) : M W string :=
  myAddress <~ getAddress ;;
  registryPda <~ lift (deriveRegistryPda myAddress (Some (programId this))) ;;
  ix <~ lift (Instructions.buildRegisterInstruction
                {| Instructions.rg_owner := myAddress;
                   Instructions.rg_encryptionPubkey := encryptionPubkey;
                   Instructions.rg_registryPda := registryPda;
                   Instructions.rg_programId := Some (programId this) |}) ;;
  ix <~ match signerPromise this with
        | Some p => signer <~ lift p ;; ret (withSigner ix 1 signer)
        | None => ret ix
        end ;;
  sendInstruction ix.

Definition updateEncryptionKey (newEncryptionPubkey : list byte)
  : M W string :=
  myAddress <~ getAddress ;;
  registryPda <~ lift (deriveRegistryPda myAddress (Some (programId this))) ;;
  ix <~ lift (Instructions.buildUpdateEncryptionKeyInstruction
                {| Instructions.up_owner := myAddress;
                   Instructions.up_newEncryptionPubkey := newEncryptionPubkey;
                   Instructions.up_registryPda := registryPda;
                   Instructions.up_programId := Some (programId this) |}) ;;
  ix <~ match signerPromise this with
        | Some p => signer <~ lift p ;; ret (withSigner ix 1 signer)
        | None => ret ix
        end ;;
  sendInstruction ix.

Definition deregister : M W string :=
  myAddress <~ getAddress ;;
  registryPda <~ lift (deriveRegistryPda myAddress (Some (programId this))) ;;
  ix <~ lift (Instructions.buildDeregisterInstruction
                {| Instructions.dr_owner := myAddress;
                   Instructions.dr_registryPda := registryPda;
                   Instructions.dr_programId := Some (programId this) |}) ;;
  ix <~ match signerPromise this with
        | Some p => signer <~ lift p ;; ret (withSigner ix 1 signer)
        | None => ret ix
        end ;;
  sendInstruction ix.

Definition getEncryptionSecretKey : result (list byte) :=
  match encryptionKeypair this with
  | None => Throw "Not initialized. Call init() first."
  | Some kp => Ok (secretKey kp)
  end.

Definition getEncryptionPublicKey : result (list byte) :=
  match encryptionKeypair this with
  | None => Throw "Not initialized. Call init() first."
  | Some kp => Ok (publicKey kp)
  end.

End Methods.

End WithWorld.

End Messenger.

(* ================================================================= *)
(** ** The frame format in the words of the specification *)

(** The table of section 3: flags (1), message_id (8), chunk_index (2,
    big-endian), total_chunks (2, big-endian), payload.  The embedded code
    is compared with this layout, it is not defined by it. *)
Definition frameLayout (flag : Z) (mid : list byte) (ci tc : Z)
  (p : list byte) : list byte :=
  u8 flag :: mid ++ [u8 (ci / 256); u8 ci; u8 (tc / 256); u8 tc] ++ p.

(** The indices [start, start + 1, ..., start + n - 1]. *)
Definition zrange (start : Z) (n : nat) : list Z :=
  map (fun k => start + Z.of_nat k) (seq 0 n).

(** The [i]-th piece of at most 661 bytes of a payload. *)
Definition chunkOf (payload : list byte) (i : Z) : list byte :=
  slice payload (i * Crypto.MAX_PAYLOAD_SIZE)
        (Z.min (i * Crypto.MAX_PAYLOAD_SIZE + Crypto.MAX_PAYLOAD_SIZE)
               (len payload)).

Definition framesOf (mid payload : list byte) : list (list byte) :=
  if len payload <=? Crypto.MAX_PAYLOAD_SIZE
  then [frameLayout Crypto.FLAGS_STANDALONE mid 0 1 payload]
  else
    let n := Math_ceil_div (len payload) Crypto.MAX_PAYLOAD_SIZE in
    map (fun i => frameLayout Crypto.FLAGS_CHUNKED mid i n (chunkOf payload i))
        (zrange 0 (Z.to_nat n)).

(** Little-endian bytes of a number, as the wire formats of section 4.3
    use them. *)
Definition u32le (n : Z) : list byte :=
  [u8 n; u8 (n / 2 ^ 8); u8 (n / 2 ^ 16); u8 (n / 2 ^ 24)].

Definition i64le (n : Z) : list byte :=
  [u8 n; u8 (n / 2 ^ 8); u8 (n / 2 ^ 16); u8 (n / 2 ^ 24);
   u8 (n / 2 ^ 32); u8 (n / 2 ^ 40); u8 (n / 2 ^ 48); u8 (n / 2 ^ 56)].

(** The number that little-endian bytes denote. *)
Fixpoint le_value (bs : list byte) : Z :=
  match bs with
  | [] => 0
  | b :: bs' => Zb b + 256 * le_value bs'
  end.

(** An address that [address()] accepts. *)
Definition validAddress `{Library} (s : string) : Prop :=
  exists a, address s = Ok a.

(** The [MessageSent] record of section 4.3: discriminator, sender (32),
    recipient (32), ct_len (u32 LE), ciphertext, nonce (24), timestamp
    (i64 LE). *)
Definition eventRecord (sender recipient ct nonce : list byte) (ts : Z)
  : list byte :=
  Events.MESSAGE_SENT_DISCRIMINATOR ++ sender ++ recipient
  ++ u32le (len ct) ++ ct ++ nonce ++ i64le ts.

(** The bytes a log line carries: the base64 text that follows the first
    occurrence of the prefix, trimmed and decoded.  [None] when the prefix
    does not occur or the text is rejected by the decoder. *)
Definition payloadOf `{Library} (line : string) : option (list byte) :=
  let idx := JSString.indexOf line "Program data: " in
  if idx =? -1 then None else
  match Events.base64Decode
          (JSString.trim (JSString.sliceFrom line (idx + 14))) with
  | Ok d => Some d
  | Throw _ => None
  end.

(** The events one log line contributes. *)
Definition eventOfLine `{Library} (line : string) : list MessageSentEvent :=
  match Events.parseLine line with Some e => [e] | None => [] end.

(** Decryption cannot succeed: the sender key has no X25519 form, or
    [nacl.box.open] reports that authentication failed. *)
Definition decryptionFails `{Library}
  (ciphertext nonce senderPublicKey recipientSecretKey : list byte) : Prop :=
  ed2curve_convertPublicKey senderPublicKey = None \/
  exists senderX,
    ed2curve_convertPublicKey senderPublicKey = Some senderX /\
    nacl_box_open ciphertext nonce senderX
                  (ed2curve_convertSecretKey recipientSecretKey) = Ok None.

(** The bytes of a registry account, from either shape of its data. *)
Definition accountBytes `{Library} (info : AccountInfo) : list byte :=
  match ai_data info with
  | Some (DataString s) => Buffer_from_base64 s
  | Some (DataTuple content _) => Buffer_from_base64 content
  | None => []
  end.

(** The chunks of a list were submitted one after the other, each attempt
    succeeded, and the attempts returned the given signatures, in the
    order of the chunks. *)
Section ChunksLanded.
Context `{Library} {W : Type} `{Random W} `{Chain W}.
Variable this : Messenger.SolanaMessenger (W := W).
Variables myAddress recipient : string.
Variables encryptionSecretKey encryptToBytes : list byte.


End ChunksLanded.

(** The frame of an event: what decryption and decoding give for it, when
    both succeed. *)
Section Frames.
Context `{Library} {W : Type} `{Random W} `{Chain W}.
Variable this : Messenger.SolanaMessenger (W := W).

Definition frameOf (event : MessageSentEvent) : option Messenger.Chunk :=
  match Messenger.decryptToBytes this event with
  | Ok (Some raw) =>
      match Crypto.decodeMessage raw with
      | Ok d => Some (d, event)
      | Throw _ => None
      end
  | _ => None
  end.

Definition decodedChunks (events : list MessageSentEvent)
  : list Messenger.Chunk :=
  somes (map frameOf events).

(** The event is a chunk of the message [mid]: it decrypts, decodes, carries
    this message id and is not a standalone frame. *)
Definition chunkOfMessage (mid : list byte) (event : MessageSentEvent)
  : Prop :=
  exists d,
    frameOf event = Some (d, event) /\
    Crypto.messageId d = mid /\
    Crypto.totalChunks d <> 1.

(** The message made of chunks in the order given: sender, recipient,
    timestamp and message id of the first one, the payloads concatenated,
    one signature per chunk. *)
Definition messageFrom (first : Messenger.Chunk)
  (chunks : list Messenger.Chunk) : Message :=
  {| msg_sender := ev_sender (snd first);
     msg_recipient := ev_recipient (snd first);
     msg_text :=
       TextDecoder_decode
         (List.concat (map (fun c => Crypto.payload (fst c)) chunks));
     msg_timestamp := ev_timestamp (snd first);
     msg_messageId := Crypto.messageId (fst first);
     msg_txSignatures :=
       map (fun c => Messenger.txSignatureOrEmpty (snd c)) chunks |}.

(** What a group of chunks is turned into: one message, made of the chunks
    sorted by chunk index, when the number of chunks equals the total that
    the first chunk in index order announces; nothing otherwise. *)
Definition groupMessage (chunks : list Messenger.Chunk) : list Message :=
  match JSArray.sort Messenger.chunkKey chunks with
  | [] => []
  | first :: rest =>
      if len (first :: rest) =? Crypto.totalChunks (fst first)
      then [messageFrom first (first :: rest)]
      else []
  end.

(** An arriving event with the signature of its notification attached. *)
Definition stamp (a : string * MessageSentEvent) : MessageSentEvent :=
  with_txSignature (snd a) (fst a).

(** An arriving event that is addressed to the listener and, with its
    signature attached, is a chunk of the message [mid]. *)
Definition arrival (myAddress : string) (mid : list byte)
  (a : string * MessageSentEvent) : Prop :=
  ev_recipient (snd a) = myAddress /\ chunkOfMessage mid (stamp a).

(** What [assembleChunks] does with one event. *)
Definition frameStep (e : MessageSentEvent)
  : result (option Messenger.Chunk) :=
  bind (Messenger.decryptToBytes this e)
       (fun raw =>
          match raw with
          | None => Ok None
          | Some raw =>
              bind (Crypto.decodeMessage raw) (fun d => Ok (Some (d, e)))
          end).

(** [listen] fed with events one at a time, each with the signature of its
    notification. *)
Definition listenEvents (callbackThrows : Message -> bool)
  (myAddress : string) (arrivals : list (string * MessageSentEvent))
  (st : Messenger.ListenState) : Messenger.ListenState :=
  fold_left
    (fun st a =>
       Messenger.listenEvent this callbackThrows myAddress (fst a) st (snd a))
    arrivals st.

End Frames.

(* ================================================================= *)
(** ** Provenance of signatures on the read path *)

(** The event carries the signature of one of the [entries] of the
    signature list. *)
Definition stampedFrom (entries : list SignatureInfo) (e : MessageSentEvent)
  : Prop :=
  exists s, In s entries /\ ev_txSignature e = Some (signature s).

(** Every transaction signature of the message is the one of an event
    that satisfies [P]. *)
Definition signedBy `{Library} (P : MessageSentEvent -> Prop) (m : Message)
  : Prop :=
  forall sig, In sig (msg_txSignatures m) ->
              exists e, P e /\ sig = Messenger.txSignatureOrEmpty e.

(** The entry was reported with a block time that is not before [since]. *)
Definition timedSince (since : Z) (s : SignatureInfo) : Prop :=
  exists t, blockTime s = Some t /\ since <= t.

(** [options?.limit ?? 100] *)
Definition limitOf (l : option Z) : Z :=
  match l with Some l => l | None => 100 end.

(* ================================================================= *)
(** ** Borsh options of the configuration instructions *)

(** [Option<Pubkey>]: a tag byte and 32 bytes, all zero when absent. *)
Definition optionPubkey (key : option (list byte)) : list byte :=
  match key with
  | Some k => x01 :: k
  | None => repeat x00 33
  end.

(** [Option<u64>]: a tag byte and eight little-endian bytes. *)
Definition optionU64 (n : option Z) : list byte :=
  match n with
  | Some n => x01 :: i64le n
  | None => repeat x00 9
  end.

(** The bytes of the fee vault that [update_config] is given, if it is
    given one: an empty string counts as none. *)
Definition vaultBytes `{Library} (feeVault : option string)
  : result (option (list byte)) :=
  match feeVault with
  | Some v =>
      if JSString.truthy v
      then bind (addressToBytes v) (fun b => Ok (Some b))
      else Ok None
  | None => Ok None
  end.

(* ================================================================= *)
(** ** What a returned message is made of *)

(** [options?.limit ?? 100] and [options?.since ?? 0] of [read]. *)
Definition readLimit (options : option Messenger.ReadOptions) : Z :=
  match options with
  | Some o => limitOf (Messenger.limit o)
  | None => 100
  end.

Definition readSince (options : option Messenger.ReadOptions) : Z :=
  match options with
  | Some {| Messenger.since := Some s |} => s
  | _ => 0
  end.

(** The message is a standalone frame of an event that satisfies [P], or
    it is assembled from chunks whose events all satisfy [P], its header
    fields taken from one of them. *)
Definition builtFrom `{Library} (P : MessageSentEvent -> Prop) (m : Message)
  : Prop :=
  (exists d e, P e /\ m = Messenger.standaloneMessage d e) \/
  (exists first chunks,
      In first chunks /\ Forall (fun c => P (snd c)) chunks /\
      m = Messenger.messageOfChunks first chunks).

(** Non-decreasing timestamps. *)
Definition byTimestamp `{Library} (a b : Message) : Prop :=
  msg_timestamp a <= msg_timestamp b.

(* ================================================================= *)
(** ** The confirmation poll *)

Section Polling.
Context {W : Type} `{Chain W}.

(** The status is neither of the two that end the poll. *)
Definition pending (status : option string) : Prop :=
  status <> Some "confirmed" /\ status <> Some "finalized".

(** [k] polls in a row found the transaction pending: each status query
    returned a pending status, and the wait of one second that follows
    it returned. *)
Inductive Polled (sig : string) : nat -> W -> W -> Prop :=
| polled_none (w : W) : Polled sig 0 w w
| polled_more (k : nat) (w w1 w2 w' : W) (status : option string) :
    rpc_getSignatureStatuses sig w = (Ok status, w1) ->
    pending status ->
    setTimeout 1000 w1 = (Ok tt, w2) ->
    Polled sig k w2 w' ->
    Polled sig (S k) w w'.

End Polling.

(* ================================================================= *)
(** ** Groups of chunk frames *)

(** A frame that announces a single chunk. *)
Definition isStandalone (c : Messenger.Chunk) : bool :=
  Crypto.totalChunks (fst c) =? 1.

Definition idOf (c : Messenger.Chunk) : list byte :=
  Crypto.messageId (fst c).

Definition sameBytes (a b : list byte) : bool :=
  if list_eq_dec Byte.byte_eq_dec a b then true else false.

(** The frame carries the message id [mid]. *)
Definition sameId (mid : list byte) (c : Messenger.Chunk) : bool :=
  sameBytes (idOf c) mid.

(** The ids of a list, each once, in the order of first appearance. *)
Fixpoint firstIds (ids : list (list byte)) : list (list byte) :=
  match ids with
  | [] => []
  | mid :: rest =>
      mid :: filter (fun m => negb (sameBytes m mid)) (firstIds rest)
  end.

(** The frames sorted into groups by message id and nothing else: one group
    per id, in the order in which the ids first appear, each holding all the
    frames of its id in the order of the list. *)
Definition groupsById (chunks : list Messenger.Chunk)
  : list (list Messenger.Chunk) :=
  map (fun mid => filter (sameId mid) chunks) (firstIds (map idOf chunks)).

(** Non-decreasing chunk indices. *)
Definition byChunkIndex (a b : Messenger.Chunk) : Prop :=
  Crypto.chunkIndex (fst a) <= Crypto.chunkIndex (fst b).

Definition standaloneOf `{Library} (c : Messenger.Chunk) : Message :=
  Messenger.standaloneMessage (fst c) (snd c).

(** A map keyed by the hexadecimal form of ids. *)
Definition keyed {V} (g : list byte -> V) (ids : list (list byte))
  : JSMap.t V :=
  map (fun mid => (hexEncode mid, g mid)) ids.

(** [chunkGroups] with the frames [cs] entered. *)
Definition groupsMap (cs : list Messenger.Chunk)
  : JSMap.t (list Messenger.Chunk) :=
  keyed (fun mid => filter (sameId mid) cs) (firstIds (map idOf cs)).

Section Grouped.
Context `{Library} {W : Type} `{Random W} `{Chain W}.
Variable this : Messenger.SolanaMessenger (W := W).

(** The decoded frames of a list of events that announce one chunk, and
    those that announce any other number. *)
Definition standaloneFrames (events : list MessageSentEvent)
  : list Messenger.Chunk :=
  filter isStandalone (decodedChunks this events).

Definition chunkFrames (events : list MessageSentEvent)
  : list Messenger.Chunk :=
  filter (fun c => negb (isStandalone c)) (decodedChunks this events).

(** The messages of a list of events: one per standalone frame, then one
    per group of chunk frames that is complete, the whole sorted by
    timestamp. *)
Definition messagesOf (events : list MessageSentEvent) : list Message :=
  JSArray.sort msg_timestamp
    (map standaloneOf (standaloneFrames events)
     ++ flat_map groupMessage (groupsById (chunkFrames events))).

(** The buffer entry of a message before a frame arrives: the one held, or
    a fresh one with the total of the arriving frame. *)
Definition priorEntry (buffer : JSMap.t Messenger.ChunkBuffer)
  (mid : list byte) (d : Crypto.DecodedMessage) : Messenger.ChunkBuffer :=
  match JSMap.get buffer (hexEncode mid) with
  | Some entry => entry
  | None =>
      {| Messenger.cb_events := [];
         Messenger.cb_totalChunks := Crypto.totalChunks d |}
  end.

(** The entry with the arriving frame added. *)
Definition grownEntry (buffer : JSMap.t Messenger.ChunkBuffer)
  (mid : list byte) (d : Crypto.DecodedMessage) (event : MessageSentEvent)
  : Messenger.ChunkBuffer :=
  let prior := priorEntry buffer mid d in
  {| Messenger.cb_events := Messenger.cb_events prior ++ [event];
     Messenger.cb_totalChunks := Messenger.cb_totalChunks prior |}.

End Grouped.

(* ================================================================= *)
(** ** A small platform to run the embedding on concrete inputs

    The statements below hold for every [Library], [Random] and [Chain].
    To evaluate the embedding on given inputs an instance is needed: base58
    and base64 are implemented, text is held as its UTF-8 bytes, the cipher
    is a transparent stand-in with the interface of [nacl.box] (a 16-byte
    tag in front of the plaintext), and the node is a record of accounts,
    history and accepted transactions. *)

Module Ref.

Definition alphabet58 : list ascii :=
  list_ascii_of_string
    "123456789ABCDEFGHJKLMNPQRSTUVWXYZabcdefghijkmnopqrstuvwxyz".

Definition alphabet64 : list ascii :=
  list_ascii_of_string
    "ABCDEFGHIJKLMNOPQRSTUVWXYZabcdefghijklmnopqrstuvwxyz0123456789+/".

Fixpoint indexIn (c : ascii) (l : list ascii) (i : Z) : option Z :=
  match l with
  | [] => None
  | d :: l' => if Ascii.eqb c d then Some i else indexIn c l' (i + 1)
  end.

Definition charAt (l : list ascii) (i : Z) : ascii :=
  nth (Z.to_nat i) l "0"%char.

(** Digits of [n] in base [b], most significant first. *)
Fixpoint digits (fuel : nat) (b n : Z) (acc : list Z) : list Z :=
  match fuel with
  | O => acc
  | S fuel' => if n =? 0 then acc
               else digits fuel' b (n / b) (n mod b :: acc)
  end.

Definition valueOf (b : Z) (ds : list Z) : Z :=
  fold_left (fun acc d => acc * b + d) ds 0.

Fixpoint countLeading {A} (p : A -> bool) (l : list A) : nat :=
  match l with
  | a :: l' => if p a then S (countLeading p l') else O
  | [] => O
  end.

Definition isZeroByte (b : byte) : bool := Zb b =? 0.

Definition base58_of_bytes (bytes : list byte) : string :=
  let zeros := countLeading isZeroByte bytes in
  let tail := skipn zeros bytes in
  let n := valueOf 256 (map Zb tail) in
  string_of_list_ascii
    (repeat "1"%char zeros
     ++ map (charAt alphabet58) (digits (2 * length tail) 58 n [])).

Fixpoint indices (alphabet : list ascii) (s : list ascii)
  : option (list Z) :=
  match s with
  | [] => Some []
  | c :: s' =>
      match indexIn c alphabet 0, indices alphabet s' with
      | Some i, Some r => Some (i :: r)
      | _, _ => None
      end
  end.

Definition bytes_of_base58 (s : string) : result (list byte) :=
  let cs := list_ascii_of_string s in
  match indices alphabet58 cs with
  | None => Throw "Expected a string of base 58"
  | Some ds =>
      let zeros := countLeading (Z.eqb 0) ds in
      let tail := skipn zeros ds in
      let n := valueOf 58 tail in
      Ok (repeat x00 zeros ++ map u8 (digits (length tail) 256 n []))
  end.

Definition address (s : string) : result string :=
  if (String.length s <? 32)%nat || (44 <? String.length s)%nat
  then Throw "Expected a base58-encoded address of 32 to 44 characters"
  else
    bytes <- bytes_of_base58 s ;;
    if len bytes =? 32 then Ok s
    else Throw "Expected an address of 32 bytes".

(** Bytes of a sequence of 6-bit digits; left-over bits are dropped. *)
Fixpoint bytesOfSextets (ds : list Z) : list byte :=
  match ds with
  | a :: b :: c :: d :: r =>
      let v := ((a * 64 + b) * 64 + c) * 64 + d in
      u8 (v / 65536) :: u8 (v / 256) :: u8 v :: bytesOfSextets r
  | [a; b; c] =>
      let v := (a * 64 + b) * 64 + c in
      [u8 (v / 1024); u8 (v / 4)]
  | [a; b] => [u8 ((a * 64 + b) / 16)]
  | _ => []
  end.

Definition isAsciiSpace (c : ascii) : bool :=
  let n := Z.of_N (N_of_ascii c) in
  (n =? 9) || (n =? 10) || (n =? 12) || (n =? 13) || (n =? 32).

Definition stripPadding (cs : list ascii) : list ascii :=
  if (Nat.modulo (length cs) 4 =? 0)%nat then
    match rev cs with
    | "="%char :: "="%char :: r => rev r
    | "="%char :: r => rev r
    | _ => cs
    end
  else cs.

(** [atob]: the forgiving base64 decoding of the platform. *)
Definition atob (s : string) : result string :=
  let cs := filter (fun c => negb (isAsciiSpace c)) (list_ascii_of_string s) in
  let cs := stripPadding cs in
  if (Nat.modulo (length cs) 4 =? 1)%nat
  then Throw "InvalidCharacterError"
  else
    match indices alphabet64 cs with
    | None => Throw "InvalidCharacterError"
    | Some ds => Ok (string_of_list_byte (bytesOfSextets ds))
    end.

Fixpoint upToPadding (cs : list ascii) : list ascii :=
  match cs with
  | [] => []
  | c :: cs' => if Ascii.eqb c "="%char then [] else c :: upToPadding cs'
  end.

Fixpoint knownSextets (cs : list ascii) : list Z :=
  match cs with
  | [] => []
  | c :: cs' =>
      match indexIn c alphabet64 0 with
      | Some i => i :: knownSextets cs'
      | None => knownSextets cs'
      end
  end.

(** [Buffer.from(s, "base64")]: characters outside the alphabet are
    skipped. *)
Definition Buffer_from_base64 (s : string) : list byte :=
  bytesOfSextets (knownSextets (upToPadding (list_ascii_of_string s))).

Fixpoint sextetsOfBytes (bs : list byte) : list ascii :=
  let ch := charAt alphabet64 in
  match bs with
  | a :: b :: c :: r =>
      let v := (Zb a * 256 + Zb b) * 256 + Zb c in
      ch (v / 262144) :: ch ((v / 4096) mod 64) :: ch ((v / 64) mod 64)
      :: ch (v mod 64) :: sextetsOfBytes r
  | [a; b] =>
      let v := (Zb a * 256 + Zb b) * 4 in
      [ch (v / 4096); ch ((v / 64) mod 64); ch (v mod 64); "="%char]
  | [a] =>
      let v := Zb a * 16 in
      [ch (v / 64); ch (v mod 64); "="%char; "="%char]
  | [] => []
  end.

Definition Buffer_toString_base64 (bs : list byte) : string :=
  string_of_list_ascii (sextetsOfBytes bs).

(** The stand-in cipher: the tag is the first 16 bytes of the nonce. *)
Definition badSize (nonce pk sk : list byte) : option Error :=
  if negb (len pk =? 32) then Some "bad public key size"
  else if negb (len sk =? 32) then Some "bad secret key size"
  else if negb (len nonce =? 24) then Some "bad nonce size"
  else None.

Definition box (msg nonce pk sk : list byte) : result (list byte) :=
  match badSize nonce pk sk with
  | Some e => Throw e
  | None => Ok (firstn 16 nonce ++ msg)
  end.

Definition bytes_eqb (a b : list byte) : bool :=
  if list_eq_dec Byte.byte_eq_dec a b then true else false.

Definition box_open (ct nonce pk sk : list byte)
  : result (option (list byte)) :=
  match badSize nonce pk sk with
  | Some e => Throw e
  | None =>
      if (len ct <? 16) || negb (bytes_eqb (firstn 16 ct) (firstn 16 nonce))
      then Ok None
      else Ok (Some (skipn 16 ct))
  end.

Definition convertPublicKey (pk : list byte) : option (list byte) :=
  if len pk =? 32 then Some pk else None.

Definition convertSecretKey (sk : list byte) : list byte :=
  firstn 32 (sk ++ repeat x00 32).

Definition createKeyPairSignerFromBytes (kp : list byte)
  : result KeyPairSigner :=
  if len kp =? 64
  then Ok {| signer_address := base58_of_bytes (skipn 32 kp);
             signer_keypair := kp |}
  else Throw "Key pair bytes must be of length 64".

(** A transaction is a 64-byte signature slot followed by the payloads of
    its instructions. *)
Definition compileAndEncodeTransaction (m : TransactionMessage)
  : result (list byte) :=
  match tm_feePayer m with
  | None => Throw "Transaction is missing a fee payer"
  | Some _ => Ok (repeat x00 64 ++ List.concat (map data (tm_instructions m)))
  end.

Definition getSignatureFromTransaction (tx : list byte) : result string :=
  if len tx <? 64 then Throw "Could not determine the signature"
  else Ok (base58_of_bytes (firstn 64 tx)).

Definition getProgramDerivedAddress (programAddress : string)
  (seeds : list (list byte)) : result string :=
  Ok (base58_of_bytes (firstn 32 (List.concat seeds ++ repeat x00 32))).

#[global] Instance library : Library :=
  Build_Library
    string list_byte_of_string string_of_list_byte
    bytes_of_base58 base58_of_bytes address getProgramDerivedAddress
    (Some atob) Buffer_from_base64 Buffer_toString_base64
    convertPublicKey convertSecretKey box box_open
    createKeyPairSignerFromBytes compileAndEncodeTransaction
    getSignatureFromTransaction.

(** The simulated world. *)
Record Sim : Type := {
  sim_seed : Z;
  sim_accounts : list (string * AccountInfo);
  sim_rpcDown : bool;
  sim_history : list SignatureInfo;
  sim_logs : list (string * list string);
  (** transactions the node accepts before it starts to reject *)
  sim_budget : nat;
  sim_landed : list (list byte);
}.

Definition withSeed (w : Sim) (seed : Z) : Sim :=
  {| sim_seed := seed;
     sim_accounts := sim_accounts w;
     sim_rpcDown := sim_rpcDown w;
     sim_history := sim_history w;
     sim_logs := sim_logs w;
     sim_budget := sim_budget w;
     sim_landed := sim_landed w |}.

Definition randomByte (w : Sim) : byte * Sim :=
  (u8 (sim_seed w / 65536),
   withSeed w ((sim_seed w * 1103515245 + 12345) mod 2147483648)).

#[global] Instance random : Random Sim := {|
  nacl_randomByte := randomByte;
|}.

Fixpoint assoc {V} (k : string) (l : list (string * V)) : option V :=
  match l with
  | [] => None
  | (k', v) :: l' => if String.eqb k k' then Some v else assoc k l'
  end.

Definition getAccountInfo (a : string) : M Sim (option AccountInfo) :=
  fun w =>
    if sim_rpcDown w then (Throw "fetch failed", w)
    else (Ok (assoc a (sim_accounts w)), w).

(** The entries that follow the cursor [before], at most [limit] of them. *)
Fixpoint afterCursor (before : string) (l : list SignatureInfo)
  : list SignatureInfo :=
  match l with
  | [] => []
  | s :: l' => if String.eqb (signature s) before then l'
               else afterCursor before l'
  end.

Definition getSignaturesForAddress (program : string)
  (before : option string) (limit : Z) : M Sim (list SignatureInfo) :=
  fun w =>
    let l := match before with
             | Some b => afterCursor b (sim_history w)
             | None => sim_history w
             end in
    (Ok (firstn (Z.to_nat limit) l), w).

Definition getTransaction (sig : string) : M Sim (option (list string)) :=
  fun w => (Ok (assoc sig (sim_logs w)), w).

(** A transaction lands while the budget lasts. *)
Definition land (tx : list byte) : M Sim unit :=
  fun w =>
    match sim_budget w with
    | O => (Throw "Transaction simulation failed", w)
    | S b =>
        (Ok tt,
         {| sim_seed := sim_seed w;
            sim_accounts := sim_accounts w;
            sim_rpcDown := sim_rpcDown w;
            sim_history := sim_history w;
            sim_logs := sim_logs w;
            sim_budget := b;
            sim_landed := sim_landed w ++ [tx] |})
    end.

(** The signature slot is filled with the first bytes of the payload. *)
Definition signBytes (payload : list byte) : list byte :=
  firstn 64 (payload ++ repeat x00 64) ++ payload.

Definition signTransaction (m : TransactionMessage) : M Sim (list byte) :=
  fun w => (Ok (signBytes (List.concat (map data (tm_instructions m)))), w).

#[global] Instance chain : Chain Sim := {|
  rpc_getAccountInfo := getAccountInfo;
  rpc_getLatestBlockhash :=
    ret {| blockhash := "11111111111111111111111111111111";
           lastValidBlockHeight := 0 |};
  rpc_sendTransaction := fun b64 => land (Buffer_from_base64 b64);
  rpc_getSignatureStatuses := fun _ => ret (Some "confirmed");
  rpc_getSignaturesForAddress := getSignaturesForAddress;
  rpc_getTransaction := getTransaction;
  signTransactionMessageWithSigners := signTransaction;
  sendAndConfirm := land;
  setTimeout := fun _ => ret tt;
|}.

(** A fresh world: no accounts, no history, every transaction lands. *)
Definition world0 : Sim :=
  {| sim_seed := 42;
     sim_accounts := [];
     sim_rpcDown := false;
     sim_history := [];
     sim_logs := [];
     sim_budget := 1000;
     sim_landed := [] |}.

End Ref.

(* ================================================================= *)
(** ** Sample inputs *)

(** The address of the system program: 32 zero bytes. *)
Definition sampleAddress : string := "11111111111111111111111111111111".

(** A complete [MessageSent] record and the log line that carries it. *)
Definition sampleRecord : list byte :=
  eventRecord (repeat x01 32) (repeat x02 32) [xaa; xbb; xcc]
              (repeat x07 24) 1700000000.

Definition sampleLine : string :=
  ("Program data: " ++ Ref.Buffer_toString_base64 sampleRecord)%string.

(** A line whose payload is the discriminator and nothing else. *)
Definition truncatedLine : string := "Program data: dEbgTIAcbjc=".

(** The registry address of [sampleAddress] and a world that holds an
    account with the given bytes there. *)
Definition samplePda : string :=
  match deriveRegistryPda sampleAddress None with
  | Ok p => p
  | Throw _ => ""
  end.

Definition worldWithAccount (raw : list byte) : Ref.Sim :=
  {| Ref.sim_seed := 42;
     Ref.sim_accounts :=
       [(samplePda,
         {| ai_data :=
              Some (DataTuple (Ref.Buffer_toString_base64 raw) "base64") |})];
     Ref.sim_rpcDown := false;
     Ref.sim_history := [];
     Ref.sim_logs := [];
     Ref.sim_budget := 1000;
     Ref.sim_landed := [] |}.

(** A registry account of 88 bytes: discriminator, owner, encryption key,
    two timestamps. *)
Definition sampleAccount : list byte :=
  repeat x0d 8 ++ repeat x00 32 ++ repeat x0b 32 ++ repeat x00 16.

(** A self-custody messenger and worlds whose node accepts a given number
    of transactions. *)
Definition sampleKeypair : list byte := repeat x03 32 ++ repeat x04 32.

Definition sampleMessenger : Messenger.SolanaMessenger (W := Ref.Sim) :=
  {| Messenger.programId := Instructions.DEFAULT_PROGRAM_ID;
     Messenger.encryptionKeypair := None;
     Messenger.initialized := false;
     Messenger.signerPromise :=
       Some (Ref.createKeyPairSignerFromBytes sampleKeypair);
     Messenger.keypairBytes := Some sampleKeypair;
     Messenger.externalSigner := None;
     Messenger._walletAddress := None |}.












(** Events that [sampleMessenger] can decrypt: the ciphertext is the tag of
    the stand-in cipher followed by a chunked frame of the message
    [sampleMid]. *)
Definition sampleMid : list byte := repeat x2a 8.

Definition sampleEvent (sender : string) (index total : Z) (text : string)
  (ts : Z) (sig : string) : MessageSentEvent :=
  {| ev_sender := sender;
     ev_recipient := sampleAddress;
     ev_ciphertext :=
       repeat x07 16
       ++ frameLayout 1 sampleMid index total (list_byte_of_string text);
     ev_nonce := repeat x07 24;
     ev_timestamp := ts;
     ev_txSignature := Some sig |}.

Definition otherAddress : string := Instructions.DEFAULT_PROGRAM_ID.

Definition chunk0 : MessageSentEvent :=
  sampleEvent sampleAddress 0 2 "Hello " 100 "sig0".
Definition chunk1 : MessageSentEvent :=
  sampleEvent sampleAddress 1 2 "world" 101 "sig1".
Definition foreignChunk1 : MessageSentEvent :=
  sampleEvent otherAddress 1 2 "there" 102 "sig2".

(** A second message, of another sender, in two frames. *)
Definition otherMid : list byte := repeat x2b 8.

Definition otherEvent (index total : Z) (text : string) (ts : Z)
  (sig : string) : MessageSentEvent :=
  {| ev_sender := otherAddress;
     ev_recipient := sampleAddress;
     ev_ciphertext :=
       repeat x07 16
       ++ frameLayout 1 otherMid index total (list_byte_of_string text);
     ev_nonce := repeat x07 24;
     ev_timestamp := ts;
     ev_txSignature := Some sig |}.

Definition otherChunk0 : MessageSentEvent := otherEvent 0 2 "Good " 90 "sig3".
Definition otherChunk1 : MessageSentEvent := otherEvent 1 2 "day" 91 "sig4".

Definition otherMessage : @Message Ref.library :=
  {| msg_sender := otherAddress;
     msg_recipient := sampleAddress;
     msg_text := "Good day" : @Text Ref.library;
     msg_timestamp := 90;
     msg_messageId := otherMid;
     msg_txSignatures := ["sig3"; "sig4"] |}.

(** The message the recipient would see for the frames of [sampleMid]
    with the given text and transaction signatures. *)
Definition sampleMessage (text : @Text Ref.library) (sigs : list string)
  : @Message Ref.library :=
  {| msg_sender := sampleAddress;
     msg_recipient := sampleAddress;
     msg_text := text;
     msg_timestamp := 100;
     msg_messageId := sampleMid;
     msg_txSignatures := sigs |}.

(** A messenger that knows its wallet address, and a node whose history
    of the program holds, newest first: a transaction without a block
    time, the two chunks of the sample message, and an old message.  Each
    transaction logged one event from [sampleAddress] to itself. *)
Definition sampleReader : Messenger.SolanaMessenger (W := Ref.Sim) :=
  {| Messenger.programId := Instructions.DEFAULT_PROGRAM_ID;
     Messenger.encryptionKeypair := None;
     Messenger.initialized := false;
     Messenger.signerPromise :=
       Some (Ref.createKeyPairSignerFromBytes sampleKeypair);
     Messenger.keypairBytes := Some sampleKeypair;
     Messenger.externalSigner := None;
     Messenger._walletAddress := Some sampleAddress |}.

Definition standaloneEvent (text : string) (ts : Z) : MessageSentEvent :=
  {| ev_sender := sampleAddress;
     ev_recipient := sampleAddress;
     ev_ciphertext :=
       repeat x07 16
       ++ frameLayout 0 sampleMid 0 1 (list_byte_of_string text);
     ev_nonce := repeat x07 24;
     ev_timestamp := ts;
     ev_txSignature := None |}.

Definition lineOf (e : MessageSentEvent) : string :=
  ("Program data: "
   ++ Ref.Buffer_toString_base64
        (eventRecord (repeat x00 32) (repeat x00 32) (ev_ciphertext e)
                     (ev_nonce e) (ev_timestamp e)))%string.

Definition sampleHistory : list SignatureInfo :=
  [ {| signature := "sig3"; blockTime := None |};
    {| signature := "sig1"; blockTime := Some 101 |};
    {| signature := "sig0"; blockTime := Some 100 |};
    {| signature := "sigOld"; blockTime := Some 50 |} ].

Definition worldWithHistory : Ref.Sim :=
  {| Ref.sim_seed := 42;
     Ref.sim_accounts := [];
     Ref.sim_rpcDown := false;
     Ref.sim_history := sampleHistory;
     Ref.sim_logs :=
       [ ("sig3", [lineOf (standaloneEvent "untimed" 103)]);
         ("sig1", [lineOf chunk1]);
         ("sig0", [lineOf chunk0]);
         ("sigOld", [lineOf (standaloneEvent "old" 50)]) ];
     Ref.sim_budget := 1000;
     Ref.sim_landed := [] |}.

Definition sinceOptions (s : Z) : Messenger.ReadOptions :=
  {| Messenger.since := Some s; Messenger.limit := None |}.

(** A messenger in external-signer mode that was not initialised: it has
    a wallet address and a signer callback, and no key of any kind. *)
Definition externalMessenger : Messenger.SolanaMessenger (W := Ref.Sim) :=
  {| Messenger.programId := Instructions.DEFAULT_PROGRAM_ID;
     Messenger.encryptionKeypair := None;
     Messenger.initialized := false;
     Messenger.signerPromise := None;
     Messenger.keypairBytes := None;
     Messenger.externalSigner := Some (fun unsignedTx _ _ => ret unsignedTx);
     Messenger._walletAddress := Some sampleAddress |}.

(** A node that reports a transaction confirmed once the seed of the
    world has been counted down to zero, one step per wait. *)
Definition slowChain : Chain Ref.Sim :=
  {| rpc_getAccountInfo := Ref.getAccountInfo;
     rpc_getLatestBlockhash :=
       ret {| blockhash := "11111111111111111111111111111111";
              lastValidBlockHeight := 0 |};
     rpc_sendTransaction := fun b64 => Ref.land (Buffer_from_base64 b64);
     rpc_getSignatureStatuses :=
       fun _ w =>
         (Ok (Some (if Ref.sim_seed w <=? 0 then "confirmed"
                    else "processed")), w);
     rpc_getSignaturesForAddress := Ref.getSignaturesForAddress;
     rpc_getTransaction := Ref.getTransaction;
     signTransactionMessageWithSigners := Ref.signTransaction;
     sendAndConfirm := Ref.land;
     setTimeout :=
       fun _ w => (Ok tt, Ref.withSeed w (Ref.sim_seed w - 1)) |}.

(* ================================================================= *)
(** * Properties *)

(** ** Bytes, arrays and 32-bit arithmetic *)

Lemma Zb_range (b : byte) : 0 <= Zb b < 256.
Proof.
  unfold Zb. pose proof (Byte.to_N_bounded b). lia.
Qed.

Lemma Zb_u8 (z : Z) : Zb (u8 z) = z mod 256.
Proof.
  unfold Zb, u8.
  pose proof (Z.mod_pos_bound z 256 ltac:(lia)) as Hr.
  destruct (Byte.of_N (Z.to_N (z mod 256))) as [b|] eqn:E.
  - apply Byte.to_of_N in E. rewrite E. lia.
  - apply Byte.of_N_None_iff in E. lia.
Qed.

Lemma u8_Zb (b : byte) : u8 (Zb b) = b.
Proof.
  unfold u8, Zb.
  pose proof (Byte.to_N_bounded b).
  rewrite Z.mod_small by lia.
  rewrite N2Z.id, Byte.of_to_N. reflexivity.
Qed.

Lemma Zb_inj (a b : byte) : Zb a = Zb b -> a = b.
Proof.
  intros E. rewrite <- (u8_Zb a), <- (u8_Zb b), E. reflexivity.
Qed.

Lemma len_nonneg {A} (l : list A) : 0 <= len l.
Proof. unfold len. lia. Qed.

Lemma len_app {A} (l1 l2 : list A) : len (l1 ++ l2) = len l1 + len l2.
Proof. unfold len. rewrite length_app. lia. Qed.

Lemma len_cons {A} (a : A) (l : list A) : len (a :: l) = 1 + len l.
Proof. unfold len. cbn [length]. lia. Qed.

Lemma len_nil {A} : len (@nil A) = 0.
Proof. reflexivity. Qed.

Lemma len_Uint8Array (n : Z) : 0 <= n -> len (Uint8Array n) = n.
Proof.
  intros Hn. unfold len, Uint8Array. rewrite repeat_length. lia.
Qed.

Lemma Uint8Array_add (a b : Z) :
  0 <= a -> 0 <= b -> Uint8Array (a + b) = Uint8Array a ++ Uint8Array b.
Proof.
  intros Ha Hb. unfold Uint8Array.
  rewrite Z2Nat.inj_add by lia. apply repeat_app.
Qed.

Lemma firstn_len_app {A} (l1 l2 : list A) :
  firstn (Z.to_nat (len l1)) (l1 ++ l2) = l1.
Proof.
  unfold len. rewrite Nat2Z.id.
  rewrite firstn_app, Nat.sub_diag, firstn_all. cbn. apply app_nil_r.
Qed.

Lemma skipn_len_app {A} (l1 l2 : list A) :
  skipn (Z.to_nat (len l1)) (l1 ++ l2) = l2.
Proof.
  unfold len. rewrite Nat2Z.id.
  rewrite skipn_app, Nat.sub_diag, skipn_all. reflexivity.
Qed.

(** A store at the position that follows a prefix. *)
Lemma store_app (pre : list byte) (old : byte) (post : list byte) (v : Z) :
  store (pre ++ old :: post) (len pre) v = pre ++ u8 v :: post.
Proof.
  unfold store.
  pose proof (len_nonneg pre). pose proof (len_nonneg post).
  rewrite len_app, len_cons.
  replace (0 <=? len pre) with true by (symmetry; apply Z.leb_le; lia).
  replace (len pre <? len pre + (1 + len post)) with true
    by (symmetry; apply Z.ltb_lt; lia).
  cbn [andb].
  rewrite firstn_len_app. f_equal. f_equal.
  replace (len pre + 1) with (len (pre ++ [old]))
    by (rewrite len_app, len_cons, len_nil; lia).
  change (pre ++ old :: post) with (pre ++ [old] ++ post).
  rewrite app_assoc. apply skipn_len_app.
Qed.

(** A [set] that overwrites a middle part of the same length. *)
Lemma set_app (pre old post src : list byte) :
  len old = len src ->
  set (pre ++ old ++ post) src (len pre) = Ok (pre ++ src ++ post).
Proof.
  intros Hl. unfold set.
  pose proof (len_nonneg pre). pose proof (len_nonneg post).
  pose proof (len_nonneg src).
  rewrite !len_app.
  replace (len pre <? 0) with false by (symmetry; apply Z.ltb_ge; lia).
  replace (len pre + (len old + len post) <? len pre + len src) with false
    by (symmetry; apply Z.ltb_ge; lia).
  cbn [orb].
  rewrite firstn_len_app.
  replace (len pre + len src) with (len (pre ++ old))
    by (rewrite len_app; lia).
  rewrite (app_assoc pre old post), skipn_len_app. reflexivity.
Qed.

Lemma set_throws (buf src : list byte) (offset : Z) :
  len buf < offset + len src ->
  exists e, set buf src offset = Throw e.
Proof.
  intros Hl. unfold set.
  replace (len buf <? offset + len src) with true
    by (symmetry; apply Z.ltb_lt; lia).
  rewrite orb_true_r. eauto.
Qed.

(** [slice] between two positions inside the array. *)
Lemma slice_inside {A} (l : list A) (a b : Z) :
  0 <= a -> a <= b -> b <= len l ->
  slice l a b = firstn (Z.to_nat (b - a)) (skipn (Z.to_nat a) l).
Proof.
  intros Ha Hab Hb. unfold slice, relIndex.
  replace (a <? 0) with false by (symmetry; apply Z.ltb_ge; lia).
  replace (b <? 0) with false by (symmetry; apply Z.ltb_ge; lia).
  rewrite !Z.min_l by lia. reflexivity.
Qed.

Lemma slice_app_mid {A} (pre mid post : list A) :
  slice (pre ++ mid ++ post) (len pre) (len pre + len mid) = mid.
Proof.
  pose proof (len_nonneg pre). pose proof (len_nonneg mid).
  pose proof (len_nonneg post).
  rewrite slice_inside by (rewrite ?len_app; lia).
  rewrite skipn_len_app.
  replace (len pre + len mid - len pre) with (len mid) by lia.
  apply firstn_len_app.
Qed.

Lemma sliceFrom_app {A} (pre post : list A) :
  sliceFrom (pre ++ post) (len pre) = post.
Proof.
  unfold sliceFrom.
  pose proof (slice_app_mid pre post []) as E.
  rewrite app_nil_r in E. rewrite len_app. exact E.
Qed.

Lemma slice_full {A} (l : list A) : slice l 0 (len l) = l.
Proof.
  pose proof (slice_app_mid [] l []) as E.
  rewrite app_nil_r in E. cbn [app] in E. rewrite len_nil in E.
  exact E.
Qed.

Lemma firstn_plus {A} (n m : nat) (l : list A) :
  firstn (n + m) l = firstn n l ++ firstn m (skipn n l).
Proof.
  revert l. induction n as [|n IH]; intros l; [reflexivity|].
  destruct l as [|a l]; cbn.
  - rewrite firstn_nil. reflexivity.
  - f_equal. apply IH.
Qed.

(** Two adjacent slices make one. *)
Lemma slice_adjacent {A} (l : list A) (a b c : Z) :
  0 <= a -> a <= b -> b <= c -> c <= len l ->
  slice l a b ++ slice l b c = slice l a c.
Proof.
  intros Ha Hab Hbc Hc.
  rewrite !slice_inside by lia.
  replace (Z.to_nat (c - a)) with (Z.to_nat (b - a) + Z.to_nat (c - b))%nat
    by lia.
  rewrite firstn_plus. f_equal.
  rewrite skipn_skipn. do 2 f_equal. lia.
Qed.

Lemma slice_empty {A} (l : list A) (a : Z) :
  0 <= a -> a <= len l -> slice l a a = [].
Proof.
  intros Ha Hl. rewrite slice_inside by lia.
  rewrite Z.sub_diag. reflexivity.
Qed.

Lemma len_slice_inside {A} (l : list A) (a b : Z) :
  0 <= a -> a <= b -> b <= len l -> len (slice l a b) = b - a.
Proof.
  intros Ha Hab Hb. rewrite slice_inside by lia.
  unfold len in *. rewrite length_firstn, length_skipn. lia.
Qed.

(** [get] on a list built by concatenation. *)
Lemma get_app_here (pre : list byte) (b : byte) (post : list byte) :
  get (pre ++ b :: post) (len pre) = Some (Zb b).
Proof.
  unfold get.
  pose proof (len_nonneg pre). pose proof (len_nonneg post).
  rewrite len_app, len_cons.
  replace (0 <=? len pre) with true by (symmetry; apply Z.leb_le; lia).
  replace (len pre <? len pre + (1 + len post)) with true
    by (symmetry; apply Z.ltb_lt; lia).
  cbn [andb]. unfold len. rewrite Nat2Z.id.
  rewrite nth_error_app2 by lia. rewrite Nat.sub_diag. reflexivity.
Qed.

Lemma get_outside (buf : list byte) (i : Z) :
  len buf <= i -> get buf i = None.
Proof.
  intros Hi. unfold get.
  replace (i <? len buf) with false by (symmetry; apply Z.ltb_ge; lia).
  rewrite andb_false_r. reflexivity.
Qed.

(** *** 32-bit coercions *)

Lemma ToInt32_small (z : Z) : - 2 ^ 31 <= z < 2 ^ 31 -> ToInt32 z = z.
Proof.
  intros Hz. unfold ToInt32. rewrite Z.mod_small by lia. lia.
Qed.

Lemma ToInt32_range (z : Z) : - 2 ^ 31 <= ToInt32 z < 2 ^ 31.
Proof.
  unfold ToInt32. pose proof (Z.mod_pos_bound (z + 2 ^ 31) (2 ^ 32)). lia.
Qed.

Lemma ToInt32_mod (z m : Z) :
  0 < m -> (m | 2 ^ 32) -> ToInt32 z mod m = z mod m.
Proof.
  intros Hm [k Hk]. unfold ToInt32.
  rewrite (Z.mod_eq (z + 2 ^ 31) (2 ^ 32)) by lia.
  replace (z + 2 ^ 31 - 2 ^ 32 * ((z + 2 ^ 31) / 2 ^ 32) - 2 ^ 31)
    with (z + (- k * ((z + 2 ^ 31) / 2 ^ 32)) * m) by (rewrite Hk; ring).
  apply Z.mod_add. lia.
Qed.

Lemma testbit_above (l n k : Z) :
  0 <= l < 2 ^ n -> 0 <= n <= k -> Z.testbit l k = false.
Proof.
  intros Hl Hk.
  destruct (Z.eq_dec l 0) as [->|Hne]; [apply Z.testbit_0_l|].
  apply Z.bits_above_log2; [lia|].
  apply Z.lt_le_trans with n; [|lia].
  apply Z.log2_lt_pow2; lia.
Qed.

Lemma land_shiftl_small (h l n : Z) :
  0 <= n -> 0 <= l < 2 ^ n -> Z.land (Z.shiftl h n) l = 0.
Proof.
  intros Hn Hl. apply Z.bits_inj'. intros k Hk.
  rewrite Z.land_spec, Z.bits_0.
  destruct (Z.ltb_spec k n).
  - rewrite Z.shiftl_spec_low by lia. reflexivity.
  - rewrite (testbit_above l n k) by lia. apply andb_false_r.
Qed.

(** The bits of a number shifted left by [n] and the bits of a number
    below [2 ^ n] do not meet. *)
Lemma lor_shiftl_add (h l n : Z) :
  0 <= n -> 0 <= l < 2 ^ n -> Z.lor (Z.shiftl h n) l = h * 2 ^ n + l.
Proof.
  intros Hn Hl.
  rewrite <- Z.shiftl_mul_pow2 by lia.
  rewrite <- Z.lxor_lor by (apply land_shiftl_small; lia).
  symmetry. apply Z.add_nocarry_lxor. apply land_shiftl_small; lia.
Qed.

Lemma band_255 (v : Z) : band v 255 = v mod 256.
Proof.
  unfold band. rewrite (ToInt32_small 255) by lia.
  change 255 with (Z.ones 8). rewrite Z.land_ones by lia.
  change (2 ^ 8) with 256.
  apply ToInt32_mod; [lia|]. exists (2 ^ 24). reflexivity.
Qed.


Lemma div_mod_256 (z : Z) : (z / 256) mod 256 = (z mod 65536) / 256.
Proof.
  change 65536 with (256 * 256).
  rewrite Z.rem_mul_r by lia.
  rewrite Z.mul_comm, Z.div_add by lia.
  rewrite (Z.div_small (z mod 256)) by (apply Z.mod_pos_bound; lia).
  reflexivity.
Qed.
Lemma shr_8_mod (v : Z) : shr v 8 mod 256 = (v / 256) mod 256.
Proof.
  unfold shr. change (8 mod 32) with 8.
  rewrite Z.shiftr_div_pow2 by lia. change (2 ^ 8) with 256.
  rewrite !div_mod_256.
  rewrite ToInt32_mod; [reflexivity | lia |].
  exists 65536. reflexivity.
Qed.

Lemma band_shr_8 (v : Z) : band (shr v 8) 255 = (v / 256) mod 256.
Proof. rewrite band_255. apply shr_8_mod. Qed.

(** reading two stored bytes back *)
Lemma bor_shl_8 (h l : Z) :
  0 <= h < 256 -> 0 <= l < 256 -> bor (shl h 8) l = h * 256 + l.
Proof.
  intros Hh Hl. unfold bor, shl. change (8 mod 32) with 8.
  rewrite (ToInt32_small h) by lia.
  assert (E : Z.shiftl h 8 = h * 256)
    by (rewrite Z.shiftl_mul_pow2 by lia; reflexivity).
  rewrite (ToInt32_small (Z.shiftl h 8)) by lia.
  rewrite (ToInt32_small (Z.shiftl h 8)) by lia.
  rewrite (ToInt32_small l) by lia.
  rewrite (lor_shiftl_add h l 8) by lia. reflexivity.
Qed.

Lemma u16_split (v : Z) :
  ((v / 256) mod 256) * 256 + v mod 256 = v mod 65536.
Proof.
  rewrite div_mod_256.
  assert (E : v mod 256 = (v mod 65536) mod 256).
  { symmetry. apply Z.mod_mod_divide. exists 256. reflexivity. }
  rewrite E. pose proof (Z.div_mod (v mod 65536) 256). lia.
Qed.


Lemma zrange_S (start : Z) (n : nat) :
  zrange start (S n) = zrange start n ++ [start + Z.of_nat n].
Proof.
  unfold zrange. rewrite seq_S, map_app. reflexivity.
Qed.

Lemma zrange_cons (start : Z) (n : nat) :
  zrange start (S n) = start :: zrange (start + 1) n.
Proof.
  unfold zrange. cbn [seq map]. f_equal; [lia|].
  rewrite <- seq_shift, map_map. apply map_ext. intros k. lia.
Qed.

Lemma length_zrange (start : Z) (n : nat) : length (zrange start n) = n.
Proof. unfold zrange. rewrite length_map, length_seq. reflexivity. Qed.

Lemma in_zrange (start : Z) (n : nat) (i : Z) :
  In i (zrange start n) <-> start <= i < start + Z.of_nat n.
Proof.
  unfold zrange. rewrite in_map_iff. split.
  - intros [k [<- Hk]]. apply in_seq in Hk. lia.
  - intros Hi. exists (Z.to_nat (i - start)). split; [lia|].
    apply in_seq. lia.
Qed.

(** A loop whose body appends one element per turn builds the image of the
    index range. *)
Lemma for_range_push {A} (f : Z -> A) (body : Z -> list A -> result (list A))
  (n : nat) (i : Z) (s : list A) :
  (forall j acc, body j acc = Ok (acc ++ [f j])) ->
  for_range n i body s = Ok (s ++ map f (zrange i n)).
Proof.
  intros Hbody. revert i s. induction n as [|n IH]; intros i s.
  - cbn. rewrite app_nil_r. reflexivity.
  - cbn [for_range]. rewrite Hbody. cbn [bind]. rewrite IH.
    rewrite zrange_cons. cbn [map]. rewrite <- app_assoc. reflexivity.
Qed.


Lemma nth_error_zrange (start : Z) (n i : nat) :
  (i < n)%nat -> nth_error (zrange start n) i = Some (start + Z.of_nat i).
Proof.
  intros Hi. unfold zrange.
  rewrite nth_error_map, nth_error_seq.
  destruct (Nat.ltb_spec i n); [reflexivity | lia].
Qed.

Lemma Math_ceil_div_spec (a b : Z) :
  0 < b ->
  (Math_ceil_div a b - 1) * b < a <= Math_ceil_div a b * b.
Proof.
  intros Hb. unfold Math_ceil_div.
  pose proof (Z.div_mod (a + b - 1) b ltac:(lia)) as E.
  pose proof (Z.mod_pos_bound (a + b - 1) b Hb) as R.
  nia.
Qed.

Lemma mapM_map_ok {A B C} (f : B -> result C) (g : A -> B) (h : A -> C)
  (l : list A) :
  (forall a, In a l -> f (g a) = Ok (h a)) ->
  mapM f (map g l) = Ok (map h l).
Proof.
  induction l as [|a l IH]; intros Hf; [reflexivity|].
  cbn [map mapM]. rewrite Hf by (left; reflexivity). cbn [bind].
  rewrite IH by (intros; apply Hf; right; assumption). reflexivity.
Qed.


Lemma mod_div_mod_256 (n d c : Z) :
  0 < d -> 2 ^ 32 = d * 256 * c ->
  ((n mod 2 ^ 32) / d) mod 256 = (n / d) mod 256.
Proof.
  intros Hd Hc.
  rewrite (Z.mod_eq n (2 ^ 32)) by lia.
  replace (n - 2 ^ 32 * (n / 2 ^ 32))
    with (n + (- (n / 2 ^ 32) * 256 * c) * d) by (rewrite Hc; ring).
  rewrite Z.div_add by lia.
  replace (n / d + - (n / 2 ^ 32) * 256 * c)
    with (n / d + (- (n / 2 ^ 32) * c) * 256) by ring.
  apply Z.mod_add. lia.
Qed.

Lemma u8_mod_eq (a b : Z) : a mod 256 = b mod 256 -> u8 a = u8 b.
Proof.
  intros E. apply Zb_inj. rewrite !Zb_u8. exact E.
Qed.

Lemma le_value_u32le (n : Z) : 0 <= n < 2 ^ 32 -> le_value (u32le n) = n.
Proof.
  intros Hn. unfold u32le, le_value. rewrite !Zb_u8.
  assert (E1 : n / 2 ^ 16 = n / 2 ^ 8 / 2 ^ 8)
    by (rewrite Z.div_div by lia; reflexivity).
  assert (E2 : n / 2 ^ 24 = n / 2 ^ 16 / 2 ^ 8)
    by (rewrite E1, !Z.div_div by lia; reflexivity).
  pose proof (Z.div_mod n (2 ^ 8) ltac:(lia)).
  pose proof (Z.div_mod (n / 2 ^ 8) (2 ^ 8) ltac:(lia)).
  pose proof (Z.div_mod (n / 2 ^ 16) (2 ^ 8) ltac:(lia)).
  assert (n / 2 ^ 24 < 2 ^ 8) by (apply Z.div_lt_upper_bound; lia).
  assert (0 <= n / 2 ^ 24) by (apply Z.div_pos; lia).
  change 256 with (2 ^ 8).
  rewrite (Z.mod_small (n / 2 ^ 24)) by lia.
  lia.
Qed.


Lemma get_inside (buf : list byte) (i : Z) :
  0 <= i < len buf ->
  exists b, nth_error buf (Z.to_nat i) = Some b /\ get buf i = Some (Zb b).
Proof.
  intros Hi. unfold get.
  replace (0 <=? i) with true by (symmetry; apply Z.leb_le; lia).
  replace (i <? len buf) with true by (symmetry; apply Z.ltb_lt; lia).
  cbn [andb].
  destruct (nth_error buf (Z.to_nat i)) as [b|] eqn:E.
  - exists b. split; reflexivity.
  - apply nth_error_None in E. unfold len in Hi. lia.
Qed.

Lemma get_app_skip (pre l : list byte) (i : Z) :
  0 <= i -> get (pre ++ l) (len pre + i) = get l i.
Proof.
  intros Hi. unfold get. pose proof (len_nonneg pre).
  rewrite len_app.
  replace (0 <=? len pre + i) with true by (symmetry; apply Z.leb_le; lia).
  replace (0 <=? i) with true by (symmetry; apply Z.leb_le; lia).
  cbn [andb].
  destruct (Z.ltb_spec i (len l)).
  - replace (len pre + i <? len pre + len l) with true
      by (symmetry; apply Z.ltb_lt; lia).
    rewrite nth_error_app2 by (unfold len; lia).
    do 2 f_equal. unfold len. lia.
  - replace (len pre + i <? len pre + len l) with false
      by (symmetry; apply Z.ltb_ge; lia).
    reflexivity.
Qed.

Lemma get_app_skip0 (pre l : list byte) :
  get (pre ++ l) (len pre) = get l 0.
Proof.
  pose proof (get_app_skip pre l 0 ltac:(lia)) as E.
  rewrite Z.add_0_r in E. exact E.
Qed.

Lemma get_cons_0 (b : byte) (l : list byte) : get (b :: l) 0 = Some (Zb b).
Proof. apply (get_app_here [] b l). Qed.

Lemma get_cons_S (b : byte) (l : list byte) (i : Z) :
  0 <= i -> get (b :: l) (i + 1) = get l i.
Proof.
  intros Hi. pose proof (get_app_skip [b] l i Hi) as E.
  change (len [b]) with 1 in E. rewrite Z.add_comm. exact E.
Qed.

Lemma get_cons_pos (b : byte) (l : list byte) (i : Z) :
  0 < i -> get (b :: l) i = get l (i - 1).
Proof.
  intros Hi. replace i with ((i - 1) + 1) at 1 by lia.
  apply get_cons_S. lia.
Qed.

Lemma list_get_0 (b0 : byte) l : get (b0 :: l) 0 = Some (Zb b0).
Proof. apply get_cons_0. Qed.
Lemma list_get_1 (b0 b1 : byte) l : get (b0 :: b1 :: l) 1 = Some (Zb b1).
Proof. rewrite get_cons_pos by lia. apply get_cons_0. Qed.
Lemma list_get_2 (b0 b1 b2 : byte) l :
  get (b0 :: b1 :: b2 :: l) 2 = Some (Zb b2).
Proof. rewrite get_cons_pos by lia. apply list_get_1. Qed.
Lemma list_get_3 (b0 b1 b2 b3 : byte) l :
  get (b0 :: b1 :: b2 :: b3 :: l) 3 = Some (Zb b3).
Proof. rewrite get_cons_pos by lia. apply list_get_2. Qed.

Lemma list_get_4 (b0 b1 b2 b3 b4 : byte) l :
  get (b0 :: b1 :: b2 :: b3 :: b4 :: l) 4 = Some (Zb b4).
Proof. rewrite get_cons_pos by lia. apply list_get_3. Qed.
Lemma list_get_5 (b0 b1 b2 b3 b4 b5 : byte) l :
  get (b0 :: b1 :: b2 :: b3 :: b4 :: b5 :: l) 5 = Some (Zb b5).
Proof. rewrite get_cons_pos by lia. apply list_get_4. Qed.
Lemma list_get_6 (b0 b1 b2 b3 b4 b5 b6 : byte) l :
  get (b0 :: b1 :: b2 :: b3 :: b4 :: b5 :: b6 :: l) 6 = Some (Zb b6).
Proof. rewrite get_cons_pos by lia. apply list_get_5. Qed.
Lemma list_get_7 (b0 b1 b2 b3 b4 b5 b6 b7 : byte) l :
  get (b0 :: b1 :: b2 :: b3 :: b4 :: b5 :: b6 :: b7 :: l) 7
  = Some (Zb b7).
Proof. rewrite get_cons_pos by lia. apply list_get_6. Qed.


Lemma slice_at {A} (pre mid post : list A) (a b : Z) :
  a = len pre -> b = len pre + len mid ->
  slice (pre ++ mid ++ post) a b = mid.
Proof. intros -> ->. apply slice_app_mid. Qed.


(** Values of the shift and or operators on small non-negative numbers. *)
Lemma shl_small (b k : Z) :
  0 <= k < 32 -> 0 <= b -> b * 2 ^ k < 2 ^ 31 -> shl b k = b * 2 ^ k.
Proof.
  intros Hk Hb Hs. unfold shl.
  assert (Hpow : 1 <= 2 ^ k) by (apply (Z.pow_le_mono_r 2 0 k); lia).
  rewrite (Z.mod_small k 32) by lia.
  rewrite (ToInt32_small b) by nia.
  rewrite Z.shiftl_mul_pow2 by lia.
  apply ToInt32_small. nia.
Qed.

Lemma bor_small (a b k : Z) :
  0 <= k -> 0 <= a < 2 ^ k -> 0 <= b -> b * 2 ^ k + a < 2 ^ 31 ->
  bor a (b * 2 ^ k) = a + b * 2 ^ k.
Proof.
  intros Hk Ha Hb Hs. unfold bor.
  assert (Hbk : 0 <= b * 2 ^ k) by (apply Z.mul_nonneg_nonneg; lia).
  rewrite (ToInt32_small a) by lia.
  rewrite (ToInt32_small (b * 2 ^ k)) by lia.
  rewrite Z.lor_comm, <- Z.shiftl_mul_pow2 by lia.
  rewrite lor_shiftl_add by lia. rewrite ?Z.shiftl_mul_pow2 by lia. lia.
Qed.

Lemma le32_value (b0 b1 b2 b3 : Z) :
  0 <= b0 < 256 -> 0 <= b1 < 256 -> 0 <= b2 < 256 -> 0 <= b3 < 128 ->
  bor (bor (bor b0 (shl b1 8)) (shl b2 16)) (shl b3 24)
  = b0 + b1 * 2 ^ 8 + b2 * 2 ^ 16 + b3 * 2 ^ 24.
Proof.
  intros H0 H1 H2 H3.
  rewrite !shl_small by lia.
  rewrite (bor_small b0 b1 8) by lia.
  replace (b0 + b1 * 2 ^ 8 + b2 * 2 ^ 16 + b3 * 2 ^ 24)
    with ((b0 + b1 * 2 ^ 8 + b2 * 2 ^ 16) + b3 * 2 ^ 24) by ring.
  rewrite (bor_small (b0 + b1 * 2 ^ 8) b2 16) by lia.
  apply bor_small; lia.
Qed.

Lemma ushr_0_small (a : Z) : 0 <= a < 2 ^ 32 -> ushr a 0 = a.
Proof.
  intros Ha. unfold ushr, ToUint32. rewrite Z.mod_small by lia.
  apply Z.shiftr_0_r.
Qed.

Lemma div_pow_range (n a b : Z) :
  0 <= a -> 0 <= b -> 0 <= n < 2 ^ (a + b) -> 0 <= n / 2 ^ a < 2 ^ b.
Proof.
  intros Ha Hb Hn.
  assert (0 < 2 ^ a) by (apply Z.pow_pos_nonneg; lia).
  split; [apply Z.div_pos; lia|].
  apply Z.div_lt_upper_bound; [lia|].
  rewrite <- Z.pow_add_r by lia. lia.
Qed.

Lemma u32le_sum (n : Z) :
  0 <= n < 2 ^ 32 ->
  n mod 256 + (n / 2 ^ 8) mod 256 * 2 ^ 8 + (n / 2 ^ 16) mod 256 * 2 ^ 16
  + (n / 2 ^ 24) mod 256 * 2 ^ 24 = n.
Proof.
  intros Hn. pose proof (le_value_u32le n Hn) as E.
  unfold u32le, le_value in E. rewrite !Zb_u8 in E. lia.
Qed.


(** *** The sort and the map *)

Section Sort.
Context {A : Type} (key : A -> Z).

Lemma insert_perm (x : A) (l : list A) :
  Permutation (JSArray.insert key x l) (x :: l).
Proof.
  induction l as [|y l IH]; cbn; [reflexivity|].
  destruct (key x <=? key y); [reflexivity|].
  rewrite IH. apply perm_swap.
Qed.

Lemma sort_cons (x : A) (l : list A) :
  JSArray.sort key (x :: l) = JSArray.insert key x (JSArray.sort key l).
Proof. reflexivity. Qed.

Lemma sort_perm (l : list A) : Permutation (JSArray.sort key l) l.
Proof.
  induction l as [|x l IH]; [reflexivity|].
  rewrite sort_cons, insert_perm. constructor. exact IH.
Qed.

Lemma sort_In (l : list A) (x : A) : In x (JSArray.sort key l) <-> In x l.
Proof.
  split; apply Permutation_in; [|symmetry]; apply sort_perm.
Qed.

Lemma sort_length (l : list A) : length (JSArray.sort key l) = length l.
Proof. apply Permutation_length, sort_perm. Qed.

(** Two insertions of elements with different keys commute. *)
Lemma insert_insert (x y : A) (l : list A) :
  key x <> key y ->
  JSArray.insert key x (JSArray.insert key y l)
  = JSArray.insert key y (JSArray.insert key x l).
Proof.
  intros Hne. induction l as [|z l IH]; cbn.
  - destruct (Z.leb_spec (key x) (key y)), (Z.leb_spec (key y) (key x));
      try reflexivity; lia.
  - destruct (Z.leb_spec (key y) (key z)), (Z.leb_spec (key x) (key z));
      cbn;
      repeat match goal with
             | |- context [?a <=? ?b] => destruct (Z.leb_spec a b)
             end;
      try reflexivity; try lia.
    rewrite IH. reflexivity.
Qed.

(** The sort does not depend on the order of the input when the keys are
    pairwise different. *)
Lemma sort_permutation (l l' : list A) :
  Permutation l l' -> NoDup (map key l) ->
  JSArray.sort key l = JSArray.sort key l'.
Proof.
  induction 1 as [| x l l' _ IH | x y l | l l' l'' P1 IH1 P2 IH2];
    intros Hnd.
  - reflexivity.
  - rewrite !sort_cons, IH; [reflexivity|].
    cbn in Hnd. inversion Hnd; assumption.
  - rewrite !sort_cons. apply insert_insert.
    cbn in Hnd. inversion Hnd as [|? ? Hin _].
    intros E. apply Hin. left. symmetry. exact E.
  - rewrite IH1 by exact Hnd. apply IH2.
    apply (Permutation_NoDup (l := map key l)); [|exact Hnd].
    apply Permutation_map. exact P1.
Qed.

Lemma sort_single (x : A) : JSArray.sort key [x] = [x].
Proof. reflexivity. Qed.

End Sort.

(** *** The map with string keys *)

Section Map1.
Context {V : Type}.

Lemma map_get_one (k : string) (v : V) : JSMap.get [(k, v)] k = Some v.
Proof. cbn. rewrite String.eqb_refl. reflexivity. Qed.

Lemma map_has_one (k : string) (v : V) : JSMap.has [(k, v)] k = true.
Proof. unfold JSMap.has. rewrite map_get_one. reflexivity. Qed.

Lemma map_set_one (k : string) (v v' : V) :
  JSMap.set [(k, v)] k v' = [(k, v')].
Proof. cbn. rewrite String.eqb_refl. reflexivity. Qed.

Lemma map_delete_one (k : string) (v : V) : JSMap.delete [(k, v)] k = [].
Proof. cbn. rewrite String.eqb_refl. reflexivity. Qed.

Lemma map_get_In (m : JSMap.t V) (k : string) (v : V) :
  JSMap.get m k = Some v -> In v (JSMap.values m).
Proof.
  induction m as [|[k' v'] m IH]; cbn; [discriminate|].
  destruct (String.eqb k k').
  - intros [= ->]. left. reflexivity.
  - intros E. right. apply IH. exact E.
Qed.

Lemma map_set_In (m : JSMap.t V) (k : string) (v x : V) :
  In x (JSMap.values (JSMap.set m k v)) -> x = v \/ In x (JSMap.values m).
Proof.
  induction m as [|[k' v'] m IH]; cbn.
  - intros [<-|[]]. left. reflexivity.
  - destruct (String.eqb k k'); cbn.
    + intros [<-|Hin]; [left; reflexivity | right; right; exact Hin].
    + intros [<-|Hin]; [right; left; reflexivity|].
      destruct (IH Hin) as [->|Hin']; [left; reflexivity | right; right; exact Hin'].
Qed.

End Map1.

(** *** Rounding to a double *)

Lemma roundToDouble_multiple (z : Z) :
  (2 ^ (Z.log2 (Z.abs z) - 52) | Z.abs z) -> roundToDouble z = z.
Proof.
  intros Hd. unfold roundToDouble.
  destruct (Z.abs z <? 2 ^ 53) eqn:E; [reflexivity|].
  apply Z.ltb_ge in E. cbv zeta.
  set (a := Z.abs z) in *. set (ulp := 2 ^ (Z.log2 a - 52)) in *.
  assert (Hlog : 53 <= Z.log2 a) by (apply Z.log2_le_pow2; lia).
  assert (Hulp : 0 < ulp) by (apply Z.pow_pos_nonneg; lia).
  assert (Hr : a mod ulp = 0) by (apply Z.mod_divide; [lia | exact Hd]).
  rewrite Hr.
  replace (2 * 0 <? ulp) with true by (symmetry; apply Z.ltb_lt; lia).
  pose proof (Z.div_mod a ulp ltac:(lia)) as Hdm. rewrite Hr in Hdm.
  replace (a / ulp * ulp) with a by lia.
  unfold a. lia.
Qed.

Lemma roundToDouble_exact (z : Z) :
  Z.abs z <= 2 ^ 53 -> roundToDouble z = z.
Proof.
  intros Hz. destruct (Z.eq_dec (Z.abs z) (2 ^ 53)) as [E|N].
  - apply roundToDouble_multiple. rewrite E. exists (2 ^ 52). reflexivity.
  - unfold roundToDouble.
    replace (Z.abs z <? 2 ^ 53) with true by (symmetry; apply Z.ltb_lt; lia).
    reflexivity.
Qed.

(** A signed 32-bit number times 2^32 is a double. *)
Lemma roundToDouble_high (h : Z) :
  - 2 ^ 31 <= h <= 2 ^ 31 -> roundToDouble (h * 2 ^ 32) = h * 2 ^ 32.
Proof.
  intros Hh. destruct (Z_lt_le_dec (Z.abs (h * 2 ^ 32)) (2 ^ 53)) as [Hs|Hb].
  - apply roundToDouble_exact. lia.
  - apply roundToDouble_multiple.
    set (a := Z.abs (h * 2 ^ 32)) in *.
    assert (Ha : a = Z.abs h * 2 ^ 32) by (unfold a; rewrite Z.abs_mul; lia).
    assert (Hlo : 53 <= Z.log2 a) by (apply Z.log2_le_pow2; lia).
    assert (Hhi : Z.log2 a < 64) by (apply Z.log2_lt_pow2; lia).
    exists (Z.abs h * 2 ^ (32 - (Z.log2 a - 52))).
    assert (Hp : 2 ^ 32
                 = 2 ^ (32 - (Z.log2 a - 52)) * 2 ^ (Z.log2 a - 52)).
    { rewrite <- Z.pow_add_r by lia. f_equal. lia. }
    rewrite Ha at 1. rewrite Hp at 1. ring.
Qed.

(* ================================================================= *)
(** ** crypto.ts: the frame codec *)

Module CryptoFacts.
Import Crypto.

Lemma readU16BE_app (pre : list byte) (hi lo : byte) (post : list byte) :
  readU16BE (pre ++ hi :: lo :: post) (len pre) = Zb hi * 256 + Zb lo.
Proof.
  unfold readU16BE.
  rewrite get_app_here.
  replace (len pre + 1) with (len (pre ++ [hi]))
    by (rewrite len_app, len_cons, len_nil; lia).
  change (pre ++ hi :: lo :: post) with (pre ++ [hi] ++ lo :: post).
  rewrite app_assoc, get_app_here. cbn [num].
  apply bor_shl_8; apply Zb_range.
Qed.

Lemma writeU16BE_app (pre : list byte) (o1 o2 : byte) (post : list byte)
  (v : Z) :
  writeU16BE (pre ++ o1 :: o2 :: post) v (len pre)
  = pre ++ u8 (v / 256) :: u8 v :: post.
Proof.
  unfold writeU16BE.
  rewrite store_app.
  replace (len pre + 1) with (len (pre ++ [u8 (band (shr v 8) 255)]))
    by (rewrite len_app, len_cons, len_nil; lia).
  change (pre ++ ?a :: o2 :: post) with (pre ++ [a] ++ o2 :: post).
  rewrite app_assoc, store_app, <- app_assoc. cbn [app].
  f_equal. f_equal.
  - apply Zb_inj. rewrite !Zb_u8, band_shr_8.
    rewrite Z.mod_mod by lia. reflexivity.
  - f_equal. apply Zb_inj. rewrite !Zb_u8, band_255.
    rewrite Z.mod_mod by lia. reflexivity.
Qed.

Lemma build_frame {A} (k : list byte -> result A) (flag : Z)
  (mid : list byte) (ci tc : Z) (p : list byte) :
  len mid = 8 ->
  bind (set (store (Uint8Array (HEADER_SIZE + len p)) 0 flag) mid 1)
       (fun frame =>
          bind (set (writeU16BE (writeU16BE frame ci 9) tc 11) p HEADER_SIZE)
               k)
  = k (frameLayout flag mid ci tc p).
Proof.
  intros Hmid. unfold HEADER_SIZE.
  pose proof (len_nonneg p) as Hp.
  replace (13 + len p) with (1 + (8 + (4 + len p))) by lia.
  rewrite !Uint8Array_add by lia.
  change (Uint8Array 1) with [x00].
  change (Uint8Array 4) with [x00; x00; x00; x00].
  change ([x00] ++ ?l) with ([] ++ x00 :: l).
  change 0 with (len (@nil byte)) at 1.
  rewrite store_app.
  change ([] ++ u8 flag :: ?l) with ([u8 flag] ++ l).
  change 1 with (len [u8 flag]).
  rewrite set_app by (rewrite len_Uint8Array; lia).
  cbn [bind].
  set (pre1 := [u8 flag] ++ mid).
  rewrite (app_assoc [u8 flag] mid). fold pre1.
  assert (H1 : len pre1 = 9)
    by (unfold pre1; rewrite len_app, len_cons, len_nil; lia).
  rewrite <- H1.
  change ([x00; x00; x00; x00] ++ ?l) with (x00 :: x00 :: [x00; x00] ++ l).
  rewrite writeU16BE_app.
  set (pre2 := pre1 ++ [u8 (ci / 256); u8 ci]).
  change (pre1 ++ ?a :: ?b :: ?l) with (pre1 ++ [a; b] ++ l).
  rewrite (app_assoc pre1). fold pre2.
  assert (H2 : len pre2 = 11)
    by (unfold pre2; rewrite len_app, !len_cons, len_nil; lia).
  rewrite <- H2.
  change ([x00; x00] ++ ?l) with (x00 :: x00 :: l).
  rewrite writeU16BE_app.
  set (pre3 := pre2 ++ [u8 (tc / 256); u8 tc]).
  rewrite <- (app_nil_r (Uint8Array (len p))).
  change (pre2 ++ ?a :: ?b :: ?l) with (pre2 ++ [a; b] ++ l).
  rewrite (app_assoc pre2). fold pre3.
  assert (H3 : len pre3 = 13)
    by (unfold pre3; rewrite len_app, !len_cons, len_nil; lia).
  rewrite <- H3.
  rewrite set_app by (rewrite len_Uint8Array; lia).
  cbn [bind]. f_equal. unfold frameLayout, pre3, pre2, pre1.
  rewrite app_nil_r, <- !app_assoc. reflexivity.
Qed.

Lemma decodeMessage_frameLayout (flag : Z) (mid : list byte) (ci tc : Z)
  (p : list byte) :
  len mid = 8 ->
  decodeMessage (frameLayout flag mid ci tc p)
  = Ok {| flags := flag mod 256;
          messageId := mid;
          chunkIndex := ci mod 65536;
          totalChunks := tc mod 65536;
          payload := p |}.
Proof.
  intros Hmid. unfold decodeMessage, HEADER_SIZE.
  pose proof (len_nonneg p) as Hp.
  assert (Hlen : len (frameLayout flag mid ci tc p) = 13 + len p).
  { unfold frameLayout. rewrite len_cons, !len_app, !len_cons, len_nil. lia. }
  rewrite Hlen.
  replace (13 + len p <? 13) with false by (symmetry; apply Z.ltb_ge; lia).
  f_equal. f_equal.
  - unfold frameLayout.
    change (u8 flag :: ?l) with ([] ++ u8 flag :: l).
    change 0 with (len (@nil byte)).
    rewrite get_app_here. cbn [num]. apply Zb_u8.
  - unfold frameLayout.
    change (u8 flag :: ?l) with ([u8 flag] ++ l).
    change 1 with (len [u8 flag]).
    replace 9 with (len [u8 flag] + len mid)
      by (rewrite len_cons, len_nil; lia).
    apply slice_app_mid.
  - replace (frameLayout flag mid ci tc p)
      with (([u8 flag] ++ mid)
            ++ u8 (ci / 256) :: u8 ci :: [u8 (tc / 256); u8 tc] ++ p)
      by (unfold frameLayout; rewrite <- app_assoc; reflexivity).
    replace 9 with (len ([u8 flag] ++ mid))
      by (rewrite len_app, len_cons, len_nil; lia).
    rewrite readU16BE_app, !Zb_u8. apply u16_split.
  - replace (frameLayout flag mid ci tc p)
      with ((([u8 flag] ++ mid) ++ [u8 (ci / 256); u8 ci])
            ++ u8 (tc / 256) :: u8 tc :: p)
      by (unfold frameLayout; rewrite <- !app_assoc; reflexivity).
    replace 11 with (len (([u8 flag] ++ mid) ++ [u8 (ci / 256); u8 ci]))
      by (rewrite !len_app, !len_cons, len_nil; lia).
    rewrite readU16BE_app, !Zb_u8. apply u16_split.
  - replace (frameLayout flag mid ci tc p)
      with ((([u8 flag] ++ mid)
             ++ [u8 (ci / 256); u8 ci; u8 (tc / 256); u8 tc]) ++ p)
      by (unfold frameLayout; rewrite <- !app_assoc; reflexivity).
    match goal with |- sliceFrom (?pre ++ p) _ = _ =>
      replace 13 with (len pre)
        by (rewrite !len_app, !len_cons, len_nil; lia)
    end.
    apply sliceFrom_app.
Qed.


Section Encode.
Context `{Library} {W : Type} `{Random W}.

Lemma nacl_randomBytes_ok (n : nat) (w : W) :
  exists bs w', nacl_randomBytes n w = (Ok bs, w') /\ length bs = n.
Proof.
  revert w. induction n as [|n IH]; intros w.
  - exists [], w. split; reflexivity.
  - cbn [nacl_randomBytes]. destruct (nacl_randomByte w) as [b w1].
    destruct (IH w1) as [bs [w' [E L]]].
    exists (b :: bs), w'. unfold mbind. rewrite E. cbn. split; [reflexivity|].
    f_equal. exact L.
Qed.

Lemma encodeMessage_frames (text : Text) (w : W) :
  exists mid w',
    nacl_randomBytes 8 w = (Ok mid, w') /\ length mid = 8%nat /\
    encodeMessage text w = (Ok (framesOf mid (TextEncoder_encode text)), w').
Proof.
  destruct (nacl_randomBytes_ok 8 w) as [mid [w' [E L]]].
  exists mid, w'. split; [exact E|]. split; [exact L|].
  assert (Hmid : len mid = 8) by (unfold len; rewrite L; reflexivity).
  unfold encodeMessage, randomMessageId, mbind. rewrite E.
  unfold framesOf.
  destruct (len (TextEncoder_encode text) <=? MAX_PAYLOAD_SIZE).
  - unfold lift. f_equal.
    apply (build_frame (fun frame => Ok [frame])). exact Hmid.
  - unfold lift. f_equal. unfold for_loop. rewrite Z.sub_0_r.
    rewrite (for_range_push
               (fun i => frameLayout FLAGS_CHUNKED mid i
                   (Math_ceil_div (len (TextEncoder_encode text))
                                  MAX_PAYLOAD_SIZE)
                   (chunkOf (TextEncoder_encode text) i))).
    + reflexivity.
    + intros j acc. cbv zeta.
      apply (build_frame (fun frame => Ok (acc ++ [frame]))). exact Hmid.
Qed.


End Encode.

(** The pieces of a payload, concatenated in the order of their index. *)
Lemma concat_chunkOf (payload : list byte) (k : nat) :
  (Z.of_nat k - 1) * MAX_PAYLOAD_SIZE < len payload \/ k = O ->
  List.concat (map (chunkOf payload) (zrange 0 k))
  = slice payload 0 (Z.min (Z.of_nat k * MAX_PAYLOAD_SIZE) (len payload)).
Proof.
  unfold MAX_PAYLOAD_SIZE.
  pose proof (len_nonneg payload) as Hp.
  induction k as [|k IH]; intros Hk.
  - change (Z.of_nat 0 * 661) with 0. rewrite Z.min_l by lia.
    rewrite slice_empty by lia. reflexivity.
  - rewrite zrange_S, map_app, concat_app. cbn [map List.concat].
    rewrite app_nil_r, IH by lia.
    unfold chunkOf, MAX_PAYLOAD_SIZE. rewrite Z.add_0_l.
    replace (Z.min (Z.of_nat k * 661) (len payload)) with (Z.of_nat k * 661)
      by lia.
    replace (Z.of_nat (S k) * 661) with (Z.of_nat k * 661 + 661) by lia.
    apply slice_adjacent; lia.
Qed.

Section Roundtrip.
Context `{Library} {W : Type} `{Random W}.

(** What the frames of a chunked message decode to, whatever its length:
    the two index fields hold their values modulo 2^16. *)
Lemma decode_chunked_frames (mid payload : list byte) :
  len mid = 8 ->
  MAX_PAYLOAD_SIZE < len payload ->
  let n := Math_ceil_div (len payload) MAX_PAYLOAD_SIZE in
  mapM decodeMessage (framesOf mid payload)
  = Ok (map (fun i => {| flags := 1;
                         messageId := mid;
                         chunkIndex := i mod 65536;
                         totalChunks := n mod 65536;
                         payload := chunkOf payload i |})
            (zrange 0 (Z.to_nat n))).
Proof.
  intros Hmid Hlen n. unfold framesOf.
  replace (len payload <=? MAX_PAYLOAD_SIZE) with false
    by (symmetry; apply Z.leb_gt; lia).
  fold n. apply mapM_map_ok. intros i _.
  rewrite decodeMessage_frameLayout by exact Hmid. reflexivity.
Qed.

(** C1 (amended).  [encodeMessage] never throws.  A text of at most 661
    bytes gives one frame that decodes to flags 0, chunk index 0, total 1
    and the text's bytes.  A longer text of at most 661 * 65536 bytes gives
    ceil(len / 661) frames; they decode to one message id and one total
    (the number of frames modulo 2^16), to the chunk indices 0, 1, ...,
    n - 1 in this order, and their payloads concatenate to the text's
    bytes. *)
Theorem encodeMessage_roundtrip (text : Text) (w : W) :
  len (TextEncoder_encode text) <= MAX_PAYLOAD_SIZE * 65536 ->
  exists mid frames w',
    encodeMessage text w = (Ok frames, w') /\
    len mid = 8 /\
    (len (TextEncoder_encode text) <= MAX_PAYLOAD_SIZE ->
     exists frame,
       frames = [frame] /\
       decodeMessage frame
       = Ok {| flags := 0; messageId := mid; chunkIndex := 0;
               totalChunks := 1; payload := TextEncoder_encode text |}) /\
    (MAX_PAYLOAD_SIZE < len (TextEncoder_encode text) ->
     let n := Math_ceil_div (len (TextEncoder_encode text))
                            MAX_PAYLOAD_SIZE in
     len frames = n /\
     exists decoded,
       mapM decodeMessage frames = Ok decoded /\
       Forall (fun d => messageId d = mid /\ totalChunks d = n mod 65536)
              decoded /\
       map chunkIndex decoded = zrange 0 (Z.to_nat n) /\
       List.concat (map payload decoded) = TextEncoder_encode text).
Proof.
  intros Hbound.
  destruct (encodeMessage_frames text w) as [mid [w' [_ [Lmid E]]]].
  assert (Hmid : len mid = 8) by (unfold len; rewrite Lmid; reflexivity).
  exists mid, (framesOf mid (TextEncoder_encode text)), w'.
  split; [exact E|]. split; [exact Hmid|].
  set (p := TextEncoder_encode text) in *.
  pose proof (len_nonneg p) as Hp.
  split.
  - intros Hshort. unfold framesOf.
    replace (len p <=? MAX_PAYLOAD_SIZE) with true
      by (symmetry; apply Z.leb_le; lia).
    eexists. split; [reflexivity|].
    rewrite decodeMessage_frameLayout by exact Hmid. reflexivity.
  - intros Hlong n.
    pose proof (Math_ceil_div_spec (len p) MAX_PAYLOAD_SIZE ltac:(reflexivity))
      as Hn. fold n in Hn. unfold MAX_PAYLOAD_SIZE in *.
    split.
    + unfold framesOf, MAX_PAYLOAD_SIZE.
      replace (len p <=? 661) with false by (symmetry; apply Z.leb_gt; lia).
      unfold len at 1. rewrite length_map, length_zrange. fold n. lia.
    + eexists. split; [apply decode_chunked_frames; assumption|].
      fold n. split; [|split].
      * apply Forall_forall. intros d Hd. apply in_map_iff in Hd.
        destruct Hd as [i [<- _]]. split; reflexivity.
      * rewrite map_map. cbn [chunkIndex].
        transitivity (map (fun i : Z => i) (zrange 0 (Z.to_nat n)));
          [|apply map_id].
        apply map_ext_in. intros i Hi. apply in_zrange in Hi.
        apply Z.mod_small. lia.
      * rewrite map_map. cbn [payload].
        rewrite concat_chunkOf by (unfold MAX_PAYLOAD_SIZE; lia).
        unfold MAX_PAYLOAD_SIZE. fold n.
        replace (Z.min (Z.of_nat (Z.to_nat n) * 661) (len p)) with (len p)
          by lia.
        apply slice_full.
Qed.

End Roundtrip.

(** The theorem at a text of 1500 bytes: three frames. *)
Lemma encodeMessage_roundtrip_witness :
  let text : Text := string_of_list_byte (repeat x61 1500) in
  len (TextEncoder_encode text) <= MAX_PAYLOAD_SIZE * 65536 /\
  exists frames w',
    encodeMessage text Ref.world0 = (Ok frames, w') /\ len frames = 3.
Proof.
  intros text.
  assert (Hb : len (TextEncoder_encode text) <= MAX_PAYLOAD_SIZE * 65536)
    by (vm_compute; discriminate).
  split; [exact Hb|].
  destruct (encodeMessage_roundtrip text Ref.world0 Hb)
    as [mid [frames [w' [E [_ [_ Hlong]]]]]].
  exists frames, w'. split; [exact E|].
  apply Hlong. vm_compute. reflexivity.
Defined.

(** C1 as stated fails for long texts.  A text of 661 * 65536 + 1 bytes
    is cut into 65537 frames, and the frame at position 65536 carries the
    chunk index 0: the field has 16 bits. *)
Lemma encodeMessage_chunk_index_wraps :
  let text : Text :=
    string_of_list_byte (repeat x61 (Z.to_nat 43319297)) in
  exists frames w' frame d,
    encodeMessage text Ref.world0 = (Ok frames, w') /\
    len frames = 65537 /\
    nth_error frames (Z.to_nat 65536) = Some frame /\
    decodeMessage frame = Ok d /\
    chunkIndex d = 0.
Proof.
  intros text.
  destruct (encodeMessage_frames text Ref.world0) as [mid [w' [_ [Lmid E]]]].
  assert (Hmid : len mid = 8) by (unfold len; rewrite Lmid; reflexivity).
  assert (Hp : TextEncoder_encode text = repeat x61 (Z.to_nat 43319297))
    by (apply list_byte_of_string_of_list_byte).
  rewrite Hp in E. clear Hp. clearbody text.
  remember (Z.to_nat 43319297) as N eqn:HN.
  assert (HlenN : len (repeat x61 N) = 43319297).
  { unfold len. rewrite repeat_length, HN. apply Z2Nat.id. lia. }
  clear HN. remember (repeat x61 N) as p eqn:Hp. clear Hp N.
  assert (Hframes :
            framesOf mid p
            = map (fun i => frameLayout FLAGS_CHUNKED mid i 65537
                                        (chunkOf p i))
                  (zrange 0 (Z.to_nat 65537))).
  { unfold framesOf. rewrite HlenN. reflexivity. }
  rewrite Hframes in E. clear Hframes.
  eexists _, w', _, _. split; [exact E|]. split; [|split; [|split]].
  - unfold len. rewrite length_map, length_zrange. apply Z2Nat.id. lia.
  - rewrite nth_error_map, nth_error_zrange by lia. reflexivity.
  - rewrite Z2Nat.id by lia.
    apply decodeMessage_frameLayout. exact Hmid.
  - reflexivity.
Qed.

Section Decrypt.
Context `{Library}.

(** C7 (amended).  When the sender key cannot be converted or
    [nacl.box.open] reports a failed authentication, [decryptRaw] returns
    [null] and [decrypt] throws.  [decryptRaw] throws only when
    [nacl.box.open] itself throws. *)
Theorem decrypt_outcomes (ciphertext nonce senderPublicKey recipientSecretKey
                          : list byte) :
  (decryptionFails ciphertext nonce senderPublicKey recipientSecretKey ->
   decryptRaw ciphertext nonce senderPublicKey recipientSecretKey = Ok None /\
   exists e,
     decrypt ciphertext nonce senderPublicKey recipientSecretKey = Throw e) /\
  (forall e,
      decryptRaw ciphertext nonce senderPublicKey recipientSecretKey = Throw e ->
      exists senderX,
        ed2curve_convertPublicKey senderPublicKey = Some senderX /\
        nacl_box_open ciphertext nonce senderX
                      (ed2curve_convertSecretKey recipientSecretKey)
        = Throw e).
Proof.
  unfold decryptionFails, decryptRaw, decrypt. split.
  - intros [E | [x [E O]]]; rewrite E.
    + split; [reflexivity | eexists; reflexivity].
    + rewrite O. cbn [bind]. split; [reflexivity | eexists; reflexivity].
  - intros e. destruct (ed2curve_convertPublicKey senderPublicKey) as [x|].
    + intros E. exists x. split; [reflexivity | exact E].
    + discriminate.
Qed.

End Decrypt.

(** The theorem at a ciphertext too short to carry a tag. *)
Lemma decrypt_outcomes_witness :
  decryptionFails [] (repeat x00 24) (repeat x01 32) (repeat x02 32) /\
  decryptRaw [] (repeat x00 24) (repeat x01 32) (repeat x02 32) = Ok None.
Proof.
  assert (Hf : decryptionFails [] (repeat x00 24) (repeat x01 32)
                               (repeat x02 32)).
  { right. exists (repeat x01 32). split; vm_compute; reflexivity. }
  split; [exact Hf|].
  apply (decrypt_outcomes [] (repeat x00 24) (repeat x01 32)
                          (repeat x02 32)).
  exact Hf.
Defined.

(** C7 as stated fails for [decrypt]: on a failed authentication it throws
    instead of returning [null]. *)
Lemma decrypt_throws_on_failed_authentication :
  nacl_box_open [] (repeat x00 24) (repeat x01 32)
                (ed2curve_convertSecretKey (repeat x02 32)) = Ok None /\
  decrypt [] (repeat x00 24) (repeat x01 32) (repeat x02 32)
  = Throw "Decryption failed — invalid ciphertext or wrong keys".
Proof. split; vm_compute; reflexivity. Qed.

End CryptoFacts.

(* ================================================================= *)
(** ** instructions.ts: the payload layouts *)

Module InstructionFacts.
Import Instructions.

Lemma setUint32LE_app (pre : list byte) (a b c d : byte) (post : list byte)
  (v : Z) :
  setUint32LE (pre ++ [a; b; c; d] ++ post) (len pre) v
  = Ok (pre ++ u32le v ++ post).
Proof.
  unfold setUint32LE.
  pose proof (len_nonneg pre). pose proof (len_nonneg post).
  rewrite len_app, (len_app [a; b; c; d] post).
  change (len [a; b; c; d]) with 4.
  replace (len pre <? 0) with false by (symmetry; apply Z.ltb_ge; lia).
  replace (len pre + (4 + len post) <? len pre + 4)
    with false by (symmetry; apply Z.ltb_ge; lia).
  cbn [orb]. f_equal.
  change ([a; b; c; d] ++ post) with (a :: [b; c; d] ++ post).
  rewrite store_app.
  set (b0 := u8 (ToUint32 v)).
  change (pre ++ b0 :: [b; c; d] ++ post) with (pre ++ [b0] ++ b :: [c; d] ++ post).
  rewrite app_assoc.
  replace (len pre + 1) with (len (pre ++ [b0]))
    by (rewrite len_app, len_cons, len_nil; lia).
  rewrite store_app.
  set (b1 := u8 (Z.shiftr (ToUint32 v) 8)).
  change ((pre ++ [b0]) ++ b1 :: [c; d] ++ post)
    with ((pre ++ [b0]) ++ [b1] ++ c :: [d] ++ post).
  rewrite app_assoc.
  replace (len pre + 2) with (len ((pre ++ [b0]) ++ [b1]))
    by (rewrite !len_app, !len_cons, len_nil; lia).
  rewrite store_app.
  set (b2 := u8 (Z.shiftr (ToUint32 v) 16)).
  change (((pre ++ [b0]) ++ [b1]) ++ b2 :: [d] ++ post)
    with (((pre ++ [b0]) ++ [b1]) ++ [b2] ++ d :: post).
  rewrite app_assoc.
  replace (len pre + 3) with (len (((pre ++ [b0]) ++ [b1]) ++ [b2]))
    by (rewrite !len_app, !len_cons, len_nil; lia).
  rewrite store_app.
  rewrite <- !app_assoc. cbn [app]. unfold u32le.
  subst b0 b1 b2. unfold ToUint32.
  rewrite !Z.shiftr_div_pow2 by lia.
  assert (E0 : u8 (v mod 2 ^ 32) = u8 v).
  { apply u8_mod_eq.
    pose proof (mod_div_mod_256 v 1 (2 ^ 24) ltac:(lia) eq_refl) as E.
    rewrite !Z.div_1_r in E. exact E. }
  assert (E1 : u8 (v mod 2 ^ 32 / 2 ^ 8) = u8 (v / 2 ^ 8)).
  { apply u8_mod_eq.
    apply (mod_div_mod_256 v (2 ^ 8) (2 ^ 16)); [lia | reflexivity]. }
  assert (E2 : u8 (v mod 2 ^ 32 / 2 ^ 16) = u8 (v / 2 ^ 16)).
  { apply u8_mod_eq.
    apply (mod_div_mod_256 v (2 ^ 16) (2 ^ 8)); [lia | reflexivity]. }
  assert (E3 : u8 (v mod 2 ^ 32 / 2 ^ 24) = u8 (v / 2 ^ 24)).
  { apply u8_mod_eq.
    apply (mod_div_mod_256 v (2 ^ 24) 1); [lia | reflexivity]. }
  rewrite E0, E1, E2, E3. reflexivity.
Qed.

Lemma set_head (old post src : list byte) :
  len old = len src -> set (old ++ post) src 0 = Ok (src ++ post).
Proof.
  intros Hl. apply (set_app [] old post src Hl).
Qed.

Lemma set_last (pre old src : list byte) :
  len old = len src -> set (pre ++ old) src (len pre) = Ok (pre ++ src).
Proof.
  intros Hl. pose proof (set_app pre old [] src Hl) as E.
  rewrite !app_nil_r in E. exact E.
Qed.

Lemma serializeSendMessageData_layout (recipient ciphertext nonce : list byte) :
  len recipient = 32 -> len nonce = 24 ->
  serializeSendMessageData recipient ciphertext nonce
  = Ok (SEND_MESSAGE_DISC ++ recipient ++ u32le (len ciphertext)
        ++ ciphertext ++ nonce).
Proof.
  intros Hr Hn. unfold serializeSendMessageData. cbv zeta.
  pose proof (len_nonneg ciphertext) as Hc.
  replace (8 + 32 + 4 + len ciphertext + 24)
    with (8 + (32 + (4 + (len ciphertext + 24)))) by lia.
  rewrite !Uint8Array_add by lia.
  rewrite set_head by (rewrite len_Uint8Array by lia; reflexivity).
  cbn [bind]. change (0 + 8) with (len SEND_MESSAGE_DISC).
  rewrite set_app by (rewrite len_Uint8Array by lia; lia).
  cbn [bind].
  change (Uint8Array 4) with [x00; x00; x00; x00].
  rewrite (app_assoc SEND_MESSAGE_DISC recipient).
  replace (len SEND_MESSAGE_DISC + 32) with (len (SEND_MESSAGE_DISC ++ recipient))
    by (rewrite len_app, Hr; reflexivity).
  rewrite setUint32LE_app. cbn [bind].
  rewrite (app_assoc (SEND_MESSAGE_DISC ++ recipient)).
  replace (len (SEND_MESSAGE_DISC ++ recipient) + 4)
    with (len ((SEND_MESSAGE_DISC ++ recipient) ++ u32le (len ciphertext)))
    by (rewrite (len_app _ (u32le _)); reflexivity).
  rewrite set_app by (rewrite len_Uint8Array by lia; lia).
  cbn [bind].
  rewrite (app_assoc _ ciphertext).
  rewrite <- len_app.
  rewrite set_last by (rewrite len_Uint8Array by lia; lia).
  rewrite <- !app_assoc. reflexivity.
Qed.

Lemma discriminators_hex :
  SEND_MESSAGE_DISC = [x39; x28; x22; xb2; xbd; x0a; x41; x1a] /\
  REGISTER_DISC = [xd3; x7c; x43; x0f; xd3; xc2; xb2; xf0] /\
  UPDATE_ENCRYPTION_KEY_DISC = [x5c; xe9; x1d; x65; x98; x61; x6e; xeb] /\
  DEREGISTER_DISC = [xa1; xb2; x27; xbd; xe7; xe0; x0d; xbb].
Proof. repeat split; reflexivity. Qed.

Lemma disc_pubkey_layout {A} (k : list byte -> result A)
  (disc pubkey : list byte) :
  len disc = 8 -> len pubkey = 32 ->
  bind (set (Uint8Array 40) disc 0)
       (fun data => bind (set data pubkey 8) k)
  = k (disc ++ pubkey).
Proof.
  intros Hd Hp.
  change 40 with (8 + 32). rewrite Uint8Array_add by lia.
  rewrite set_head by (rewrite len_Uint8Array by lia; lia).
  cbn [bind]. rewrite <- Hd.
  rewrite set_last by (rewrite len_Uint8Array by lia; lia).
  reflexivity.
Qed.

Section WireLayout.
Context `{Library}.

Ltac use_valid :=
  repeat match goal with
         | Hv : validAddress ?s |- context [address ?s] =>
             let a := fresh "a" in
             let E := fresh "E" in
             destruct Hv as [a E]; rewrite E; cbn [bind]
         end.

(** C2.  With a recipient of 32 bytes, a nonce of 24 bytes, public keys of 32
    bytes and addresses that [address()] accepts, each builder returns an
    instruction, and its data is the discriminator followed by the fields
    in the order of the wire format: recipient, ciphertext length as four
    little-endian bytes, ciphertext, nonce for [send_message]; the public
    key for [register] and [update_encryption_key]; nothing for
    [deregister]. *)
Theorem instruction_wire_layout
  (sp : SendMessageParams) (rp : RegisterParams)
  (up : UpdateEncryptionKeyParams) (dp : DeregisterParams)
  (recipientBytes : list byte) :
  addressToBytes (sm_recipient sp) = Ok recipientBytes ->
  len recipientBytes = 32 ->
  len (sm_nonce sp) = 24 ->
  len (rg_encryptionPubkey rp) = 32 ->
  len (up_newEncryptionPubkey up) = 32 ->
  Forall validAddress
    [ orDefault (sm_programId sp); sm_sender sp; sm_configPda sp;
      sm_feeVault sp; sm_recipientRegistryPda sp; sm_recipient sp;
      SYSTEM_PROGRAM;
      orDefault (rg_programId rp); rg_registryPda rp; rg_owner rp;
      orDefault (up_programId up); up_registryPda up; up_owner up;
      orDefault (dr_programId dp); dr_registryPda dp; dr_owner dp ] ->
  (exists ix,
      buildSendMessageInstruction sp = Ok ix /\
      data ix = [x39; x28; x22; xb2; xbd; x0a; x41; x1a]
                ++ recipientBytes
                ++ u32le (len (sm_ciphertext sp))
                ++ sm_ciphertext sp
                ++ sm_nonce sp) /\
  (exists ix,
      buildRegisterInstruction rp = Ok ix /\
      data ix = [xd3; x7c; x43; x0f; xd3; xc2; xb2; xf0]
                ++ rg_encryptionPubkey rp) /\
  (exists ix,
      buildUpdateEncryptionKeyInstruction up = Ok ix /\
      data ix = [x5c; xe9; x1d; x65; x98; x61; x6e; xeb]
                ++ up_newEncryptionPubkey up) /\
  (exists ix,
      buildDeregisterInstruction dp = Ok ix /\
      data ix = [xa1; xb2; x27; xbd; xe7; xe0; x0d; xbb]).
Proof.
  intros Hrb Hlr Hln Hlp Hlu Hv.
  repeat match goal with
         | Hf : Forall _ (_ :: _) |- _ =>
             let Hh := fresh "V" in
             apply Forall_cons_iff in Hf; destruct Hf as [Hh Hf]
         end.
  clear Hv.
  split; [|split; [|split]].
  - unfold buildSendMessageInstruction. cbv zeta.
    rewrite Hrb. cbn [bind].
    rewrite serializeSendMessageData_layout by assumption. cbn [bind].
    use_valid. eexists. split; reflexivity.
  - unfold buildRegisterInstruction. cbv zeta.
    rewrite disc_pubkey_layout by (reflexivity || assumption).
    use_valid. eexists. split; reflexivity.
  - unfold buildUpdateEncryptionKeyInstruction. cbv zeta.
    rewrite disc_pubkey_layout by (reflexivity || assumption).
    use_valid. eexists. split; reflexivity.
  - unfold buildDeregisterInstruction. cbv zeta.
    change (set (Uint8Array 8) DEREGISTER_DISC 0) with (Ok DEREGISTER_DISC).
    cbn [bind]. use_valid. eexists. split; reflexivity.
Qed.

End WireLayout.


(** The theorem at sample inputs; the first 47 bytes of the
    [send_message] payload. *)
Lemma instruction_wire_layout_witness :
  let sp := {| sm_sender := sampleAddress;
               sm_recipient := DEFAULT_PROGRAM_ID;
               sm_ciphertext := [x01; x02; x03];
               sm_nonce := repeat x07 24;
               sm_configPda := sampleAddress;
               sm_feeVault := sampleAddress;
               sm_recipientRegistryPda := sampleAddress;
               sm_programId := None |} in
  exists ix,
    buildSendMessageInstruction sp = Ok ix /\
    firstn 47 (data ix)
    = [x39; x28; x22; xb2; xbd; x0a; x41; x1a;
       x0b; x7e; xd9; xf0; x9c; xae; x31; x56; x8c; x43; x4b; x85; xbb;
       x85; x0d; xce; x70; xd6; xd7; x15; x43; x07; xcb; xd3; x9a; xc0;
       xae; x80; x41; x82; x88; x34;
       x03; x00; x00; x00; x01; x02; x03].
Proof.
  intros sp.
  pose (rp := {| rg_owner := sampleAddress;
                 rg_encryptionPubkey := repeat x09 32;
                 rg_registryPda := sampleAddress;
                 rg_programId := None |}).
  pose (up := {| up_owner := sampleAddress;
                 up_newEncryptionPubkey := repeat x0a 32;
                 up_registryPda := sampleAddress;
                 up_programId := Some sampleAddress |}).
  pose (dp := {| dr_owner := sampleAddress;
                 dr_registryPda := sampleAddress;
                 dr_programId := None |}).
  assert (Hok : forall s, Ref.address s = Ok s -> validAddress s)
    by (intros s E; exists s; exact E).
  destruct (instruction_wire_layout sp rp up dp
              (match Ref.bytes_of_base58 DEFAULT_PROGRAM_ID with
               | Ok b => b
               | Throw _ => []
               end))
    as [[ix [E D]] _].
  - vm_compute. reflexivity.
  - vm_compute. reflexivity.
  - vm_compute. reflexivity.
  - vm_compute. reflexivity.
  - vm_compute. reflexivity.
  - repeat (apply Forall_cons; [apply Hok; vm_compute; reflexivity|]).
    apply Forall_nil.
  - exists ix. split; [exact E|]. rewrite D. vm_compute. reflexivity.
Defined.

End InstructionFacts.

(* ================================================================= *)
(** ** events.ts: the log parser *)

Module EventFacts.
Import Events.

(** *** [bytesEqual] decides equality *)

Lemma bytesEqual_loop_true (a b : list byte) (n : nat) (i : Z) :
  bytesEqual_loop n i a b = true <->
  (forall j, i <= j < i + Z.of_nat n -> num (get a j) = num (get b j)).
Proof.
  revert i. induction n as [|n IH]; intros i.
  - cbn. split; [intros _ j Hj; lia | reflexivity].
  - cbn [bytesEqual_loop].
    destruct (Z.eqb_spec (num (get a i)) (num (get b i))) as [E|E];
      cbn [negb].
    + rewrite IH. split.
      * intros Hall j Hj. destruct (Z.eq_dec j i) as [->|]; [exact E|].
        apply Hall. lia.
      * intros Hall j Hj. apply Hall. lia.
    + split; [discriminate|]. intros Hall. exfalso. apply E, Hall. lia.
Qed.

Lemma bytesEqual_true (a b : list byte) : bytesEqual a b = true <-> a = b.
Proof.
  unfold bytesEqual. split.
  - destruct (Z.eqb_spec (len a) (len b)) as [El|El]; cbn [negb];
      [|discriminate].
    intros Hloop. pose proof (proj1 (bytesEqual_loop_true a b _ _) Hloop) as Hall.
    clear Hloop. rename Hall into Hloop.
    apply nth_error_ext. intros k.
    destruct (Nat.ltb_spec k (length a)) as [Hk|Hk].
    + assert (Hka : 0 <= Z.of_nat k < len a) by (unfold len; lia).
      assert (Hkb : 0 <= Z.of_nat k < len b) by lia.
      destruct (get_inside a _ Hka) as [x [Nx Gx]].
      destruct (get_inside b _ Hkb) as [y [Ny Gy]].
      rewrite Nat2Z.id in Nx, Ny. rewrite Nx, Ny. f_equal.
      apply Zb_inj.
      specialize (Hloop (Z.of_nat k) ltac:(unfold len in *; lia)).
      rewrite Gx, Gy in Hloop. exact Hloop.
    + assert (Hkb : (length b <= k)%nat) by (unfold len in El; lia).
      apply nth_error_None in Hk, Hkb. rewrite Hk, Hkb. reflexivity.
  - intros ->. rewrite Z.eqb_refl. cbn [negb].
    apply (proj2 (bytesEqual_loop_true b b _ _)). reflexivity.
Qed.

(** *** Reading little-endian numbers *)



Lemma readU32LE_bytes (pre : list byte) (b0 b1 b2 b3 : byte)
  (post : list byte) :
  Zb b3 < 128 ->
  readU32LE (pre ++ b0 :: b1 :: b2 :: b3 :: post) (len pre)
  = Zb b0 + Zb b1 * 2 ^ 8 + Zb b2 * 2 ^ 16 + Zb b3 * 2 ^ 24.
Proof.
  intros H3. unfold readU32LE.
  rewrite get_app_skip0, !get_app_skip by lia.
  rewrite list_get_0, list_get_1, list_get_2, list_get_3. cbn [num].
  pose proof (Zb_range b0). pose proof (Zb_range b1).
  pose proof (Zb_range b2). pose proof (Zb_range b3).
  apply le32_value; lia.
Qed.

Lemma readU32LE_u32le (pre post : list byte) (n : Z) :
  0 <= n < 2 ^ 31 ->
  readU32LE (pre ++ u32le n ++ post) (len pre) = n.
Proof.
  intros Hn. unfold u32le. cbn [app].
  rewrite readU32LE_bytes.
  - rewrite !Zb_u8. apply u32le_sum. lia.
  - rewrite Zb_u8.
    pose proof (div_pow_range n 24 7 ltac:(lia) ltac:(lia) ltac:(cbn; lia)).
    rewrite Z.mod_small by lia. lia.
Qed.

Lemma readI64LE_bytes (pre : list byte) (b0 b1 b2 b3 : byte)
  (post : list byte) :
  Zb b3 < 128 ->
  readI64LE (pre ++ b0 :: b1 :: b2 :: b3 :: x00 :: x00 :: x00 :: x00 :: post)
            (len pre)
  = Zb b0 + Zb b1 * 2 ^ 8 + Zb b2 * 2 ^ 16 + Zb b3 * 2 ^ 24.
Proof.
  intros H3. unfold readI64LE.
  rewrite get_app_skip0, !get_app_skip by lia.
  rewrite list_get_0, list_get_1, list_get_2, list_get_3.
  rewrite list_get_4, list_get_5, list_get_6, list_get_7. cbn [num].
  pose proof (Zb_range b0). pose proof (Zb_range b1).
  pose proof (Zb_range b2). pose proof (Zb_range b3).
  change (Zb x00) with 0.
  rewrite (shl_small (Zb b3) 24) by lia.
  rewrite (ushr_0_small (Zb b3 * 2 ^ 24)) by lia.
  change (ushr (shl 0 24) 0) with 0.
  change (bor (bor (bor 0 (shl 0 8)) (shl 0 16)) 0) with 0.
  rewrite !shl_small by lia.
  rewrite (bor_small (Zb b0) (Zb b1) 8) by lia.
  rewrite (bor_small (Zb b0 + Zb b1 * 2 ^ 8) (Zb b2) 16) by lia.
  rewrite (bor_small (Zb b0 + Zb b1 * 2 ^ 8 + Zb b2 * 2 ^ 16) (Zb b3) 24)
    by lia.
  change (number_mul 0 4294967296) with 0.
  unfold number_add. rewrite roundToDouble_exact by lia. lia.
Qed.

Lemma u8_zero_of_small (n k : Z) :
  0 <= n < 2 ^ k -> 0 <= k -> u8 (n / 2 ^ k) = x00.
Proof.
  intros Hn Hk. rewrite Z.div_small by lia. reflexivity.
Qed.

Lemma readI64LE_i64le (pre post : list byte) (ts : Z) :
  0 <= ts < 2 ^ 31 ->
  readI64LE (pre ++ i64le ts ++ post) (len pre) = ts.
Proof.
  intros Hts. unfold i64le. cbn [app].
  rewrite (u8_zero_of_small ts 32) by lia.
  rewrite (u8_zero_of_small ts 40) by lia.
  rewrite (u8_zero_of_small ts 48) by lia.
  rewrite (u8_zero_of_small ts 56) by lia.
  rewrite readI64LE_bytes.
  - rewrite !Zb_u8. apply u32le_sum. lia.
  - rewrite Zb_u8.
    pose proof (div_pow_range ts 24 7 ltac:(lia) ltac:(lia) ltac:(cbn; lia)).
    rewrite Z.mod_small by lia. lia.
Qed.

Lemma readU32LE_at (pre post : list byte) (n off : Z) :
  off = len pre -> 0 <= n < 2 ^ 31 ->
  readU32LE (pre ++ u32le n ++ post) off = n.
Proof. intros -> Hn. apply readU32LE_u32le. exact Hn. Qed.

Lemma readI64LE_at (pre post : list byte) (ts off : Z) :
  off = len pre -> 0 <= ts < 2 ^ 31 ->
  readI64LE (pre ++ i64le ts ++ post) off = ts.
Proof. intros -> Hn. apply readI64LE_i64le. exact Hn. Qed.

Section Parser.
Context `{Library}.

Lemma parse_fold (logs : list string) (acc : list MessageSentEvent) :
  fold_left
    (fun events line =>
       match parseLine line with
       | Some event => events ++ [event]
       | None => events
       end)
    logs acc
  = acc ++ flat_map eventOfLine logs.
Proof.
  revert acc. induction logs as [|line logs IH]; intros acc.
  - cbn. rewrite app_nil_r. reflexivity.
  - cbn [fold_left flat_map]. rewrite IH. unfold eventOfLine at 2.
    destruct (parseLine line); [rewrite <- app_assoc|]; reflexivity.
Qed.

Lemma parse_flat_map (logs : list string) :
  parseMessageSentEvents logs = flat_map eventOfLine logs.
Proof. unfold parseMessageSentEvents. apply parse_fold. Qed.

Lemma parse_single (line : string) :
  parseMessageSentEvents [line] = eventOfLine line.
Proof. rewrite parse_flat_map. cbn. apply app_nil_r. Qed.

(** The loop body in terms of the bytes the line carries. *)
Lemma parseLine_payload (line : string) :
  parseLine line
  = match payloadOf line with
    | None => None
    | Some data =>
        if len data <? 8 then None else
        if negb (bytesEqual (slice data 0 8) MESSAGE_SENT_DISCRIMINATOR)
        then None else
        let ctLen := readU32LE data (8 + 32 + 32) in
        Some {| ev_sender := pubkeyBytesToAddress (slice data 8 (8 + 32));
                ev_recipient :=
                  pubkeyBytesToAddress (slice data (8 + 32) (8 + 32 + 32));
                ev_ciphertext :=
                  slice data (8 + 32 + 32 + 4) (8 + 32 + 32 + 4 + ctLen);
                ev_nonce :=
                  slice data (8 + 32 + 32 + 4 + ctLen)
                        (8 + 32 + 32 + 4 + ctLen + 24);
                ev_timestamp :=
                  readI64LE data (8 + 32 + 32 + 4 + ctLen + 24);
                ev_txSignature := None |}
    end.
Proof.
  unfold parseLine, payloadOf. cbv zeta.
  change (Z.of_nat (String.length "Program data: ")) with 14.
  destruct (JSString.indexOf line "Program data: " =? -1); [reflexivity|].
  destruct (base64Decode _); reflexivity.
Qed.

Lemma parse_record (line : string)
  (sender recipient ct nonce : list byte) (ts : Z) (rest : list byte) :
  payloadOf line = Some (eventRecord sender recipient ct nonce ts ++ rest) ->
  len sender = 32 -> len recipient = 32 -> len nonce = 24 ->
  len ct < 2 ^ 31 -> 0 <= ts < 2 ^ 31 ->
  parseLine line
  = Some {| ev_sender := getBase58Decoder_decode sender;
            ev_recipient := getBase58Decoder_decode recipient;
            ev_ciphertext := ct;
            ev_nonce := nonce;
            ev_timestamp := ts;
            ev_txSignature := None |}.
Proof.
  intros Hpay Hs Hr Hn Hct Hts.
  rewrite parseLine_payload, Hpay.
  pose proof (len_nonneg ct) as Hc0. pose proof (len_nonneg rest) as Hr0.
  set (D := MESSAGE_SENT_DISCRIMINATOR).
  assert (HD : len D = 8) by reflexivity.
  assert (Hu : len (u32le (len ct)) = 4) by reflexivity.
  assert (Hi : len (i64le ts) = 8) by reflexivity.
  (* the same bytes, grouped in front of each field *)
  set (data := eventRecord sender recipient ct nonce ts ++ rest).
  assert (E0 : data = [] ++ D
                      ++ (sender ++ recipient ++ u32le (len ct) ++ ct
                          ++ nonce ++ i64le ts ++ rest)).
  { unfold data, eventRecord. fold D. cbn [app].
    rewrite <- !app_assoc. reflexivity. }
  assert (E1 : data = D ++ sender
                      ++ (recipient ++ u32le (len ct) ++ ct ++ nonce
                          ++ i64le ts ++ rest)).
  { rewrite E0. reflexivity. }
  assert (E2 : data = (D ++ sender) ++ recipient
                      ++ (u32le (len ct) ++ ct ++ nonce ++ i64le ts ++ rest)).
  { rewrite E1, <- !app_assoc. reflexivity. }
  assert (E3 : data = ((D ++ sender) ++ recipient) ++ u32le (len ct)
                      ++ (ct ++ nonce ++ i64le ts ++ rest)).
  { rewrite E2, <- !app_assoc. reflexivity. }
  assert (E4 : data = (((D ++ sender) ++ recipient) ++ u32le (len ct)) ++ ct
                      ++ (nonce ++ i64le ts ++ rest)).
  { rewrite E3, <- !app_assoc. reflexivity. }
  assert (E5 : data = ((((D ++ sender) ++ recipient) ++ u32le (len ct)) ++ ct)
                      ++ nonce ++ (i64le ts ++ rest)).
  { rewrite E4, <- !app_assoc. reflexivity. }
  assert (E6 : data = (((((D ++ sender) ++ recipient) ++ u32le (len ct))
                        ++ ct) ++ nonce) ++ i64le ts ++ rest).
  { rewrite E5, <- !app_assoc. reflexivity. }
  assert (Hlen : len data = 108 + len ct + len rest).
  { rewrite E6, !len_app. lia. }
  replace (len data <? 8) with false by (symmetry; apply Z.ltb_ge; lia).
  assert (Hdisc : slice data 0 8 = D).
  { rewrite E0. apply slice_at; [reflexivity | rewrite HD; reflexivity]. }
  rewrite Hdisc.
  replace (bytesEqual D D) with true
    by (symmetry; apply bytesEqual_true; reflexivity).
  cbn [negb]. cbv zeta.
  assert (Hctlen : readU32LE data (8 + 32 + 32) = len ct).
  { rewrite E3. apply readU32LE_at; [rewrite !len_app; lia | lia]. }
  rewrite Hctlen.
  f_equal. unfold pubkeyBytesToAddress.
  f_equal.
  - f_equal. rewrite E1. apply slice_at; lia.
  - f_equal. rewrite E2. apply slice_at; rewrite ?len_app; lia.
  - rewrite E4. apply slice_at; rewrite ?len_app; lia.
  - rewrite E5. apply slice_at; rewrite ?len_app; lia.
  - rewrite E6. apply readI64LE_at; [rewrite !len_app; lia | lia].
Qed.

End Parser.

Section ParserSpec.
Context `{Library}.

(** C3 (amended).  The parser returns a list and never throws.  The events
    come in the order of the lines, each line on its own.  A line without
    the text "Program data: ", or whose base64 text is rejected, or whose
    bytes are fewer than 8 or do not start with the discriminator, gives no
    event.  A line whose bytes start with the discriminator gives exactly
    one event, whatever follows.  When the bytes are a whole record, with a
    ciphertext shorter than 2^31 bytes and a timestamp in [0, 2^31), the
    event holds the base58 text of sender and recipient, the ciphertext,
    the nonce and the timestamp of the record. *)
Theorem parseMessageSentEvents_spec (logs1 logs2 : list string)
  (line : string) :
  parseMessageSentEvents (logs1 ++ logs2)
  = parseMessageSentEvents logs1 ++ parseMessageSentEvents logs2 /\
  (payloadOf line = None -> parseMessageSentEvents [line] = []) /\
  (forall data,
      payloadOf line = Some data ->
      len data < 8 \/ slice data 0 8 <> MESSAGE_SENT_DISCRIMINATOR ->
      parseMessageSentEvents [line] = []) /\
  (forall data,
      payloadOf line = Some data ->
      8 <= len data -> slice data 0 8 = MESSAGE_SENT_DISCRIMINATOR ->
      exists event, parseMessageSentEvents [line] = [event]) /\
  (forall sender recipient ct nonce ts rest,
      payloadOf line
      = Some (eventRecord sender recipient ct nonce ts ++ rest) ->
      len sender = 32 -> len recipient = 32 -> len nonce = 24 ->
      len ct < 2 ^ 31 -> 0 <= ts < 2 ^ 31 ->
      parseMessageSentEvents [line]
      = [ {| ev_sender := getBase58Decoder_decode sender;
             ev_recipient := getBase58Decoder_decode recipient;
             ev_ciphertext := ct;
             ev_nonce := nonce;
             ev_timestamp := ts;
             ev_txSignature := None |} ]).
Proof.
  split; [|split; [|split; [|split]]].
  - rewrite !parse_flat_map. apply flat_map_app.
  - intros Hp. rewrite parse_single. unfold eventOfLine.
    rewrite parseLine_payload, Hp. reflexivity.
  - intros data Hp Hbad. rewrite parse_single. unfold eventOfLine.
    rewrite parseLine_payload, Hp.
    destruct (Z.ltb_spec (len data) 8) as [Hl|Hl]; [reflexivity|].
    destruct Hbad as [Hbad|Hbad]; [lia|].
    destruct (bytesEqual (slice data 0 8) MESSAGE_SENT_DISCRIMINATOR) eqn:E;
      [|reflexivity].
    apply bytesEqual_true in E. contradiction.
  - intros data Hp Hl Hd. rewrite parse_single. unfold eventOfLine.
    rewrite parseLine_payload, Hp.
    replace (len data <? 8) with false by (symmetry; apply Z.ltb_ge; lia).
    rewrite Hd.
    replace (bytesEqual MESSAGE_SENT_DISCRIMINATOR MESSAGE_SENT_DISCRIMINATOR)
      with true by (symmetry; apply bytesEqual_true; reflexivity).
    cbn [negb]. eexists. reflexivity.
  - intros sender recipient ct nonce ts rest Hp Hs Hr Hn Hc Ht.
    rewrite parse_single. unfold eventOfLine.
    rewrite (parse_record line sender recipient ct nonce ts rest)
      by assumption.
    reflexivity.
Qed.

End ParserSpec.

(** The theorem at a log with a whole record. *)
Lemma parseMessageSentEvents_spec_witness :
  payloadOf sampleLine = Some (sampleRecord ++ []) /\
  parseMessageSentEvents [sampleLine; "Program log: hello"; sampleLine]
  = parseMessageSentEvents [sampleLine]
    ++ parseMessageSentEvents ["Program log: hello"; sampleLine] /\
  parseMessageSentEvents [sampleLine]
  = [ {| ev_sender := getBase58Decoder_decode (repeat x01 32);
         ev_recipient := getBase58Decoder_decode (repeat x02 32);
         ev_ciphertext := [xaa; xbb; xcc];
         ev_nonce := repeat x07 24;
         ev_timestamp := 1700000000;
         ev_txSignature := None |} ].
Proof.
  assert (Hp : payloadOf sampleLine = Some (sampleRecord ++ []))
    by (vm_compute; reflexivity).
  destruct (parseMessageSentEvents_spec
              [sampleLine] ["Program log: hello"; sampleLine] sampleLine)
    as [Happ [_ [_ [_ Hrec]]]].
  split; [exact Hp|]. split; [exact Happ|].
  apply (Hrec (repeat x01 32) (repeat x02 32) [xaa; xbb; xcc]
              (repeat x07 24) 1700000000 []).
  - exact Hp.
  - reflexivity.
  - reflexivity.
  - reflexivity.
  - vm_compute. reflexivity.
  - vm_compute. split; [discriminate | reflexivity].
Defined.

(** C3 as stated fails on a malformed line: the 8 bytes of the
    discriminator alone, with none of the fields, still give an event. *)
Lemma parse_truncated_record_yields_event :
  payloadOf truncatedLine = Some MESSAGE_SENT_DISCRIMINATOR /\
  parseMessageSentEvents [truncatedLine]
  = [ {| ev_sender := ""; ev_recipient := ""; ev_ciphertext := [];
         ev_nonce := []; ev_timestamp := 0; ev_txSignature := None |} ].
Proof. split; vm_compute; reflexivity. Qed.

(** The two halves of a timestamp are joined as signed 32-bit numbers: a
    timestamp with bit 31 set is read as a negative number. *)
Example readI64LE_bit31 :
  readI64LE (i64le 2147483648) 0 = -2147483648.
Proof. vm_compute. reflexivity. Qed.

End EventFacts.

(* ================================================================= *)
(** ** registry.ts: the lookup *)

Module RegistryFacts.

Section Lookup.
Context `{Library} {W : Type} `{Chain W}.

(** The part of [lookupEncryptionKey] inside [try], once the RPC call has
    returned a value with data. *)
Lemma lookup_with_data (walletAddress : string) (programId : option string)
  (registryPda pda : string) (info : AccountInfo) (w w' : W) :
  deriveRegistryPda walletAddress programId = Ok registryPda ->
  address registryPda = Ok pda ->
  rpc_getAccountInfo pda w = (Ok (Some info), w') ->
  noData (Some info) = false ->
  lookupEncryptionKey walletAddress programId w
  = (Ok (Some (getBase58Decoder_decode (slice (accountBytes info) 40 72))),
     w').
Proof.
  intros Hd Ha Hr Hn.
  unfold lookupEncryptionKey, mbind, catch, lift, ret.
  rewrite Hd, Ha, Hr, Hn.
  unfold accountBytes. destruct info as [[[s|c e]|]]; cbn in *;
    try reflexivity; discriminate.
Qed.

(** The derivation of the registry address is outside [try]: its error
    reaches the caller. *)
Lemma lookup_rethrows_derivation_error (walletAddress : string)
  (programId : option string) (e : Error) (w : W) :
  deriveRegistryPda walletAddress programId = Throw e ->
  lookupEncryptionKey walletAddress programId w = (Throw e, w).
Proof.
  intros Hd. unfold lookupEncryptionKey, mbind, lift. rewrite Hd.
  reflexivity.
Qed.

(** C8.  For an identity whose registry address derives: the lookup
    returns [null] when the node reports no account, and when the address
    check or the RPC call throws; for an account with data of at least 72
    bytes it returns the base58 text of the 32 bytes at offsets 40..72. *)
Theorem lookupEncryptionKey_outcomes (walletAddress : string)
  (programId : option string) (registryPda : string) (w : W) :
  deriveRegistryPda walletAddress programId = Ok registryPda ->
  (forall e, address registryPda = Throw e ->
             lookupEncryptionKey walletAddress programId w = (Ok None, w)) /\
  (forall pda, address registryPda = Ok pda ->
     (forall w', rpc_getAccountInfo pda w = (Ok None, w') ->
        lookupEncryptionKey walletAddress programId w = (Ok None, w')) /\
     (forall e w', rpc_getAccountInfo pda w = (Throw e, w') ->
        lookupEncryptionKey walletAddress programId w = (Ok None, w')) /\
     (forall info w',
        rpc_getAccountInfo pda w = (Ok (Some info), w') ->
        noData (Some info) = false ->
        72 <= len (accountBytes info) ->
        let key := slice (accountBytes info) 40 72 in
        len key = 32 /\
        lookupEncryptionKey walletAddress programId w
        = (Ok (Some (getBase58Decoder_decode key)), w'))).
Proof.
  intros Hd. split.
  - intros e Ha. unfold lookupEncryptionKey, mbind, catch, lift, ret.
    rewrite Hd, Ha. reflexivity.
  - intros pda Ha. split; [|split].
    + intros w' Hr. unfold lookupEncryptionKey, mbind, catch, lift, ret.
      rewrite Hd, Ha, Hr. reflexivity.
    + intros e w' Hr. unfold lookupEncryptionKey, mbind, catch, lift, ret.
      rewrite Hd, Ha, Hr. reflexivity.
    + intros info w' Hr Hn Hl key. split.
      * unfold key. rewrite len_slice_inside; lia.
      * apply (lookup_with_data _ _ registryPda pda); assumption.
Qed.

(** C10.  For an existing account whose data is shorter than 72 bytes the
    lookup returns the base58 text of the bytes from offset 40 to the end
    of the data, fewer than 32 of them, and neither [null] nor an
    error. *)
Theorem lookupEncryptionKey_short_account (walletAddress : string)
  (programId : option string) (registryPda pda : string)
  (info : AccountInfo) (w w' : W) :
  deriveRegistryPda walletAddress programId = Ok registryPda ->
  address registryPda = Ok pda ->
  rpc_getAccountInfo pda w = (Ok (Some info), w') ->
  noData (Some info) = false ->
  len (accountBytes info) < 72 ->
  len (skipn 40 (accountBytes info)) < 32 /\
  lookupEncryptionKey walletAddress programId w
  = (Ok (Some (getBase58Decoder_decode (skipn 40 (accountBytes info)))), w').
Proof.
  intros Hd Ha Hr Hn Hl.
  pose proof (len_nonneg (accountBytes info)) as Hnn.
  split.
  - unfold len in *. rewrite length_skipn. lia.
  - rewrite (lookup_with_data _ _ registryPda pda info w w') by assumption.
    do 4 f_equal.
    unfold slice, relIndex. change (40 <? 0) with false.
    change (72 <? 0) with false. cbv zeta.
    rewrite (Z.min_r 72) by lia.
    destruct (Z.le_gt_cases 40 (len (accountBytes info))) as [Hge|Hlt].
    + rewrite Z.min_l by lia. change (Z.to_nat 40) with 40%nat.
      apply firstn_all2. unfold len in *. rewrite length_skipn. lia.
    + rewrite Z.min_r by lia.
      rewrite Z.sub_diag. cbn [Z.to_nat firstn].
      rewrite !skipn_all2 by (unfold len in *; lia). reflexivity.
Qed.

End Lookup.

(** The theorem in a world with a registry account of 88 bytes and in a
    world without one. *)
Lemma lookupEncryptionKey_outcomes_witness :
  deriveRegistryPda sampleAddress None = Ok samplePda /\
  lookupEncryptionKey sampleAddress None (worldWithAccount sampleAccount)
  = (Ok (Some (getBase58Decoder_decode (repeat x0b 32))),
     worldWithAccount sampleAccount) /\
  lookupEncryptionKey sampleAddress None Ref.world0 = (Ok None, Ref.world0).
Proof.
  assert (Hd : deriveRegistryPda sampleAddress None = Ok samplePda)
    by (vm_compute; reflexivity).
  split; [exact Hd|].
  destruct (lookupEncryptionKey_outcomes sampleAddress None samplePda
              (worldWithAccount sampleAccount) Hd) as [_ Hacc].
  destruct (lookupEncryptionKey_outcomes sampleAddress None samplePda
              Ref.world0 Hd) as [_ Hnone].
  split.
  - destruct (Hacc samplePda ltac:(vm_compute; reflexivity)) as [_ [_ Hsome]].
    destruct (Hsome
                {| ai_data :=
                     Some (DataTuple (Ref.Buffer_toString_base64 sampleAccount)
                                     "base64") |}
                (worldWithAccount sampleAccount)) as [_ E].
    + vm_compute. reflexivity.
    + reflexivity.
    + vm_compute. discriminate.
    + rewrite E. vm_compute. reflexivity.
  - destruct (Hnone samplePda ltac:(vm_compute; reflexivity)) as [Hn _].
    apply Hn. vm_compute. reflexivity.
Defined.

(** The theorem at accounts of 50 and of 10 bytes; the latter gives the
    empty string. *)
Lemma lookupEncryptionKey_short_account_witness :
  lookupEncryptionKey sampleAddress None (worldWithAccount (repeat x05 50))
  = (Ok (Some (getBase58Decoder_decode (repeat x05 10))),
     worldWithAccount (repeat x05 50)) /\
  lookupEncryptionKey sampleAddress None (worldWithAccount (repeat x05 10))
  = (Ok (Some ""), worldWithAccount (repeat x05 10)).
Proof.
  split.
  - destruct (lookupEncryptionKey_short_account sampleAddress None
                samplePda samplePda
                {| ai_data :=
                     Some (DataTuple
                             (Ref.Buffer_toString_base64 (repeat x05 50))
                             "base64") |}
                (worldWithAccount (repeat x05 50))
                (worldWithAccount (repeat x05 50))) as [_ E].
    + vm_compute. reflexivity.
    + vm_compute. reflexivity.
    + vm_compute. reflexivity.
    + reflexivity.
    + vm_compute. reflexivity.
    + rewrite E. vm_compute. reflexivity.
  - destruct (lookupEncryptionKey_short_account sampleAddress None
                samplePda samplePda
                {| ai_data :=
                     Some (DataTuple
                             (Ref.Buffer_toString_base64 (repeat x05 10))
                             "base64") |}
                (worldWithAccount (repeat x05 10))
                (worldWithAccount (repeat x05 10))) as [_ E].
    + vm_compute. reflexivity.
    + vm_compute. reflexivity.
    + vm_compute. reflexivity.
    + reflexivity.
    + vm_compute. reflexivity.
    + rewrite E. vm_compute. reflexivity.
Defined.

End RegistryFacts.

(* ================================================================= *)
(** ** messenger.ts: send *)

Module SendFacts.
Import Messenger.

Section Send.
Context `{Library} {W : Type} `{Random W} `{Chain W}.
Variable this : SolanaMessenger (W := W).





End Send.






End SendFacts.

(* ================================================================= *)
(** ** messenger.ts: reassembly *)

Module ReassemblyFacts.
Import Messenger.

Section Reassembly.
Context `{Library} {W : Type} `{Random W} `{Chain W}.
Variable this : SolanaMessenger (W := W).

Lemma decodedChunks_cons (e : MessageSentEvent) (events : list MessageSentEvent)
  (c : Chunk) :
  frameOf this e = Some c ->
  decodedChunks this (e :: events) = c :: decodedChunks this events.
Proof.
  intros E. unfold decodedChunks. cbn [map somes]. rewrite E. reflexivity.
Qed.

(** One step of the first loop for a chunk of the group [k]. *)
Lemma collectFrames_step (mid : list byte) (e : MessageSentEvent)
  (rest : list MessageSentEvent) (groups : JSMap.t (list Chunk))
  (sm : list Message) (d : Crypto.DecodedMessage) :
  frameOf this e = Some (d, e) ->
  Crypto.messageId d = mid ->
  Crypto.totalChunks d <> 1 ->
  collectFrames this (e :: rest) groups sm
  = let k := hexEncode mid in
    let groups :=
      if negb (JSMap.has groups k) then JSMap.set groups k [] else groups in
    let group := match JSMap.get groups k with Some g => g | None => [] end in
    collectFrames this rest (JSMap.set groups k (group ++ [(d, e)])) sm.
Proof.
  intros Hf Hm Ht. unfold frameOf in Hf. cbn [collectFrames].
  destruct (decryptToBytes this e) as [[raw|]|err]; try discriminate.
  cbn [bind].
  destruct (Crypto.decodeMessage raw) as [d'|err]; try discriminate.
  injection Hf as ->. rewrite Hm.
  replace (Crypto.totalChunks d =? 1) with false
    by (symmetry; apply Z.eqb_neq; exact Ht).
  reflexivity.
Qed.

Lemma collectFrames_group (mid : list byte) (events : list MessageSentEvent) :
  Forall (chunkOfMessage this mid) events ->
  forall (chunks : list Chunk) (sm : list Message),
    collectFrames this events [(hexEncode mid, chunks)] sm
    = Ok ([(hexEncode mid, chunks ++ decodedChunks this events)], sm).
Proof.
  induction 1 as [|e events [d [Hf [Hm Ht]]] _ IH]; intros chunks sm.
  - cbn. rewrite app_nil_r. reflexivity.
  - rewrite (collectFrames_step mid e events _ sm d Hf Hm Ht). cbv zeta.
    rewrite map_has_one. cbn [negb]. rewrite map_get_one, map_set_one.
    rewrite IH, (decodedChunks_cons e events (d, e) Hf), <- app_assoc.
    reflexivity.
Qed.

Lemma collectFrames_one_message (mid : list byte)
  (events : list MessageSentEvent) :
  Forall (chunkOfMessage this mid) events ->
  collectFrames this events JSMap.empty []
  = Ok (match events with
        | [] => []
        | _ :: _ => [(hexEncode mid, decodedChunks this events)]
        end, []).
Proof.
  intros Hall. destruct Hall as [|e events [d [Hf [Hm Ht]]] Hall].
  - reflexivity.
  - rewrite (collectFrames_step mid e events _ [] d Hf Hm Ht). cbv zeta.
    change (JSMap.has JSMap.empty (hexEncode mid)) with false. cbn [negb].
    change (JSMap.set JSMap.empty (hexEncode mid) [])
      with [(hexEncode mid, @nil Chunk)].
    rewrite map_get_one, map_set_one.
    rewrite (collectFrames_group mid events Hall).
    rewrite (decodedChunks_cons e events (d, e) Hf). reflexivity.
Qed.

(** The read path for the chunks of one message. *)
Lemma reassemble_one_message (mid : list byte)
  (events : list MessageSentEvent) :
  Forall (chunkOfMessage this mid) events ->
  reassembleMessages this events
  = Ok (groupMessage (decodedChunks this events)).
Proof.
  intros Hall. unfold reassembleMessages.
  rewrite (collectFrames_one_message mid events Hall). cbn [bind].
  destruct events as [|e events].
  - reflexivity.
  - cbn [JSMap.values map snd finalizeGroups]. unfold groupMessage.
    destruct (JSArray.sort chunkKey (decodedChunks this (e :: events)))
      as [|first sorted]; [reflexivity|].
    destruct (len (first :: sorted) =? Crypto.totalChunks (fst first));
      reflexivity.
Qed.

End Reassembly.

Section Listen.
Context `{Library} {W : Type} `{Random W} `{Chain W}.
Variable this : SolanaMessenger (W := W).

Lemma frameStep_chunk (mid : list byte) (e : MessageSentEvent) :
  chunkOfMessage this mid e -> frameStep this e = Ok (frameOf this e).
Proof.
  intros [d [Hf _]]. unfold frameStep. unfold frameOf in *.
  destruct (decryptToBytes this e) as [[raw|]|err]; try discriminate.
  cbn [bind].
  destruct (Crypto.decodeMessage raw) as [d'|err]; try discriminate.
  reflexivity.
Qed.

Lemma mapM_frames (mid : list byte) (events : list MessageSentEvent) :
  Forall (chunkOfMessage this mid) events ->
  mapM (frameStep this) events = Ok (map (frameOf this) events).
Proof.
  induction 1 as [|e events He _ IH]; [reflexivity|].
  cbn [mapM map]. rewrite (frameStep_chunk mid e He). cbn [bind].
  rewrite IH. reflexivity.
Qed.

Lemma decodedChunks_length (mid : list byte) (events : list MessageSentEvent) :
  Forall (chunkOfMessage this mid) events ->
  length (decodedChunks this events) = length events.
Proof.
  induction 1 as [|e events [d [Hf _]] _ IH]; [reflexivity|].
  rewrite (decodedChunks_cons this e events (d, e) Hf). cbn. f_equal.
  exact IH.
Qed.

Lemma assembleChunks_group (mid : list byte) (events : list MessageSentEvent) :
  Forall (chunkOfMessage this mid) events ->
  assembleChunks this events
  = Ok (match JSArray.sort chunkKey (decodedChunks this events) with
        | [] => None
        | first :: rest => Some (messageFrom first (first :: rest))
        end).
Proof.
  intros Hall. unfold assembleChunks.
  change (mapM _ events) with (mapM (frameStep this) events).
  rewrite (mapM_frames mid events Hall). cbn [bind].
  unfold decodedChunks.
  change (@somes (Crypto.DecodedMessage * MessageSentEvent)%type)
    with (@somes Chunk).
  destruct (somes (map (frameOf this) events)) as [|c cs]; [reflexivity|].
  replace (len (c :: cs) =? 0) with false.
  2:{ symmetry. apply Z.eqb_neq. rewrite len_cons.
      pose proof (len_nonneg cs). lia. }
  destruct (JSArray.sort chunkKey (c :: cs)); reflexivity.
Qed.

Lemma decryptToBytes_stamp (a : string * MessageSentEvent) :
  decryptToBytes this (stamp a) = decryptToBytes this (snd a).
Proof. reflexivity. Qed.

(** One event of the message [mid] arrives while the buffer holds the
    entry of this message. *)
Lemma listenEvent_buffered (callbackThrows : Message -> bool)
  (myAddress : string) (mid : list byte) (a : string * MessageSentEvent)
  (events : list MessageSentEvent) (total : Z) (delivered : list Message) :
  ev_recipient (snd a) = myAddress ->
  chunkOfMessage this mid (stamp a) ->
  Forall (chunkOfMessage this mid) events ->
  listenEvent this callbackThrows myAddress (fst a)
              ([(hexEncode mid,
                 {| cb_events := events; cb_totalChunks := total |})],
               delivered) (snd a)
  = let events' := events ++ [stamp a] in
    let entry := {| cb_events := events'; cb_totalChunks := total |} in
    if len events' =? total then
      match JSArray.sort chunkKey (decodedChunks this events') with
      | [] => ([], delivered)
      | first :: rest =>
          let assembled := messageFrom first (first :: rest) in
          (if callbackThrows assembled then [(hexEncode mid, entry)] else [],
           delivered ++ [assembled])
      end
    else ([(hexEncode mid, entry)], delivered).
Proof.
  intros Hr [d [Hf [Hm Ht]]] Hall. unfold listenEvent.
  rewrite Hr, String.eqb_refl. cbn [negb].
  fold (stamp a).
  unfold frameOf in Hf.
  destruct (decryptToBytes this (stamp a)) as [[raw|]|err] eqn:Ed;
    try discriminate.
  destruct (Crypto.decodeMessage raw) as [d'|err] eqn:Er; try discriminate.
  injection Hf as ->. rewrite Hm.
  replace (Crypto.totalChunks d =? 1) with false
    by (symmetry; apply Z.eqb_neq; exact Ht).
  rewrite map_has_one. cbn [negb]. rewrite map_get_one.
  cbn [cb_events cb_totalChunks]. rewrite map_set_one. cbv zeta.
  destruct (len (events ++ [stamp a]) =? total); [|reflexivity].
  rewrite (assembleChunks_group mid).
  - destruct (JSArray.sort chunkKey
                (decodedChunks this (events ++ [stamp a]))) as [|first rest].
    + rewrite map_delete_one. reflexivity.
    + destruct (callbackThrows (messageFrom first (first :: rest)));
        [reflexivity|].
      rewrite map_delete_one. reflexivity.
  - apply Forall_app. split; [exact Hall|].
    constructor; [|constructor]. exists d.
    split; [|split; assumption].
    unfold frameOf. rewrite Ed, Er. reflexivity.
Qed.

(** The first event of a message arrives: the entry is created with the
    total of this frame. *)
Lemma listenEvent_first (callbackThrows : Message -> bool)
  (myAddress : string) (mid : list byte) (a : string * MessageSentEvent)
  (d : Crypto.DecodedMessage) (delivered : list Message) :
  ev_recipient (snd a) = myAddress ->
  frameOf this (stamp a) = Some (d, stamp a) ->
  Crypto.messageId d = mid ->
  Crypto.totalChunks d <> 1 ->
  listenEvent this callbackThrows myAddress (fst a) (JSMap.empty, delivered)
              (snd a)
  = listenEvent this callbackThrows myAddress (fst a)
      ([(hexEncode mid,
         {| cb_events := []; cb_totalChunks := Crypto.totalChunks d |})],
       delivered) (snd a).
Proof.
  intros Hr Hf Hm Ht. unfold listenEvent.
  rewrite Hr, String.eqb_refl. cbn [negb]. fold (stamp a).
  unfold frameOf in Hf.
  destruct (decryptToBytes this (stamp a)) as [[raw|]|err]; try discriminate.
  destruct (Crypto.decodeMessage raw) as [d'|err]; try discriminate.
  injection Hf as ->. rewrite Hm.
  replace (Crypto.totalChunks d =? 1) with false
    by (symmetry; apply Z.eqb_neq; exact Ht).
  change (JSMap.has JSMap.empty (hexEncode mid)) with false.
  rewrite map_has_one. cbn [negb]. reflexivity.
Qed.

Lemma Forall_stamped (myAddress : string) (mid : list byte)
  (arrivals : list (string * MessageSentEvent)) :
  Forall (arrival this myAddress mid) arrivals ->
  Forall (chunkOfMessage this mid) (map stamp arrivals).
Proof.
  induction 1 as [|a l [_ Hc] _ IH]; constructor; assumption.
Qed.

(** While the count does not reach the total, arriving chunks are added to
    the entry and nothing is delivered. *)
Lemma listen_buffer_grows (callbackThrows : Message -> bool)
  (myAddress : string) (mid : list byte) (total : Z)
  (delivered : list Message) (arrivals : list (string * MessageSentEvent)) :
  Forall (arrival this myAddress mid) arrivals ->
  forall events,
    Forall (chunkOfMessage this mid) events ->
    (forall j, 1 <= j <= len arrivals -> len events + j <> total) ->
    listenEvents this callbackThrows myAddress arrivals
      ([(hexEncode mid,
         {| cb_events := events; cb_totalChunks := total |})], delivered)
    = ([(hexEncode mid,
         {| cb_events := events ++ map stamp arrivals;
            cb_totalChunks := total |})], delivered).
Proof.
  induction 1 as [|a arrivals [Hr Hc] Hall IH]; intros events Hev Hne.
  - cbn. rewrite app_nil_r. reflexivity.
  - unfold listenEvents in *. cbn [fold_left].
    rewrite (listenEvent_buffered callbackThrows myAddress mid a events
               total delivered Hr Hc Hev).
    cbv zeta.
    pose proof (len_nonneg arrivals) as Hl.
    replace (len (events ++ [stamp a]) =? total) with false.
    2:{ symmetry. apply Z.eqb_neq. rewrite len_app. change (len [stamp a]) with 1.
        apply Hne. rewrite len_cons. lia. }
    rewrite IH.
    + cbn [map]. rewrite <- app_assoc. reflexivity.
    + apply Forall_app. split; [exact Hev|]. constructor; [exact Hc|constructor].
    + intros j Hj. rewrite len_app. change (len [stamp a]) with 1.
      specialize (Hne (j + 1)). rewrite len_cons in Hne. lia.
Qed.

End Listen.

Section Grouping.
Context `{Library} {W : Type} `{Random W} `{Chain W}.
Variable this : SolanaMessenger (W := W).

Lemma listen_first_buffered (callbackThrows : Message -> bool)
  (myAddress : string) (mid : list byte) (a0 : string * MessageSentEvent)
  (d0 : Crypto.DecodedMessage) (delivered : list Message) :
  arrival this myAddress mid a0 ->
  frameOf this (stamp a0) = Some (d0, stamp a0) ->
  listenEvent this callbackThrows myAddress (fst a0) (JSMap.empty, delivered)
              (snd a0)
  = ([(hexEncode mid,
       {| cb_events := [stamp a0];
          cb_totalChunks := Crypto.totalChunks d0 |})], delivered).
Proof.
  intros [Hr Hc] Hf.
  destruct Hc as [d [Hf' [Hm Ht]]].
  assert (d = d0) by congruence. subst d.
  rewrite (listenEvent_first this callbackThrows myAddress mid a0 d0
             delivered Hr Hf Hm Ht).
  rewrite (listenEvent_buffered this callbackThrows myAddress mid a0 []
             (Crypto.totalChunks d0) delivered Hr).
  - cbv zeta. cbn [app]. change (len [stamp a0]) with 1.
    replace (1 =? Crypto.totalChunks d0) with false
      by (symmetry; apply Z.eqb_neq; congruence).
    reflexivity.
  - exists d0. auto.
  - constructor.
Qed.

Lemma listenEvents_app (callbackThrows : Message -> bool)
  (myAddress : string) (l1 l2 : list (string * MessageSentEvent))
  (st : ListenState) :
  listenEvents this callbackThrows myAddress (l1 ++ l2) st
  = listenEvents this callbackThrows myAddress l2
      (listenEvents this callbackThrows myAddress l1 st).
Proof. unfold listenEvents. apply fold_left_app. Qed.

Lemma listenEvents_one (callbackThrows : Message -> bool)
  (myAddress : string) (a : string * MessageSentEvent) (st : ListenState) :
  listenEvents this callbackThrows myAddress [a] st
  = listenEvent this callbackThrows myAddress (fst a) st (snd a).
Proof. reflexivity. Qed.

End Grouping.

(* ----------------------------------------------------------------- *)
(** *** The sample message *)

Lemma sample_chunkOfMessage (e : MessageSentEvent) (d : Crypto.DecodedMessage) :
  frameOf sampleMessenger e = Some (d, e) ->
  Crypto.messageId d = sampleMid ->
  Crypto.totalChunks d <> 1 ->
  chunkOfMessage sampleMessenger sampleMid e.
Proof. intros Hf Hm Ht. exists d. auto. Qed.

Ltac sample_chunk :=
  eapply sample_chunkOfMessage;
  [vm_compute; reflexivity | vm_compute; reflexivity | vm_compute; discriminate].

(** Frames of two different senders that share a message id are joined
    into one message on both paths, and a frame that occurs twice is
    counted twice. *)
Lemma reassembly_merges_senders_and_counts_duplicates :
  ev_sender chunk0 <> ev_sender foreignChunk1 /\
  reassembleMessages sampleMessenger [chunk0; foreignChunk1]
  = Ok [sampleMessage "Hello there" ["sig0"; "sig2"]] /\
  snd (listenEvents sampleMessenger (fun _ => false) sampleAddress
         [("sig0", chunk0); ("sig2", foreignChunk1)] (JSMap.empty, []))
  = [sampleMessage "Hello there" ["sig0"; "sig2"]] /\
  reassembleMessages sampleMessenger [chunk0; chunk0]
  = Ok [sampleMessage "Hello Hello " ["sig0"; "sig0"]].
Proof.
  split; [vm_compute; discriminate|].
  split; [reflexivity|].
  split; reflexivity.
Qed.

(* ----------------------------------------------------------------- *)
(** *** Order of the events *)

Section Permutations.
Context `{Library} {W : Type} `{Random W} `{Chain W}.
Variable this : SolanaMessenger (W := W).

Lemma somes_perm {A} (l l' : list (option A)) :
  Permutation l l' -> Permutation (somes l) (somes l').
Proof.
  induction 1 as [| x l l' _ IH | x y l | l l' l'' _ IH1 _ IH2].
  - constructor.
  - destruct x; cbn; [constructor|]; exact IH.
  - destruct x, y; cbn; try reflexivity. apply perm_swap.
  - etransitivity; eassumption.
Qed.

Lemma decodedChunks_perm (events events' : list MessageSentEvent) :
  Permutation events events' ->
  Permutation (decodedChunks this events) (decodedChunks this events').
Proof.
  intros P. unfold decodedChunks. apply somes_perm, Permutation_map, P.
Qed.

(** The order of the events does not matter when no chunk index occurs
    twice. *)
Lemma reassemble_permuted (mid : list byte)
  (events events' : list MessageSentEvent) :
  Forall (chunkOfMessage this mid) events ->
  NoDup (map chunkKey (decodedChunks this events)) ->
  Permutation events events' ->
  reassembleMessages this events' = reassembleMessages this events.
Proof.
  intros Hall Hnd P.
  assert (Hall' : Forall (chunkOfMessage this mid) events').
  { apply Forall_forall. intros e He.
    rewrite Forall_forall in Hall. apply Hall.
    apply (Permutation_in e (Permutation_sym P) He). }
  rewrite (reassemble_one_message this mid events Hall).
  rewrite (reassemble_one_message this mid events' Hall').
  unfold groupMessage.
  rewrite (sort_permutation chunkKey (decodedChunks this events)
             (decodedChunks this events') (decodedChunks_perm _ _ P) Hnd).
  reflexivity.
Qed.

End Permutations.

(** With the second frame of the sample message presented twice the
    message is not reassembled at all. *)
Lemma reassembly_drops_message_with_duplicate :
  reassembleMessages sampleMessenger [chunk0; chunk1]
  = Ok [sampleMessage "Hello world" ["sig0"; "sig1"]] /\
  reassembleMessages sampleMessenger [chunk0; chunk1; chunk1] = Ok [].
Proof. split; reflexivity. Qed.

End ReassemblyFacts.

(* ================================================================= *)
(** ** messenger.ts: read *)

Module ReadFacts.
Import Messenger.

Lemma In_firstn_list {A} (n : nat) (l : list A) (x : A) :
  In x (firstn n l) -> In x l.
Proof.
  revert l. induction n as [|n IH]; intros [|y l]; cbn; try tauto.
  intros [E|I]; [left; exact E | right; apply IH, I].
Qed.

Lemma In_skipn_list {A} (n : nat) (l : list A) (x : A) :
  In x (skipn n l) -> In x l.
Proof.
  revert l. induction n as [|n IH]; intros [|y l]; cbn; try tauto.
  intros I. right. apply IH, I.
Qed.

Lemma In_slice {A} (l : list A) (i j : Z) (x : A) :
  In x (slice l i j) -> In x l.
Proof.
  unfold slice. intros I.
  apply In_firstn_list, In_skipn_list in I. exact I.
Qed.

(** *** The [since] filter *)

Lemma sinceFilter_true (since : Z) (s : SignatureInfo) :
  0 < since ->
  sinceFilter since s = true
  <-> timedSince since s.
Proof.
  intros Hs. unfold sinceFilter, timedSince. destruct (blockTime s) as [t|].
  - rewrite andb_true_iff, negb_true_iff, Z.eqb_neq, Z.leb_le. split.
    + intros [_ Hle]. exists t. split; [reflexivity | exact Hle].
    + intros [t' [E Hle]]. injection E as <-. split; lia.
  - split; [discriminate | intros [t [E _]]; discriminate].
Qed.

Lemma filterSince_In (since : Z) (l : list SignatureInfo) (s : SignatureInfo) :
  0 < since ->
  In s (filterSince since l)
  <-> In s l /\ timedSince since s.
Proof.
  intros Hs. unfold filterSince.
  replace (0 <? since) with true by (symmetry; apply Z.ltb_lt; exact Hs).
  rewrite filter_In, (sinceFilter_true since s Hs). reflexivity.
Qed.

Lemma filterSince_null (since : Z) (l : list SignatureInfo)
  (s : SignatureInfo) :
  0 < since -> blockTime s = None -> ~ In s (filterSince since l).
Proof.
  intros Hs E I. apply (filterSince_In since l s Hs) in I.
  destruct I as [_ [t [E' _]]]. congruence.
Qed.

Section Read.
Context `{Library} {W : Type} `{Random W} `{Chain W}.
Variable this : SolanaMessenger (W := W).

(** *** The loops have fuel to spare *)

Lemma paginate_fuel (programAddr : string) (limit : Z) (n k : nat) :
  forall (all : list SignatureInfo) (before : option string) (w : W),
    limit * 10 - len all <= Z.of_nat n ->
    paginate (n + k) programAddr limit all before w
    = paginate n programAddr limit all before w.
Proof.
  induction n as [|n IH]; intros all before w Hn.
  - destruct k as [|k]; [reflexivity|]. cbn [Nat.add paginate].
    replace (len all <? limit * 10) with false
      by (symmetry; apply Z.ltb_ge; lia).
    reflexivity.
  - cbn [Nat.add paginate].
    destruct (len all <? limit * 10); [|reflexivity].
    unfold mbind.
    destruct (rpc_getSignaturesForAddress programAddr before batchSize w)
      as [[result|err] w1]; [|reflexivity].
    destruct (len result =? 0); [reflexivity|].
    destruct (len result <? batchSize) eqn:Hb; [reflexivity|].
    apply Z.ltb_ge in Hb. unfold batchSize in Hb. apply IH.
    rewrite len_app. unfold len at 2. rewrite length_map.
    fold (len result). lia.
Qed.

Lemma readBatches_fuel (myAddress : string) (limit : Z)
  (all : list SignatureInfo) (n k : nat) :
  forall (i : Z) (messages : list MessageSentEvent) (w : W),
    len all - i <= Z.of_nat n ->
    readBatches (n + k) myAddress limit all i messages w
    = readBatches n myAddress limit all i messages w.
Proof.
  induction n as [|n IH]; intros i messages w Hn.
  - destruct k as [|k]; [reflexivity|]. cbn [Nat.add readBatches].
    replace (i <? len all) with false by (symmetry; apply Z.ltb_ge; lia).
    reflexivity.
  - cbn [Nat.add readBatches].
    destruct (i <? len all); [|reflexivity].
    unfold mbind.
    destruct (readBatch myAddress limit (slice all i (i + 20)) messages w)
      as [[messages'|err] w1]; [|reflexivity].
    destruct (limit <=? len messages'); [reflexivity|].
    apply IH. lia.
Qed.

(** *** Where the signatures of the events come from *)

Lemma stamped_with (entries : list SignatureInfo) (entry : SignatureInfo)
  (e : MessageSentEvent) :
  In entry entries ->
  stampedFrom entries (with_txSignature e (signature entry)).
Proof. intros I. exists entry. split; [exact I | reflexivity]. Qed.

Lemma readBatch_stamped (entries : list SignatureInfo) (myAddress : string)
  (limit : Z) (batch : list SignatureInfo) :
  incl batch entries ->
  forall (messages : list MessageSentEvent) (w : W)
         (out : list MessageSentEvent) (w' : W),
    Forall (stampedFrom entries) messages ->
    readBatch myAddress limit batch messages w = (Ok out, w') ->
    Forall (stampedFrom entries) out.
Proof.
  induction batch as [|entry rest IH]; intros Hin messages w out w' Hm E.
  - cbn in E. injection E as <- _. exact Hm.
  - cbn [readBatch] in E. unfold mbind in E.
    assert (Hrest : incl rest entries)
      by (intros x I; apply Hin; right; exact I).
    destruct (rpc_getTransaction (signature entry) w)
      as [[[logs|]|err] w1]; [| |discriminate].
    + assert (Hm' : Forall (stampedFrom entries)
                      (messages
                       ++ map (fun e => with_txSignature e (signature entry))
                            (filter (fun e => (ev_recipient e =? myAddress)%string)
                                    (Events.parseMessageSentEvents logs)))).
      { apply Forall_app. split; [exact Hm|].
        apply Forall_forall. intros e I. apply in_map_iff in I.
        destruct I as [e0 [<- _]]. apply stamped_with, Hin. left. reflexivity. }
      destruct (limit <=? len _) in E.
      * injection E as <- _. exact Hm'.
      * exact (IH Hrest _ _ _ _ Hm' E).
    + exact (IH Hrest _ _ _ _ Hm E).
Qed.

Lemma readBatches_stamped (myAddress : string) (limit : Z)
  (all : list SignatureInfo) (fuel : nat) :
  forall (i : Z) (messages : list MessageSentEvent) (w : W)
         (out : list MessageSentEvent) (w' : W),
    Forall (stampedFrom all) messages ->
    readBatches fuel myAddress limit all i messages w = (Ok out, w') ->
    Forall (stampedFrom all) out.
Proof.
  induction fuel as [|fuel IH]; intros i messages w out w' Hm E.
  - cbn in E. injection E as <- _. exact Hm.
  - cbn [readBatches] in E. destruct (i <? len all).
    + unfold mbind in E.
      destruct (readBatch myAddress limit (slice all i (i + 20)) messages w)
        as [[messages'|err] w1] eqn:Eb; [|discriminate].
      assert (Hm' : Forall (stampedFrom all) messages').
      { apply (readBatch_stamped all myAddress limit _
                 (fun x I => In_slice all i (i + 20) x I) _ _ _ _ Hm Eb). }
      destruct (limit <=? len messages').
      * injection E as <- _. exact Hm'.
      * exact (IH _ _ _ _ _ Hm' E).
    + injection E as <- _. exact Hm.
Qed.

(** *** Where the signatures of the messages come from *)

Section Signed.
Variable P : MessageSentEvent -> Prop.

Lemma standalone_signed (d : Crypto.DecodedMessage) (e : MessageSentEvent) :
  P e -> signedBy P (standaloneMessage d e).
Proof.
  intros He sig [<-|[]]. exists e. split; [exact He | reflexivity].
Qed.

Lemma messageOfChunks_signed (first : Chunk) (chunks : list Chunk) :
  Forall (fun c => P (snd c)) chunks ->
  signedBy P (messageOfChunks first chunks).
Proof.
  intros Hc sig I. cbn in I. apply in_map_iff in I.
  destruct I as [c [<- Ic]]. exists (snd c). split; [|reflexivity].
  rewrite Forall_forall in Hc. exact (Hc c Ic).
Qed.

Lemma collectFrames_signed (events : list MessageSentEvent) :
  Forall P events ->
  forall (groups : JSMap.t (list Chunk)) (sm : list Message)
         (groups' : JSMap.t (list Chunk)) (sm' : list Message),
    Forall (Forall (fun c => P (snd c))) (JSMap.values groups) ->
    Forall (signedBy P) sm ->
    collectFrames this events groups sm = Ok (groups', sm') ->
    Forall (Forall (fun c => P (snd c))) (JSMap.values groups')
    /\ Forall (signedBy P) sm'.
Proof.
  induction 1 as [|e events He _ IH]; intros groups sm groups' sm' Hg Hs E.
  - cbn in E. injection E as <- <-. split; assumption.
  - cbn [collectFrames] in E.
    destruct (decryptToBytes this e) as [[raw|]|err]; cbn [bind] in E;
      [| exact (IH _ _ _ _ Hg Hs E) | discriminate].
    destruct (Crypto.decodeMessage raw) as [d|err];
      [| exact (IH _ _ _ _ Hg Hs E)].
    destruct (Crypto.totalChunks d =? 1).
    + apply (IH _ _ _ _ Hg) in E; [exact E|].
      apply Forall_app. split; [exact Hs|].
      constructor; [apply standalone_signed, He | constructor].
    + apply IH in E; [exact E | | exact Hs].
      set (k := hexEncode (Crypto.messageId d)) in *.
      assert (Hg1 : Forall (Forall (fun c => P (snd c)))
                      (JSMap.values
                         (if negb (JSMap.has groups k)
                          then JSMap.set groups k [] else groups))).
      { destruct (negb (JSMap.has groups k)); [|exact Hg].
        apply Forall_forall. intros g I. apply map_set_In in I.
        destruct I as [->|I]; [constructor|].
        rewrite Forall_forall in Hg. exact (Hg g I). }
      apply Forall_forall. intros g I. apply map_set_In in I.
      destruct I as [->|I].
      * apply Forall_app. split; [|constructor; [exact He | constructor]].
        destruct (JSMap.get _ k) as [g0|] eqn:Eg; [|constructor].
        apply map_get_In in Eg. rewrite Forall_forall in Hg1.
        exact (Hg1 g0 Eg).
      * rewrite Forall_forall in Hg1. exact (Hg1 g I).
Qed.

Lemma finalizeGroups_signed (groups : list (list Chunk)) :
  Forall (Forall (fun c => P (snd c))) groups ->
  forall sm : list Message,
    Forall (signedBy P) sm -> Forall (signedBy P) (finalizeGroups groups sm).
Proof.
  induction 1 as [|g groups Hg _ IH]; intros sm Hs; [exact Hs|].
  cbn [finalizeGroups].
  assert (Hsorted : Forall (fun c => P (snd c)) (JSArray.sort chunkKey g)).
  { apply Forall_forall. intros c I. apply sort_In in I.
    rewrite Forall_forall in Hg. exact (Hg c I). }
  destruct (JSArray.sort chunkKey g) as [|first tl] eqn:Es; [exact (IH sm Hs)|].
  destruct (negb _); [exact (IH sm Hs)|].
  apply IH, Forall_app. split; [exact Hs|].
  constructor; [apply messageOfChunks_signed, Hsorted | constructor].
Qed.

Lemma reassembleMessages_signed (events : list MessageSentEvent)
  (msgs : list Message) :
  Forall P events ->
  reassembleMessages this events = Ok msgs ->
  Forall (signedBy P) msgs.
Proof.
  intros He E. unfold reassembleMessages in E.
  destruct (collectFrames this events JSMap.empty []) as [[groups sm]|err]
    eqn:Ec; [|discriminate].
  cbn [bind] in E. injection E as <-.
  destruct (collectFrames_signed events He JSMap.empty [] groups sm
              (Forall_nil _) (Forall_nil _) Ec) as [Hg Hs].
  apply Forall_forall. intros m I. apply sort_In in I.
  pose proof (finalizeGroups_signed _ Hg sm Hs) as Hf.
  rewrite Forall_forall in Hf. exact (Hf m I).
Qed.

End Signed.

Lemma getAddress_world (w : W) (r : result string) (w' : W) :
  getAddress this w = (r, w') -> w' = w.
Proof.
  unfold getAddress, awaitSigner, mbind, ret, lift, raise.
  destruct (_walletAddress this) as [a|]; [destruct (JSString.truthy a)|];
    try (intros E; injection E as _ <-; reflexivity);
    destruct (signerPromise this) as [[p|err]|];
    intros E; injection E as _ <-; reflexivity.
Qed.

Lemma stamped_signature (entries : list SignatureInfo)
  (e : MessageSentEvent) :
  stampedFrom entries e ->
  exists s, In s entries /\ txSignatureOrEmpty e = signature s.
Proof.
  intros [s [I E]]. exists s. split; [exact I|].
  unfold txSignatureOrEmpty. rewrite E.
  destruct (signature s); reflexivity.
Qed.

(** [read] from the results of its stages. *)
Lemma read_stages (options : option ReadOptions) (lim snc : Z)
  (myAddress programAddr : string) (fetched : list SignatureInfo)
  (messages : list MessageSentEvent) (msgs : list Message) (w w1 w2 : W) :
  lim = match options with Some {| limit := Some l |} => l | _ => 100 end ->
  snc = match options with Some {| since := Some s |} => s | _ => 0 end ->
  getAddress this w = (Ok myAddress, w) ->
  address (programId this) = Ok programAddr ->
  paginate (S (Z.to_nat (lim * 10))) programAddr lim [] None w
  = (Ok fetched, w1) ->
  readBatches (S (length (filterSince snc fetched))) myAddress lim
              (filterSince snc fetched) 0 [] w1
  = (Ok messages, w2) ->
  reassembleMessages this (slice messages 0 lim) = Ok msgs ->
  read this options w = (Ok msgs, w2).
Proof.
  intros -> -> Ea Ep Eg Er Em. unfold read.
  unfold mbind at 1. rewrite Ea.
  unfold mbind at 1. unfold lift at 1. rewrite Ep.
  unfold mbind at 1. rewrite Eg.
  unfold mbind. rewrite Er. unfold lift. rewrite Em. reflexivity.
Qed.

(** C9.  In [read] with [since] greater than 0, the entries of the
    signature list that survive are those reported with a block time that
    is not before [since]: an entry without a block time is dropped like
    one that is too old.  Accordingly every transaction signature of a
    message that such a read returns is the signature of an entry that the
    pagination fetched together with a block time of at least [since]. *)
Theorem read_since_drops_untimed (s : Z) (l : option Z) (w w' : W)
  (msgs : list Message) :
  0 < s ->
  read this (Some {| since := Some s; limit := l |}) w = (Ok msgs, w') ->
  exists (programAddr : string) (fetched : list SignatureInfo) (w1 : W),
    paginate (S (Z.to_nat (limitOf l * 10))) programAddr (limitOf l) [] None w
    = (Ok fetched, w1)
    /\ (forall x, In x (filterSince s fetched)
                  <-> In x fetched /\ timedSince s x)
    /\ (forall x, In x fetched -> blockTime x = None ->
                  ~ In x (filterSince s fetched))
    /\ forall m sig,
         In m msgs -> In sig (msg_txSignatures m) ->
         exists x, In x fetched /\ signature x = sig /\ timedSince s x.
Proof.
  intros Hs E. unfold read in E. unfold mbind at 1 in E.
  destruct (getAddress this w) as [[myAddress|err] w0] eqn:Ea; [|discriminate].
  apply getAddress_world in Ea. subst w0.
  unfold mbind at 1 in E. unfold lift at 1 in E.
  destruct (address (programId this)) as [programAddr|err]; [|discriminate].
  change (match l with Some l0 => l0 | None => 100 end) with (limitOf l) in E.
  unfold mbind at 1 in E.
  destruct (paginate _ programAddr (limitOf l) [] None w)
    as [[fetched|err] w1] eqn:Ep; [|discriminate].
  exists programAddr, fetched, w1.
  split; [exact Ep|].
  split; [intros x; apply (filterSince_In s fetched x Hs)|].
  split; [intros x _ En; apply (filterSince_null s fetched x Hs En)|].
  unfold mbind in E.
  destruct (readBatches _ myAddress (limitOf l) (filterSince s fetched) 0 [] w1)
    as [[messages|err] w2] eqn:Er; [|discriminate].
  unfold lift in E. injection E as E _.
  apply readBatches_stamped in Er; [|constructor].
  assert (Hsl : Forall (stampedFrom (filterSince s fetched))
                       (slice messages 0 (limitOf l))).
  { apply Forall_forall. intros e I. apply In_slice in I.
    rewrite Forall_forall in Er. exact (Er e I). }
  pose proof (reassembleMessages_signed _ _ msgs Hsl E) as Hm.
  intros m sig Im Isig. rewrite Forall_forall in Hm.
  destruct (Hm m Im sig Isig) as [e [He ->]].
  destruct (stamped_signature _ e He) as [x [Ix Ex]].
  apply (filterSince_In s fetched x Hs) in Ix. destruct Ix as [Ix Ht].
  exists x. split; [exact Ix|]. split; [symmetry; exact Ex | exact Ht].
Qed.

End Read.

(** The sample node: with [since = 100] the untimed and the old
    transaction are left out. *)
Lemma sample_read_since :
  read sampleReader (Some (sinceOptions 100)) worldWithHistory
  = (Ok [sampleMessage "Hello world" ["sig0"; "sig1"]], worldWithHistory).
Proof.
  apply (read_stages sampleReader (Some (sinceOptions 100)) 100 100
           sampleAddress Instructions.DEFAULT_PROGRAM_ID sampleHistory
           [chunk1; chunk0] _ worldWithHistory worldWithHistory
           worldWithHistory).
  - reflexivity.
  - reflexivity.
  - vm_compute. reflexivity.
  - vm_compute. reflexivity.
  - vm_compute. reflexivity.
  - vm_compute. reflexivity.
  - reflexivity.
Defined.

Lemma read_since_drops_untimed_witness :
  exists (programAddr : string) (fetched : list SignatureInfo) (w1 : Ref.Sim),
    paginate (S (Z.to_nat (limitOf None * 10))) programAddr (limitOf None)
             [] None worldWithHistory
    = (Ok fetched, w1)
    /\ (forall x, In x (filterSince 100 fetched)
                  <-> In x fetched /\ timedSince 100 x)
    /\ (forall x, In x fetched -> blockTime x = None ->
                  ~ In x (filterSince 100 fetched))
    /\ forall m sig,
         In m [sampleMessage "Hello world" ["sig0"; "sig1"]] ->
         In sig (msg_txSignatures m) ->
         exists x, In x fetched /\ signature x = sig /\ timedSince 100 x.
Proof.
  apply (read_since_drops_untimed sampleReader 100 None worldWithHistory
           worldWithHistory).
  - lia.
  - exact sample_read_since.
Defined.

(** Without [since] the same node yields all three messages, the one of
    the untimed transaction among them. *)
Example sample_read_all :
  read sampleReader None worldWithHistory
  = (Ok [ {| msg_sender := sampleAddress; msg_recipient := sampleAddress;
             msg_text := "old"; msg_timestamp := 50;
             msg_messageId := sampleMid; msg_txSignatures := ["sigOld"] |};
          sampleMessage "Hello world" ["sig0"; "sig1"];
          {| msg_sender := sampleAddress; msg_recipient := sampleAddress;
             msg_text := "untimed"; msg_timestamp := 103;
             msg_messageId := sampleMid; msg_txSignatures := ["sig3"] |} ],
     worldWithHistory).
Proof.
  apply (read_stages sampleReader None 100 0
           sampleAddress Instructions.DEFAULT_PROGRAM_ID sampleHistory
           [with_txSignature (standaloneEvent "untimed" 103) "sig3";
            chunk1; chunk0;
            with_txSignature (standaloneEvent "old" 50) "sigOld"]
           _ worldWithHistory worldWithHistory worldWithHistory).
  - reflexivity.
  - reflexivity.
  - vm_compute. reflexivity.
  - vm_compute. reflexivity.
  - vm_compute. reflexivity.
  - vm_compute. reflexivity.
  - reflexivity.
Qed.
End ReadFacts.

(* ================================================================= *)
(** ** crypto.ts and utils.ts: further properties of the codecs *)

Module CodecFacts.
Import Crypto. Import CryptoFacts.

(** A buffer with at least [k] bytes after position [off]. *)
Lemma split_at {A} (l : list A) (off : Z) :
  0 <= off <= len l ->
  exists pre post, l = pre ++ post /\ len pre = off.
Proof.
  intros Ho. exists (firstn (Z.to_nat off) l), (skipn (Z.to_nat off) l).
  split; [symmetry; apply firstn_skipn|].
  unfold len in *. rewrite length_firstn. lia.
Qed.

Lemma split_two (buf : list byte) (off : Z) :
  0 <= off -> off + 2 <= len buf ->
  exists pre o1 o2 post, buf = pre ++ o1 :: o2 :: post /\ len pre = off.
Proof.
  intros Ho Hl. destruct (split_at buf off ltac:(lia)) as [pre [post [-> Hp]]].
  rewrite len_app in Hl.
  destruct post as [|o1 [|o2 post]];
    [rewrite len_nil in Hl; lia
    |rewrite len_cons, len_nil in Hl; lia|].
  exists pre, o1, o2, post. split; [reflexivity | exact Hp].
Qed.

(** Writing a 16-bit field and reading it back gives the value modulo
    2^16; the write touches the two bytes of the field and nothing else.
    A field that starts behind the end of the buffer is neither written nor
    read: the buffer stays as it is and the read gives 0. *)
Theorem writeU16BE_readU16BE (buf : list byte) (v off : Z) :
  (0 <= off /\ off + 2 <= len buf ->
   readU16BE (writeU16BE buf v off) off = v mod 65536 /\
   writeU16BE buf v off
   = firstn (Z.to_nat off) buf ++ [u8 (v / 256); u8 v]
     ++ skipn (Z.to_nat (off + 2)) buf) /\
  (len buf <= off ->
   writeU16BE buf v off = buf /\ readU16BE buf off = 0).
Proof.
  split.
  - intros [Ho Hl].
    destruct (split_two buf off Ho Hl) as [pre [o1 [o2 [post [-> Hp]]]]].
    subst off. rewrite writeU16BE_app, readU16BE_app, !Zb_u8, u16_split.
    split; [reflexivity|].
    rewrite firstn_len_app.
    replace (len pre + 2) with (len (pre ++ [o1; o2]))
      by (rewrite len_app; reflexivity).
    change (pre ++ o1 :: o2 :: post) with (pre ++ [o1; o2] ++ post).
    rewrite (app_assoc pre [o1; o2] post), skipn_len_app. reflexivity.
  - intros Hl. pose proof (len_nonneg buf) as Hn.
    unfold writeU16BE, readU16BE, store.
    replace (off <? len buf) with false by (symmetry; apply Z.ltb_ge; lia).
    rewrite andb_false_r.
    replace (off + 1 <? len buf) with false
      by (symmetry; apply Z.ltb_ge; lia).
    rewrite andb_false_r.
    rewrite !get_outside by lia. split; reflexivity.
Qed.

Lemma split_header (data : list byte) :
  HEADER_SIZE <= len data ->
  exists f mid a b c d p,
    data = f :: mid ++ [a; b; c; d] ++ p /\ len mid = 8.
Proof.
  unfold HEADER_SIZE. intros Hl.
  destruct data as [|f data]; [rewrite len_nil in Hl; lia|].
  rewrite len_cons in Hl.
  destruct (split_at data 8 ltac:(pose proof (len_nonneg data); lia))
    as [mid [rest [-> Hm]]].
  rewrite len_app, Hm in Hl.
  destruct rest as [|a [|b [|c [|d p]]]];
    repeat rewrite len_cons in Hl; try rewrite len_nil in Hl; try lia.
  exists f, mid, a, b, c, d, p. split; [reflexivity | exact Hm].
Qed.

Lemma u8_pair_hi (a b : byte) : u8 ((Zb a * 256 + Zb b) / 256) = a.
Proof.
  pose proof (Zb_range b) as Hb.
  replace ((Zb a * 256 + Zb b) / 256) with (Zb a)
    by (apply Z.div_unique with (r := Zb b); lia).
  apply u8_Zb.
Qed.

Lemma u8_pair_lo (a b : byte) : u8 (Zb a * 256 + Zb b) = b.
Proof.
  rewrite <- (u8_Zb b) at 2. apply u8_mod_eq.
  rewrite Z.add_comm, Z.mod_add by lia. reflexivity.
Qed.

(** [decodeMessage] accepts every input of 13 bytes or more and loses
    nothing of it: the input is the frame layout of the fields it returns.
    The message id has 8 bytes and both counters are 16-bit numbers. *)
Theorem decodeMessage_inverse (data : list byte) :
  HEADER_SIZE <= len data ->
  exists d,
    decodeMessage data = Ok d /\
    frameLayout (flags d) (messageId d) (chunkIndex d) (totalChunks d)
                (payload d) = data /\
    len (messageId d) = 8 /\
    0 <= flags d < 256 /\
    0 <= chunkIndex d < 65536 /\ 0 <= totalChunks d < 65536.
Proof.
  intros Hl.
  destruct (split_header data Hl) as [f [mid [a [b [c [d [p [-> Hm]]]]]]]].
  pose proof (Zb_range f) as Hf. pose proof (Zb_range a) as Ha.
  pose proof (Zb_range b) as Hb. pose proof (Zb_range c) as Hc.
  pose proof (Zb_range d) as Hd.
  assert (E : f :: mid ++ [a; b; c; d] ++ p
              = frameLayout (Zb f) mid (Zb a * 256 + Zb b)
                            (Zb c * 256 + Zb d) p).
  { unfold frameLayout.
    rewrite u8_Zb, !u8_pair_hi, !u8_pair_lo. reflexivity. }
  rewrite E. rewrite (decodeMessage_frameLayout _ _ _ _ _ Hm).
  eexists. split; [reflexivity|]. cbn [flags messageId chunkIndex
                                        totalChunks payload].
  rewrite !Z.mod_small by lia.
  split; [reflexivity|]. split; [exact Hm|]. lia.
Qed.

Lemma decodeMessage_inverse_witness :
  exists d,
    decodeMessage (repeat x01 13 ++ [x68; x69]) = Ok d /\
    frameLayout (flags d) (messageId d) (chunkIndex d) (totalChunks d)
                (payload d) = repeat x01 13 ++ [x68; x69] /\
    len (messageId d) = 8 /\
    0 <= flags d < 256 /\
    0 <= chunkIndex d < 65536 /\ 0 <= totalChunks d < 65536.
Proof.
  apply (decodeMessage_inverse (repeat x01 13 ++ [x68; x69])).
  vm_compute. discriminate.
Defined.

(** An input of fewer than 13 bytes is rejected. *)
Lemma decodeMessage_short (data : list byte) :
  len data < HEADER_SIZE -> exists e, decodeMessage data = Throw e.
Proof.
  intros Hl. unfold decodeMessage.
  replace (len data <? HEADER_SIZE) with true
    by (symmetry; apply Z.ltb_lt; exact Hl).
  eexists. reflexivity.
Qed.

Lemma len_firstn_le {A} (n : nat) (l : list A) :
  len (firstn n l) <= Z.of_nat n.
Proof. unfold len. rewrite length_firstn. lia. Qed.

Lemma len_chunkOf (payload : list byte) (i : Z) :
  0 <= i -> len (chunkOf payload i) <= MAX_PAYLOAD_SIZE.
Proof.
  intros Hi. unfold chunkOf, slice, MAX_PAYLOAD_SIZE.
  pose proof (len_nonneg payload) as Hp.
  etransitivity; [apply len_firstn_le|].
  unfold relIndex.
  replace (i * 661 <? 0) with false by (symmetry; apply Z.ltb_ge; lia).
  replace (Z.min (i * 661 + 661) (len payload) <? 0) with false
    by (symmetry; apply Z.ltb_ge; lia).
  lia.
Qed.

Lemma len_frameLayout (flag : Z) (mid : list byte) (ci tc : Z)
  (p : list byte) :
  len mid = 8 -> len (frameLayout flag mid ci tc p) = HEADER_SIZE + len p.
Proof.
  intros Hm. unfold frameLayout, HEADER_SIZE.
  rewrite len_cons, !len_app, Hm.
  change (len [u8 (ci / 256); u8 ci; u8 (tc / 256); u8 tc]) with 4. lia.
Qed.

Section Frames.
Context `{Library} {W : Type} `{Random W}.

(** Whatever the text, [encodeMessage] returns at least one frame, as many
    as the payload has pieces of 661 bytes, and each frame has between 13
    and 674 bytes. *)
Theorem encodeMessage_frame_sizes (text : Text) (w : W) :
  exists frames w',
    encodeMessage text w = (Ok frames, w') /\
    len frames
    = Z.max 1 (Math_ceil_div (len (TextEncoder_encode text))
                             MAX_PAYLOAD_SIZE) /\
    Forall (fun frame =>
              HEADER_SIZE <= len frame <= HEADER_SIZE + MAX_PAYLOAD_SIZE)
           frames.
Proof.
  destruct (encodeMessage_frames text w) as [mid [w' [_ [Lm E]]]].
  assert (Hm : len mid = 8) by (unfold len; rewrite Lm; reflexivity).
  set (payload := TextEncoder_encode text) in *.
  pose proof (len_nonneg payload) as Hp.
  exists (framesOf mid payload), w'. split; [exact E|].
  unfold framesOf. destruct (Z.leb_spec (len payload) MAX_PAYLOAD_SIZE) as [Hs|Hs].
  - split.
    + change (len [frameLayout FLAGS_STANDALONE mid 0 1 payload]) with 1.
      pose proof (Math_ceil_div_spec (len payload) MAX_PAYLOAD_SIZE
                    ltac:(reflexivity)) as Hc.
      unfold MAX_PAYLOAD_SIZE in *. nia.
    + constructor; [|constructor]. rewrite (len_frameLayout _ _ _ _ _ Hm). lia.
  - pose proof (Math_ceil_div_spec (len payload) MAX_PAYLOAD_SIZE
                  ltac:(reflexivity)) as Hc.
    split.
    + unfold len at 1. rewrite length_map, length_zrange.
      unfold MAX_PAYLOAD_SIZE in *. nia.
    + apply Forall_forall. intros frame I. apply in_map_iff in I.
      destruct I as [i [<- Ii]]. apply in_zrange in Ii.
      rewrite (len_frameLayout _ _ _ _ _ Hm).
      pose proof (len_chunkOf payload i ltac:(lia)) as Hk.
      pose proof (len_nonneg (chunkOf payload i)). lia.
Qed.

End Frames.

(** *** Encryption *)

Section Boxes.
Context `{Library} {W : Type} `{Random W}.

(** [encrypt] gives up before a nonce is drawn when the recipient key has
    no X25519 form. *)
Lemma encrypt_bad_recipient (message senderSecretKey recipientPublicKey
                             : list byte) (w : W) :
  ed2curve_convertPublicKey recipientPublicKey = None ->
  encrypt message senderSecretKey recipientPublicKey w
  = (Throw "Failed to convert recipient public key to x25519", w).
Proof. intros E. unfold encrypt. rewrite E. reflexivity. Qed.

(** What [encrypt] seals for a recipient, [decryptRaw] opens with the
    recipient's secret key and the sender's public key, provided the box
    of the library opens under these keys what it sealed under the
    opposite ones.  The nonce that travels with the ciphertext has 24
    bytes. *)
Theorem encrypt_decryptRaw
  (message senderSecretKey senderPublicKey recipientSecretKey
   recipientPublicKey recipientX senderX : list byte) (w : W) :
  ed2curve_convertPublicKey recipientPublicKey = Some recipientX ->
  ed2curve_convertPublicKey senderPublicKey = Some senderX ->
  (forall nonce,
      len nonce = 24 ->
      exists c,
        nacl_box message nonce recipientX
                 (ed2curve_convertSecretKey senderSecretKey) = Ok c /\
        nacl_box_open c nonce senderX
                      (ed2curve_convertSecretKey recipientSecretKey)
        = Ok (Some message)) ->
  exists p w',
    encrypt message senderSecretKey recipientPublicKey w = (Ok p, w') /\
    len (ep_nonce p) = 24 /\
    decryptRaw (ep_ciphertext p) (ep_nonce p) senderPublicKey
               recipientSecretKey = Ok (Some message).
Proof.
  intros Er Es Hbox. unfold encrypt. rewrite Er.
  destruct (nacl_randomBytes_ok 24 w) as [nonce [w' [En Ln]]].
  assert (Hn : len nonce = 24) by (unfold len; rewrite Ln; reflexivity).
  destruct (Hbox nonce Hn) as [c [Eb Eo]].
  exists {| ep_ciphertext := c; ep_nonce := nonce |}, w'.
  unfold mbind. rewrite En. unfold lift. rewrite Eb.
  split; [reflexivity|]. split; [exact Hn|].
  unfold decryptRaw. cbn [ep_ciphertext ep_nonce]. rewrite Es. exact Eo.
Qed.

End Boxes.

(** The stand-in box of the reference platform opens what it sealed. *)
Lemma Ref_box_open (message nonce pk sk pk' sk' : list byte) :
  len nonce = 24 -> len pk = 32 -> len sk = 32 ->
  len pk' = 32 -> len sk' = 32 ->
  exists c,
    Ref.box message nonce pk sk = Ok c /\
    Ref.box_open c nonce pk' sk' = Ok (Some message).
Proof.
  intros Hn Hp Hs Hp' Hs'. unfold Ref.box, Ref.box_open, Ref.badSize.
  rewrite Hn, Hp, Hs, Hp', Hs'. cbn [Z.eqb Pos.eqb negb].
  eexists. split; [reflexivity|].
  assert (L16 : length (firstn 16 nonce) = 16%nat).
  { rewrite length_firstn. unfold len in Hn. lia. }
  assert (F : firstn 16 (firstn 16 nonce ++ message) = firstn 16 nonce).
  { rewrite <- L16 at 1. rewrite firstn_app, Nat.sub_diag, firstn_all.
    cbn [firstn]. apply app_nil_r. }
  assert (S : skipn 16 (firstn 16 nonce ++ message) = message).
  { rewrite <- L16 at 1. rewrite skipn_app, Nat.sub_diag, skipn_all.
    reflexivity. }
  rewrite F, S.
  replace (len (firstn 16 nonce ++ message) <? 16) with false.
  - unfold Ref.bytes_eqb.
    destruct (list_eq_dec byte_eq_dec (firstn 16 nonce) (firstn 16 nonce))
      as [_|N]; [reflexivity | contradiction N; reflexivity].
  - symmetry. apply Z.ltb_ge. rewrite len_app. unfold len at 1.
    rewrite L16. pose proof (len_nonneg message). lia.
Qed.

Lemma encrypt_decryptRaw_witness :
  exists p w',
    encrypt (list_byte_of_string "hi") sampleKeypair (repeat x05 32)
            Ref.world0 = (Ok p, w') /\
    len (ep_nonce p) = 24 /\
    decryptRaw (ep_ciphertext p) (ep_nonce p) (repeat x04 32)
               (repeat x06 32) = Ok (Some (list_byte_of_string "hi")).
Proof.
  apply (encrypt_decryptRaw (list_byte_of_string "hi") sampleKeypair
           (repeat x04 32) (repeat x06 32) (repeat x05 32)
           (repeat x05 32) (repeat x04 32) Ref.world0).
  - reflexivity.
  - reflexivity.
  - intros nonce Hn. apply Ref_box_open; [exact Hn | reflexivity ..].
Defined.

(** *** The key of the chunk buffers *)

Lemma hexEncode_fold (bytes : list byte) (acc : string) :
  fold_left (fun hex b => (hex ++ hexByte b)%string) bytes acc
  = (acc ++ hexEncode bytes)%string.
Proof.
  unfold hexEncode. revert acc.
  induction bytes as [|b bytes IH]; intros acc; cbn [fold_left].
  - induction acc as [|a acc IHa]; cbn; [reflexivity | f_equal; exact IHa].
  - rewrite IH, (IH (EmptyString ++ hexByte b)%string).
    cbn [String.append].
    induction acc as [|a acc IHa]; cbn; [reflexivity | f_equal; exact IHa].
Qed.

Lemma hexEncode_cons (b : byte) (bytes : list byte) :
  hexEncode (b :: bytes) = (hexByte b ++ hexEncode bytes)%string.
Proof. unfold hexEncode at 1. cbn [fold_left]. apply hexEncode_fold. Qed.

Lemma hexDigit_code (d : Z) :
  0 <= d < 16 ->
  Z.of_N (N_of_ascii (hexDigit d)) = if d <? 10 then 48 + d else 87 + d.
Proof.
  intros Hd. unfold hexDigit. destruct (d <? 10) eqn:E;
    rewrite N_ascii_embedding by lia; lia.
Qed.

Lemma hexDigit_inj (d d' : Z) :
  0 <= d < 16 -> 0 <= d' < 16 -> hexDigit d = hexDigit d' -> d = d'.
Proof.
  intros Hd Hd' E.
  pose proof (hexDigit_code d Hd) as C. rewrite E in C.
  rewrite (hexDigit_code d' Hd') in C.
  destruct (Z.ltb_spec d 10), (Z.ltb_spec d' 10); lia.
Qed.

Lemma hexByte_inj (a b : byte) : hexByte a = hexByte b -> a = b.
Proof.
  unfold hexByte. intros E. injection E as E1 E2.
  pose proof (Zb_range a) as Ha. pose proof (Zb_range b) as Hb.
  apply hexDigit_inj in E1;
    [| split; [apply Z.div_pos; lia | apply Z.div_lt_upper_bound; lia] ..].
  apply hexDigit_inj in E2; [| apply Z.mod_pos_bound; lia ..].
  apply Zb_inj.
  rewrite (Z.div_mod (Zb a) 16), (Z.div_mod (Zb b) 16) by lia. lia.
Qed.

Lemma hexEncode_inj (a b : list byte) : hexEncode a = hexEncode b -> a = b.
Proof.
  revert b. induction a as [|x a IH]; intros [|y b] E.
  - reflexivity.
  - rewrite hexEncode_cons in E. discriminate.
  - rewrite hexEncode_cons in E. discriminate.
  - rewrite !hexEncode_cons in E. cbn [hexByte String.append] in E.
    injection E as E1 E2 E3.
    assert (Exy : x = y) by (apply hexByte_inj; unfold hexByte; congruence).
    subst y. f_equal. apply IH, E3.
Qed.

(** [hexEncode] writes two characters per byte and is one-to-one: two
    message ids share a key of the chunk buffers only when they are the
    same bytes. *)
Theorem hexEncode_injective (a b : list byte) :
  String.length (hexEncode a) = (2 * length a)%nat /\
  (hexEncode a = hexEncode b -> a = b).
Proof.
  split.
  - induction a as [|x a IH]; [reflexivity|].
    rewrite hexEncode_cons. cbn [hexByte String.append String.length length].
    rewrite IH. lia.
  - apply hexEncode_inj.
Qed.

End CodecFacts.

(* ================================================================= *)
(** ** events.ts: the integer readers on the whole range *)

Module ReaderFacts.
Import Events.

Lemma ToInt32_high (v : Z) : 2 ^ 31 <= v < 2 ^ 32 -> ToInt32 v = v - 2 ^ 32.
Proof.
  intros Hv. unfold ToInt32.
  replace (v + 2 ^ 31) with ((v - 2 ^ 31) + 1 * 2 ^ 32) by ring.
  rewrite Z.mod_add, Z.mod_small by lia. lia.
Qed.

Lemma ToInt32_idem (z : Z) : ToInt32 (ToInt32 z) = ToInt32 z.
Proof. apply ToInt32_small, ToInt32_range. Qed.

Lemma ToInt32_ToUint32 (z : Z) : ToInt32 (z mod 2 ^ 32) = ToInt32 z.
Proof. unfold ToInt32. rewrite Z.add_mod_idemp_l by lia. reflexivity. Qed.

(** The last [|] of the readers: the top byte lands on bits 24 to 31,
    whichever way it was shifted there. *)
Lemma bor_top (x b3 t : Z) :
  0 <= x < 2 ^ 24 -> 0 <= b3 < 256 ->
  ToInt32 t = ToInt32 (b3 * 2 ^ 24) ->
  bor x t = ToInt32 (x + b3 * 2 ^ 24).
Proof.
  intros Hx Hb Ht. unfold bor. rewrite Ht, (ToInt32_small x) by lia.
  destruct (Z.lt_ge_cases b3 128) as [Hs|Hs].
  - rewrite !ToInt32_small by lia.
    rewrite Z.lor_comm, <- Z.shiftl_mul_pow2 by lia.
    rewrite lor_shiftl_add by lia. rewrite ?Z.shiftl_mul_pow2 by lia. lia.
  - rewrite !ToInt32_high by lia.
    replace (b3 * 2 ^ 24 - 2 ^ 32) with ((b3 - 256) * 2 ^ 24) by lia.
    rewrite Z.lor_comm, <- Z.shiftl_mul_pow2 by lia.
    rewrite lor_shiftl_add by lia. rewrite ?Z.shiftl_mul_pow2 by lia. lia.
Qed.

Lemma shl_24 (b3 : Z) :
  0 <= b3 < 256 -> ToInt32 (shl b3 24) = ToInt32 (b3 * 2 ^ 24).
Proof.
  intros Hb. unfold shl. rewrite ToInt32_idem.
  rewrite (ToInt32_small b3) by lia.
  change (24 mod 32) with 24. rewrite Z.shiftl_mul_pow2 by lia. reflexivity.
Qed.

Lemma ushr_shl_24 (b3 : Z) :
  0 <= b3 < 256 -> ToInt32 (ushr (shl b3 24) 0) = ToInt32 (b3 * 2 ^ 24).
Proof.
  intros Hb. unfold ushr, ToUint32. change (0 mod 32) with 0.
  rewrite Z.shiftr_0_r, ToInt32_ToUint32. apply shl_24, Hb.
Qed.

Lemma le32_signed (b0 b1 b2 b3 t : Z) :
  0 <= b0 < 256 -> 0 <= b1 < 256 -> 0 <= b2 < 256 -> 0 <= b3 < 256 ->
  ToInt32 t = ToInt32 (b3 * 2 ^ 24) ->
  bor (bor (bor b0 (shl b1 8)) (shl b2 16)) t
  = ToInt32 (b0 + b1 * 2 ^ 8 + b2 * 2 ^ 16 + b3 * 2 ^ 24).
Proof.
  intros H0 H1 H2 H3 Ht.
  rewrite !shl_small by lia.
  rewrite (bor_small b0 b1 8) by lia.
  rewrite (bor_small (b0 + b1 * 2 ^ 8) b2 16) by lia.
  apply bor_top; [lia | lia | exact Ht].
Qed.

(** The four little-endian bytes of any integer add up to its value
    modulo 2^32. *)
Lemma word_sum (m : Z) :
  m mod 256 + (m / 2 ^ 8) mod 256 * 2 ^ 8 + (m / 2 ^ 16) mod 256 * 2 ^ 16
  + (m / 2 ^ 24) mod 256 * 2 ^ 24 = m mod 2 ^ 32.
Proof.
  pose proof (Z.mod_pos_bound m (2 ^ 32) ltac:(lia)) as Hm.
  pose proof (u32le_sum (m mod 2 ^ 32) Hm) as E.
  rewrite (mod_div_mod_256 m (2 ^ 8) (2 ^ 16)) in E by lia.
  rewrite (mod_div_mod_256 m (2 ^ 16) (2 ^ 8)) in E by lia.
  rewrite (mod_div_mod_256 m (2 ^ 24) 1) in E by lia.
  pose proof (mod_div_mod_256 m 1 (2 ^ 24) ltac:(lia) ltac:(lia)) as E0.
  rewrite !Z.div_1_r in E0. rewrite E0 in E. exact E.
Qed.

(** [readU32LE] returns the field as a signed 32-bit number: a length of
    2^31 or more comes out negative. *)
Theorem readU32LE_signed (pre post : list byte) (n : Z) :
  readU32LE (pre ++ u32le n ++ post) (len pre) = ToInt32 n.
Proof.
  unfold u32le, readU32LE. cbn [app].
  rewrite get_app_skip0, !get_app_skip by lia.
  rewrite list_get_0, list_get_1, list_get_2, list_get_3. cbn [num].
  rewrite !Zb_u8.
  rewrite (le32_signed _ _ _ ((n / 2 ^ 24) mod 256));
    try (apply Z.mod_pos_bound; lia);
    [| apply shl_24, Z.mod_pos_bound; lia].
  rewrite word_sum. apply ToInt32_ToUint32.
Qed.

(** The two halves that [readI64LE] adds up. *)
Lemma readI64LE_halves (pre post : list byte) (n : Z) :
  - 2 ^ 63 <= n < 2 ^ 63 ->
  readI64LE (pre ++ i64le n ++ post) (len pre)
  = number_add (ToInt32 (n mod 2 ^ 32))
               (number_mul (n / 2 ^ 32) 4294967296).
Proof.
  intros Hn. unfold i64le, readI64LE. cbn [app].
  rewrite get_app_skip0, !get_app_skip by lia.
  rewrite list_get_0, list_get_1, list_get_2, list_get_3.
  rewrite list_get_4, list_get_5, list_get_6, list_get_7. cbn [num].
  rewrite !Zb_u8.
  rewrite (le32_signed _ _ _ ((n / 2 ^ 24) mod 256));
    try (apply Z.mod_pos_bound; lia);
    [| apply ushr_shl_24, Z.mod_pos_bound; lia].
  rewrite (le32_signed _ _ _ ((n / 2 ^ 56) mod 256));
    try (apply Z.mod_pos_bound; lia);
    [| apply ushr_shl_24, Z.mod_pos_bound; lia].
  rewrite word_sum.
  replace (n / 2 ^ 40) with (n / 2 ^ 32 / 2 ^ 8)
    by (rewrite Z.div_div by lia; reflexivity).
  replace (n / 2 ^ 48) with (n / 2 ^ 32 / 2 ^ 16)
    by (rewrite Z.div_div by lia; reflexivity).
  replace (n / 2 ^ 56) with (n / 2 ^ 32 / 2 ^ 24)
    by (rewrite Z.div_div by lia; reflexivity).
  rewrite word_sum, (ToInt32_ToUint32 (n / 2 ^ 32)).
  assert (Hh : - 2 ^ 31 <= n / 2 ^ 32 < 2 ^ 31).
  { split; [apply Z.div_le_lower_bound; lia
           | apply Z.div_lt_upper_bound; lia]. }
  rewrite (ToInt32_small (n / 2 ^ 32)) by exact Hh.
  reflexivity.
Qed.

(** [readI64LE] on the eight little-endian bytes of a 64-bit integer [n].
    Because the low half is joined with [|], the exact sum of the halves is
    [n] when bit 31 of [n] is clear and [n - 2^32] when it is set; what is
    returned is the double nearest to that sum, which is the sum itself
    up to 2^53 in magnitude. *)
Theorem readI64LE_i64le_any (pre post : list byte) (n : Z) :
  - 2 ^ 63 <= n < 2 ^ 63 ->
  let m := if n mod 2 ^ 32 <? 2 ^ 31 then n else n - 2 ^ 32 in
  readI64LE (pre ++ i64le n ++ post) (len pre) = roundToDouble m /\
  (Z.abs m <= 2 ^ 53 ->
   readI64LE (pre ++ i64le n ++ post) (len pre) = m).
Proof.
  intros Hn m.
  assert (E : readI64LE (pre ++ i64le n ++ post) (len pre) = roundToDouble m).
  { rewrite (readI64LE_halves pre post n Hn).
    unfold number_add, number_mul. change 4294967296 with (2 ^ 32).
    assert (Hh : - 2 ^ 31 <= n / 2 ^ 32 < 2 ^ 31).
    { split; [apply Z.div_le_lower_bound; lia
             | apply Z.div_lt_upper_bound; lia]. }
    rewrite roundToDouble_high by lia. f_equal. subst m.
    pose proof (Z.mod_pos_bound n (2 ^ 32) ltac:(lia)) as Hm.
    pose proof (Z.div_mod n (2 ^ 32) ltac:(lia)) as Hd.
    destruct (Z.ltb_spec (n mod 2 ^ 32) (2 ^ 31)) as [Hl|Hl].
    - rewrite ToInt32_small by lia. lia.
    - rewrite ToInt32_high by lia. lia. }
  split; [exact E|].
  intros Hm. rewrite E. apply roundToDouble_exact, Hm.
Qed.

(** A timestamp in milliseconds, which is exact, and 2^53 + 1, which is
    not. *)
Lemma readI64LE_i64le_any_witness :
  readI64LE ([] ++ i64le 1700000000000 ++ []) (len (@nil byte))
  = 1700000000000 - 2 ^ 32 /\
  readI64LE ([] ++ i64le (2 ^ 53 + 1) ++ []) (len (@nil byte)) = 2 ^ 53.
Proof.
  split.
  - apply (proj2 (readI64LE_i64le_any [] [] 1700000000000 ltac:(lia))).
    vm_compute. discriminate.
  - apply (proj1 (readI64LE_i64le_any [] [] (2 ^ 53 + 1) ltac:(lia))).
Defined.

(** [bytesEqual] returns [true] exactly for equal arrays. *)
Theorem bytesEqual_decides (a b : list byte) :
  bytesEqual a b = true <-> a = b.
Proof. apply EventFacts.bytesEqual_true. Qed.

End ReaderFacts.

(* ================================================================= *)
(** ** instructions.ts: sizes, and the configuration instructions *)

Module ConfigFacts.
Import Instructions. Import InstructionFacts.

Lemma len_store (buf : list byte) (i v : Z) : len (store buf i v) = len buf.
Proof.
  unfold store. destruct ((0 <=? i) && (i <? len buf)) eqn:E; [|reflexivity].
  apply andb_true_iff in E. destruct E as [E1 E2].
  apply Z.leb_le in E1. apply Z.ltb_lt in E2.
  unfold len in *. rewrite length_app, length_firstn. cbn [length].
  rewrite length_skipn. lia.
Qed.

Lemma len_set (buf src out : list byte) (offset : Z) :
  set buf src offset = Ok out -> len out = len buf.
Proof.
  unfold set.
  destruct ((offset <? 0) || (len buf <? offset + len src)) eqn:E;
    [discriminate|].
  apply orb_false_iff in E. destruct E as [E1 E2].
  apply Z.ltb_ge in E1. apply Z.ltb_ge in E2.
  intros Eo. injection Eo as <-.
  unfold len in *. rewrite !length_app, length_firstn, length_skipn. lia.
Qed.

Lemma set_fits (buf src : list byte) (offset : Z) :
  0 <= offset -> offset + len src <= len buf ->
  exists out, set buf src offset = Ok out.
Proof.
  intros Ho Hl. unfold set.
  replace (offset <? 0) with false by (symmetry; apply Z.ltb_ge; lia).
  replace (len buf <? offset + len src) with false
    by (symmetry; apply Z.ltb_ge; lia).
  eexists. reflexivity.
Qed.

Lemma setUint32LE_fits (buf : list byte) (offset v : Z) :
  0 <= offset -> offset + 4 <= len buf ->
  exists out, setUint32LE buf offset v = Ok out /\ len out = len buf.
Proof.
  intros Ho Hl. unfold setUint32LE.
  replace (offset <? 0) with false by (symmetry; apply Z.ltb_ge; lia).
  replace (len buf <? offset + 4) with false
    by (symmetry; apply Z.ltb_ge; lia).
  eexists. split; [reflexivity|]. rewrite !len_store. reflexivity.
Qed.

(** [serializeSendMessageData] checks no size: it returns a buffer of
    68 bytes plus the ciphertext whenever the recipient key fits behind the
    discriminator and the nonce has at most 24 bytes, and throws a
    [RangeError] otherwise. *)
Theorem serializeSendMessageData_sizes
  (recipientPubkey ciphertext nonce : list byte) :
  (len recipientPubkey <= 60 + len ciphertext /\ len nonce <= 24 ->
   exists buf,
     serializeSendMessageData recipientPubkey ciphertext nonce = Ok buf /\
     len buf = 68 + len ciphertext) /\
  (60 + len ciphertext < len recipientPubkey \/ 24 < len nonce ->
   exists e,
     serializeSendMessageData recipientPubkey ciphertext nonce = Throw e).
Proof.
  pose proof (len_nonneg ciphertext) as Hc.
  pose proof (len_nonneg recipientPubkey) as Hr.
  pose proof (len_nonneg nonce) as Hn.
  unfold serializeSendMessageData. cbv zeta.
  set (buf0 := Uint8Array (8 + 32 + 4 + len ciphertext + 24)).
  assert (L0 : len buf0 = 68 + len ciphertext)
    by (unfold buf0; rewrite len_Uint8Array by lia; lia).
  destruct (set_fits buf0 SEND_MESSAGE_DISC 0 ltac:(lia)
              ltac:(change (len SEND_MESSAGE_DISC) with 8; lia))
    as [buf1 E1].
  pose proof (len_set _ _ _ _ E1) as L1. rewrite E1. cbn [bind].
  split.
  - intros [Hrl Hnl].
    destruct (set_fits buf1 recipientPubkey (0 + 8) ltac:(lia) ltac:(lia))
      as [buf2 E2].
    pose proof (len_set _ _ _ _ E2) as L2. rewrite E2. cbn [bind].
    destruct (setUint32LE_fits buf2 (0 + 8 + 32) (len ciphertext)
                ltac:(lia) ltac:(lia)) as [buf3 [E3 L3]].
    rewrite E3. cbn [bind].
    destruct (set_fits buf3 ciphertext (0 + 8 + 32 + 4) ltac:(lia)
                ltac:(lia)) as [buf4 E4].
    pose proof (len_set _ _ _ _ E4) as L4. rewrite E4. cbn [bind].
    destruct (set_fits buf4 nonce (0 + 8 + 32 + 4 + len ciphertext)
                ltac:(lia) ltac:(lia)) as [buf5 E5].
    pose proof (len_set _ _ _ _ E5) as L5. rewrite E5. cbn [bind].
    exists buf5. split; [reflexivity | lia].
  - intros Hbad.
    destruct (Z.le_gt_cases (len recipientPubkey) (60 + len ciphertext))
      as [Hrl|Hrl].
    + destruct Hbad as [Hbad|Hnl]; [lia|].
      destruct (set_fits buf1 recipientPubkey (0 + 8) ltac:(lia) ltac:(lia))
        as [buf2 E2].
      pose proof (len_set _ _ _ _ E2) as L2. rewrite E2. cbn [bind].
      destruct (setUint32LE_fits buf2 (0 + 8 + 32) (len ciphertext)
                  ltac:(lia) ltac:(lia)) as [buf3 [E3 L3]].
      rewrite E3. cbn [bind].
      destruct (set_fits buf3 ciphertext (0 + 8 + 32 + 4) ltac:(lia)
                  ltac:(lia)) as [buf4 E4].
      pose proof (len_set _ _ _ _ E4) as L4. rewrite E4. cbn [bind].
      destruct (set_throws buf4 nonce (0 + 8 + 32 + 4 + len ciphertext)
                  ltac:(lia)) as [e E5].
      rewrite E5. exists e. reflexivity.
    + destruct (set_throws buf1 recipientPubkey (0 + 8) ltac:(lia))
        as [e E2].
      rewrite E2. exists e. reflexivity.
Qed.

(** *** 64-bit fields *)

Lemma mod_div_mod_byte (n d c : Z) :
  0 < d -> 0 < c ->
  ((n mod (d * 256 * c)) / d) mod 256 = (n / d) mod 256.
Proof.
  intros Hd Hc.
  rewrite (Z.mod_eq n (d * 256 * c)) by lia.
  replace (n - d * 256 * c * (n / (d * 256 * c)))
    with (n + (- (n / (d * 256 * c)) * 256 * c) * d) by ring.
  rewrite Z.div_add by lia.
  replace (n / d + - (n / (d * 256 * c)) * 256 * c)
    with (n / d + (- (n / (d * 256 * c)) * c) * 256) by ring.
  apply Z.mod_add. lia.
Qed.

Lemma u8_shiftr_mod64 (v k : Z) :
  0 <= k < 8 ->
  u8 (Z.shiftr (v mod 2 ^ 64) (8 * k)) = u8 (v / 2 ^ (8 * k)).
Proof.
  intros Hk. rewrite Z.shiftr_div_pow2 by lia. apply u8_mod_eq.
  replace (2 ^ 64) with (2 ^ (8 * k) * 256 * 2 ^ (56 - 8 * k)).
  - apply mod_div_mod_byte; apply Z.pow_pos_nonneg; lia.
  - change 256 with (2 ^ 8). rewrite <- !Z.pow_add_r by lia.
    f_equal. lia.
Qed.

Lemma u64_bytes (v : Z) :
  map (fun k => u8 (Z.shiftr (v mod 2 ^ 64) (8 * k))) [0; 1; 2; 3; 4; 5; 6; 7]
  = i64le v.
Proof.
  cbn [map]. rewrite !u8_shiftr_mod64 by lia.
  unfold i64le. change (8 * 0) with 0. rewrite Z.pow_0_r, Z.div_1_r.
  reflexivity.
Qed.

Lemma setBigUint64LE_app (pre old post : list byte) (v : Z) :
  len old = 8 ->
  setBigUint64LE (pre ++ old ++ post) (len pre) v
  = Ok (pre ++ i64le v ++ post).
Proof.
  intros Ho. unfold setBigUint64LE.
  pose proof (len_nonneg pre). pose proof (len_nonneg post).
  rewrite !len_app, Ho.
  replace (len pre <? 0) with false by (symmetry; apply Z.ltb_ge; lia).
  replace (len pre + (8 + len post) <? len pre + 8) with false
    by (symmetry; apply Z.ltb_ge; lia).
  cbn [orb]. rewrite u64_bytes, firstn_len_app.
  replace (len pre + 8) with (len (pre ++ old)) by (rewrite len_app; lia).
  rewrite (app_assoc pre old post), skipn_len_app. reflexivity.
Qed.

Lemma setBigUint64LE_last (pre old : list byte) (off v : Z) :
  off = len pre -> len old = 8 ->
  setBigUint64LE (pre ++ old) off v = Ok (pre ++ i64le v).
Proof.
  intros -> Ho. pose proof (setBigUint64LE_app pre old [] v Ho) as E.
  rewrite !app_nil_r in E. exact E.
Qed.

Lemma i64le_mod (v : Z) : i64le (v mod 2 ^ 64) = i64le v.
Proof.
  rewrite <- !u64_bytes. rewrite Z.mod_mod by lia. reflexivity.
Qed.

Lemma set_at (pre old post src : list byte) (off : Z) :
  off = len pre -> len old = len src ->
  set (pre ++ old ++ post) src off = Ok (pre ++ src ++ post).
Proof. intros ->. apply set_app. Qed.

Lemma store_at (pre : list byte) (old : byte) (post : list byte)
  (off v : Z) :
  off = len pre -> store (pre ++ old :: post) off v = pre ++ u8 v :: post.
Proof. intros ->. apply store_app. Qed.

Lemma Uint8Array_split (a b : Z) (n : Z) :
  0 <= a -> 0 <= b -> n = a + b ->
  Uint8Array n = Uint8Array a ++ Uint8Array b.
Proof. intros Ha Hb ->. apply Uint8Array_add; assumption. Qed.

Section Config.
Context `{Library}.

Ltac use_valid :=
  repeat match goal with
         | Hv : validAddress ?s |- context [address ?s] =>
             let a := fresh "a" in
             let E := fresh "E" in
             destruct Hv as [a E]; rewrite E; cbn [bind]
         end.

Ltac split_valid Hv :=
  repeat match goal with
         | Hf : Forall _ (_ :: _) |- _ =>
             let Hh := fresh "V" in
             apply Forall_cons_iff in Hf; destruct Hf as [Hh Hf]
         end;
  clear Hv.

(** The data of [set_min_fee] are the discriminator and the fee as eight
    little-endian bytes; a fee outside of 64 bits is taken modulo 2^64. *)
Theorem buildSetMinFeeInstruction_layout (p : SetMinFeeParams) :
  Forall validAddress
    [orDefault (mf_programId p); mf_registryPda p; mf_owner p] ->
  exists ix,
    buildSetMinFeeInstruction p = Ok ix /\
    data ix = SET_MIN_FEE_DISC ++ i64le (mf_minFee p) /\
    data ix = SET_MIN_FEE_DISC ++ i64le (mf_minFee p mod 2 ^ 64) /\
    map am_role (accounts ix) = [WRITABLE; READONLY_SIGNER].
Proof.
  intros Hv. split_valid Hv.
  unfold buildSetMinFeeInstruction. cbv zeta.
  rewrite (Uint8Array_split 8 8 16) by lia.
  rewrite set_head by reflexivity. cbn [bind].
  rewrite setBigUint64LE_last by reflexivity. cbn [bind].
  use_valid. eexists. split; [reflexivity|]. cbn [data accounts map am_role].
  rewrite i64le_mod. repeat split; reflexivity.
Qed.

(** The data of [initialize_config] are the discriminator, the 32 bytes
    of the fee vault and the protocol fee as eight little-endian bytes. *)
Theorem buildInitializeConfigInstruction_layout (p : InitializeConfigParams)
  (vault : list byte) :
  addressToBytes (ic_feeVault p) = Ok vault ->
  len vault = 32 ->
  Forall validAddress
    [orDefault (ic_programId p); ic_configPda p; ic_authority p;
     SYSTEM_PROGRAM] ->
  exists ix,
    buildInitializeConfigInstruction p = Ok ix /\
    data ix = INITIALIZE_CONFIG_DISC ++ vault ++ i64le (ic_protocolFee p) /\
    map am_role (accounts ix) = [WRITABLE; WRITABLE_SIGNER; READONLY].
Proof.
  intros Ev Lv Hv. split_valid Hv.
  unfold buildInitializeConfigInstruction. cbv zeta.
  rewrite (Uint8Array_split 8 40 48) by lia.
  rewrite set_head by reflexivity. cbn [bind].
  rewrite Ev. cbn [bind].
  rewrite (Uint8Array_split 32 8 40) by lia.
  rewrite set_at by (rewrite ?len_Uint8Array by lia; try reflexivity; lia).
  cbn [bind].
  rewrite (app_assoc INITIALIZE_CONFIG_DISC vault (Uint8Array 8)).
  rewrite setBigUint64LE_last
    by (rewrite ?len_app, ?Lv; reflexivity).
  cbn [bind].
  use_valid. eexists. split; [reflexivity|]. cbn [data accounts map am_role].
  rewrite <- app_assoc. split; reflexivity.
Qed.

(** The first two stages of [update_config]: discriminator and fee
    vault. *)
Lemma updateConfig_vault {A} (k : list byte -> result A)
  (feeVault : option string) (vault : option (list byte)) :
  vaultBytes feeVault = Ok vault ->
  (forall b, vault = Some b -> len b = 32) ->
  bind (set (Uint8Array (8 + 33 + 9)) UPDATE_CONFIG_DISC 0)
       (fun data =>
          bind match feeVault with
               | Some feeVault =>
                   if JSString.truthy feeVault then
                     bind (addressToBytes feeVault)
                          (fun feeVaultBytes =>
                             set (store data 8 1) feeVaultBytes 9)
                   else Ok data
               | None => Ok data
               end k)
  = k (UPDATE_CONFIG_DISC ++ optionPubkey vault ++ Uint8Array 9).
Proof.
  intros Ev Lv.
  rewrite (Uint8Array_split 8 (33 + 9) (8 + 33 + 9)) by lia.
  rewrite set_head by reflexivity. cbn [bind].
  rewrite (Uint8Array_split 33 9 (33 + 9)) by lia.
  assert (Enone : vault = None ->
                  k (UPDATE_CONFIG_DISC ++ Uint8Array 33 ++ Uint8Array 9)
                  = k (UPDATE_CONFIG_DISC ++ optionPubkey vault
                       ++ Uint8Array 9)).
  { intros ->. reflexivity. }
  unfold vaultBytes in Ev.
  destruct feeVault as [v|]; [destruct (JSString.truthy v)|];
    try (injection Ev as Ev; cbn [bind]; apply Enone; symmetry; exact Ev).
  destruct (addressToBytes v) as [b|e]; [|discriminate].
  cbn [bind] in Ev. injection Ev as <-. cbn [bind optionPubkey].
  specialize (Lv b eq_refl).
  change (Uint8Array 33) with (x00 :: Uint8Array 32).
  rewrite <- app_comm_cons.
  rewrite store_at by reflexivity. change (u8 1) with x01.
  change (UPDATE_CONFIG_DISC ++ x01 :: Uint8Array 32 ++ Uint8Array 9)
    with (UPDATE_CONFIG_DISC ++ [x01] ++ Uint8Array 32 ++ Uint8Array 9).
  rewrite (app_assoc UPDATE_CONFIG_DISC [x01]).
  rewrite set_at by (rewrite ?len_Uint8Array by lia; try reflexivity; lia).
  cbn [bind]. rewrite <- app_assoc. reflexivity.
Qed.

(** The data of [update_config] are the discriminator and two Borsh
    options, 50 bytes in all: the fee vault, absent when the parameter is
    missing or empty, and the protocol fee, absent only when the parameter
    is missing. *)
Theorem buildUpdateConfigInstruction_layout (p : UpdateConfigParams)
  (vault : option (list byte)) :
  vaultBytes (uc_feeVault p) = Ok vault ->
  (forall b, vault = Some b -> len b = 32) ->
  Forall validAddress
    [orDefault (uc_programId p); uc_configPda p; uc_authority p] ->
  exists ix,
    buildUpdateConfigInstruction p = Ok ix /\
    data ix = UPDATE_CONFIG_DISC ++ optionPubkey vault
              ++ optionU64 (uc_protocolFee p) /\
    len (data ix) = 50 /\
    map am_role (accounts ix) = [WRITABLE; READONLY_SIGNER].
Proof.
  intros Ev Lv Hv. split_valid Hv.
  unfold buildUpdateConfigInstruction. cbv zeta.
  rewrite (updateConfig_vault _ _ vault Ev Lv).
  assert (Lp : len (optionPubkey vault) = 33).
  { destruct vault as [b|]; [|reflexivity].
    cbn [optionPubkey]. rewrite len_cons, (Lv b eq_refl). reflexivity. }
  assert (Lpre : len (UPDATE_CONFIG_DISC ++ optionPubkey vault) = 41)
    by (rewrite len_app, Lp; reflexivity).
  destruct (uc_protocolFee p) as [fee|]; cbn [bind optionU64].
  - rewrite (app_assoc UPDATE_CONFIG_DISC).
    change (Uint8Array 9) with (x00 :: Uint8Array 8).
    rewrite store_at by (symmetry; exact Lpre). change (u8 1) with x01.
    change ((UPDATE_CONFIG_DISC ++ optionPubkey vault) ++ x01 :: Uint8Array 8)
      with ((UPDATE_CONFIG_DISC ++ optionPubkey vault)
            ++ [x01] ++ Uint8Array 8).
    rewrite (app_assoc (UPDATE_CONFIG_DISC ++ optionPubkey vault) [x01]).
    rewrite setBigUint64LE_last;
      [| rewrite len_app, Lpre; reflexivity | reflexivity].
    cbn [bind]. use_valid. eexists. split; [reflexivity|].
    cbn [data accounts map am_role].
    rewrite <- !app_assoc. split; [reflexivity|]. split; [|reflexivity].
    rewrite (app_assoc UPDATE_CONFIG_DISC), len_app, Lpre. reflexivity.
  - use_valid. eexists. split; [reflexivity|].
    cbn [data accounts map am_role]. split; [reflexivity|].
    split; [|reflexivity].
    rewrite (app_assoc UPDATE_CONFIG_DISC), len_app, Lpre. reflexivity.
Qed.

End Config.

Lemma sample_valid (l : list string) :
  forallb (fun s => match Ref.address s with
                    | Ok a => String.eqb a s
                    | Throw _ => false
                    end) l = true ->
  Forall validAddress l.
Proof.
  induction l as [|s l IH]; cbn [forallb]; intros E; [constructor|].
  apply andb_true_iff in E. destruct E as [Es El].
  constructor; [|exact (IH El)].
  unfold validAddress. change address with Ref.address.
  destruct (Ref.address s) as [a|e]; [|discriminate].
  exists a. reflexivity.
Qed.

(** A fee of 2^64 + 5 is sent as 5. *)
Lemma buildSetMinFeeInstruction_layout_witness :
  let p := {| mf_owner := sampleAddress;
              mf_registryPda := DEFAULT_PROGRAM_ID;
              mf_minFee := 2 ^ 64 + 5;
              mf_programId := None |} in
  exists ix,
    buildSetMinFeeInstruction p = Ok ix /\
    data ix = SET_MIN_FEE_DISC ++ i64le (mf_minFee p) /\
    data ix = SET_MIN_FEE_DISC ++ i64le (mf_minFee p mod 2 ^ 64) /\
    map am_role (accounts ix) = [WRITABLE; READONLY_SIGNER].
Proof.
  intros p. apply (buildSetMinFeeInstruction_layout p).
  apply sample_valid. vm_compute. reflexivity.
Defined.

Lemma buildInitializeConfigInstruction_layout_witness :
  let p := {| ic_authority := sampleAddress;
              ic_configPda := DEFAULT_PROGRAM_ID;
              ic_feeVault := sampleAddress;
              ic_protocolFee := 5000;
              ic_programId := None |} in
  exists ix,
    buildInitializeConfigInstruction p = Ok ix /\
    data ix = INITIALIZE_CONFIG_DISC ++ repeat x00 32
              ++ i64le (ic_protocolFee p) /\
    map am_role (accounts ix) = [WRITABLE; WRITABLE_SIGNER; READONLY].
Proof.
  intros p. apply (buildInitializeConfigInstruction_layout p).
  - vm_compute. reflexivity.
  - reflexivity.
  - apply sample_valid. vm_compute. reflexivity.
Defined.

(** An empty fee vault and a fee of zero: the vault is absent, the fee
    is present. *)
Lemma buildUpdateConfigInstruction_layout_witness :
  let p := {| uc_authority := sampleAddress;
              uc_configPda := DEFAULT_PROGRAM_ID;
              uc_feeVault := Some "";
              uc_protocolFee := Some 0;
              uc_programId := None |} in
  exists ix,
    buildUpdateConfigInstruction p = Ok ix /\
    data ix = UPDATE_CONFIG_DISC ++ optionPubkey None
              ++ optionU64 (uc_protocolFee p) /\
    len (data ix) = 50 /\
    map am_role (accounts ix) = [WRITABLE; READONLY_SIGNER].
Proof.
  intros p. apply (buildUpdateConfigInstruction_layout p None).
  - reflexivity.
  - intros b E. discriminate E.
  - apply sample_valid. vm_compute. reflexivity.
Defined.

End ConfigFacts.

(* ================================================================= *)
(** ** messenger.ts: what [read] and [listen] return *)

Module DeliveryFacts.
Import Messenger. Import ReadFacts.

(** *** The sort of the language *)

Section Sorting.
Context {A : Type} (key : A -> Z).

Lemma insert_sorted (x : A) (l : list A) :
  StronglySorted (fun a b => key a <= key b) l ->
  StronglySorted (fun a b => key a <= key b) (JSArray.insert key x l).
Proof.
  induction 1 as [|y l Hs IH Hy]; cbn [JSArray.insert].
  - constructor; constructor.
  - destruct (Z.leb_spec (key x) (key y)) as [Hle|Hgt].
    + constructor; [constructor; assumption|].
      constructor; [exact Hle|].
      rewrite Forall_forall in Hy |- *. intros z Iz.
      specialize (Hy z Iz). cbv beta in Hy. lia.
    + constructor; [exact IH|].
      apply Forall_forall. intros z Iz.
      apply (Permutation_in z (insert_perm key x l)) in Iz.
      destruct Iz as [<-|Iz]; [lia|].
      rewrite Forall_forall in Hy. exact (Hy z Iz).
Qed.

Lemma sort_sorted (l : list A) :
  StronglySorted (fun a b => key a <= key b) (JSArray.sort key l).
Proof.
  induction l as [|x l IH]; [constructor|].
  rewrite sort_cons. apply insert_sorted, IH.
Qed.

End Sorting.

Section Delivery.
Context `{Library} {W : Type} `{Random W} `{Chain W}.
Variable this : SolanaMessenger (W := W).

(** *** The stages of [read] *)

Lemma read_inv (options : option ReadOptions) (w w' : W)
  (msgs : list Message) :
  read this options w = (Ok msgs, w') ->
  exists (myAddress programAddr : string) (fetched : list SignatureInfo)
         (w1 : W) (messages : list MessageSentEvent),
    getAddress this w = (Ok myAddress, w) /\
    paginate (S (Z.to_nat (readLimit options * 10))) programAddr
             (readLimit options) [] None w = (Ok fetched, w1) /\
    readBatches (S (length (filterSince (readSince options) fetched)))
                myAddress (readLimit options)
                (filterSince (readSince options) fetched) 0 [] w1
    = (Ok messages, w') /\
    reassembleMessages this (slice messages 0 (readLimit options))
    = Ok msgs.
Proof.
  intros E. unfold read in E. unfold mbind at 1 in E.
  destruct (getAddress this w) as [[myAddress|err] w0] eqn:Ea;
    [|discriminate].
  pose proof (getAddress_world this _ _ _ Ea) as ->.
  unfold mbind at 1 in E. unfold lift at 1 in E.
  destruct (address (programId this)) as [programAddr|err]; [|discriminate].
  assert (El : match options with
               | Some {| limit := Some l |} => l
               | _ => 100
               end = readLimit options)
    by (destruct options as [[s [l|]]|]; reflexivity).
  assert (Es : match options with
               | Some {| since := Some s |} => s
               | _ => 0
               end = readSince options)
    by (destruct options as [[[s|] l]|]; reflexivity).
  rewrite El, Es in E. clear El Es.
  unfold mbind at 1 in E.
  destruct (paginate _ programAddr (readLimit options) [] None w)
    as [[fetched|err] w1] eqn:Ep; [|discriminate].
  unfold mbind in E.
  destruct (readBatches _ myAddress (readLimit options) _ 0 [] w1)
    as [[messages|err] w2] eqn:Er; [|discriminate].
  unfold lift in E. injection E as E <-.
  exists myAddress, programAddr, fetched, w1, messages.
  repeat split; assumption.
Qed.

(** *** The events [read] keeps are addressed to the reader *)

Lemma readBatch_keeps (P : MessageSentEvent -> Prop) (myAddress : string)
  (limit : Z) (batch : list SignatureInfo) :
  (forall e sig, ev_recipient e = myAddress -> P (with_txSignature e sig)) ->
  forall (messages : list MessageSentEvent) (w : W)
         (out : list MessageSentEvent) (w' : W),
    Forall P messages ->
    readBatch myAddress limit batch messages w = (Ok out, w') ->
    Forall P out.
Proof.
  intros HP.
  induction batch as [|entry rest IH]; intros messages w out w' Hm E.
  - cbn in E. injection E as <- _. exact Hm.
  - cbn [readBatch] in E. unfold mbind in E.
    destruct (rpc_getTransaction (signature entry) w)
      as [[[logs|]|err] w1]; [| |discriminate].
    + assert (Hm' : Forall P
                      (messages
                       ++ map (fun e => with_txSignature e (signature entry))
                            (filter (fun e => (ev_recipient e =? myAddress)%string)
                                    (Events.parseMessageSentEvents logs)))).
      { apply Forall_app. split; [exact Hm|].
        apply Forall_forall. intros e I. apply in_map_iff in I.
        destruct I as [e0 [<- I0]]. apply filter_In in I0.
        destruct I0 as [_ Er]. apply String.eqb_eq in Er.
        apply HP, Er. }
      destruct (limit <=? len _) in E.
      * injection E as <- _. exact Hm'.
      * exact (IH _ _ _ _ Hm' E).
    + exact (IH _ _ _ _ Hm E).
Qed.

Lemma readBatches_keeps (P : MessageSentEvent -> Prop) (myAddress : string)
  (limit : Z) (all : list SignatureInfo) (fuel : nat) :
  (forall e sig, ev_recipient e = myAddress -> P (with_txSignature e sig)) ->
  forall (i : Z) (messages : list MessageSentEvent) (w : W)
         (out : list MessageSentEvent) (w' : W),
    Forall P messages ->
    readBatches fuel myAddress limit all i messages w = (Ok out, w') ->
    Forall P out.
Proof.
  intros HP.
  induction fuel as [|fuel IH]; intros i messages w out w' Hm E.
  - cbn in E. injection E as <- _. exact Hm.
  - cbn [readBatches] in E. destruct (i <? len all).
    + unfold mbind in E.
      destruct (readBatch myAddress limit (slice all i (i + 20)) messages w)
        as [[messages'|err] w1] eqn:Eb; [|discriminate].
      pose proof (readBatch_keeps P myAddress limit _ HP _ _ _ _ Hm Eb)
        as Hm'.
      destruct (limit <=? len messages').
      * injection E as <- _. exact Hm'.
      * exact (IH _ _ _ _ _ Hm' E).
    + injection E as <- _. exact Hm.
Qed.

(** *** What the messages are made of *)

Section Built.
Variable P : MessageSentEvent -> Prop.

Lemma collectFrames_built (events : list MessageSentEvent) :
  Forall P events ->
  forall (groups : JSMap.t (list Chunk)) (sm : list Message)
         (groups' : JSMap.t (list Chunk)) (sm' : list Message),
    Forall (Forall (fun c => P (snd c))) (JSMap.values groups) ->
    Forall (builtFrom P) sm ->
    collectFrames this events groups sm = Ok (groups', sm') ->
    Forall (Forall (fun c => P (snd c))) (JSMap.values groups')
    /\ Forall (builtFrom P) sm'.
Proof.
  induction 1 as [|e events He _ IH]; intros groups sm groups' sm' Hg Hs E.
  - cbn in E. injection E as <- <-. split; assumption.
  - cbn [collectFrames] in E.
    destruct (decryptToBytes this e) as [[raw|]|err]; cbn [bind] in E;
      [| exact (IH _ _ _ _ Hg Hs E) | discriminate].
    destruct (Crypto.decodeMessage raw) as [d|err];
      [| exact (IH _ _ _ _ Hg Hs E)].
    destruct (Crypto.totalChunks d =? 1).
    + apply (IH _ _ _ _ Hg) in E; [exact E|].
      apply Forall_app. split; [exact Hs|].
      constructor; [|constructor].
      left. exists d, e. split; [exact He | reflexivity].
    + apply IH in E; [exact E | | exact Hs].
      set (k := hexEncode (Crypto.messageId d)) in *.
      assert (Hg1 : Forall (Forall (fun c => P (snd c)))
                      (JSMap.values
                         (if negb (JSMap.has groups k)
                          then JSMap.set groups k [] else groups))).
      { destruct (negb (JSMap.has groups k)); [|exact Hg].
        apply Forall_forall. intros g I. apply map_set_In in I.
        destruct I as [->|I]; [constructor|].
        rewrite Forall_forall in Hg. exact (Hg g I). }
      apply Forall_forall. intros g I. apply map_set_In in I.
      destruct I as [->|I].
      * apply Forall_app. split; [|constructor; [exact He | constructor]].
        destruct (JSMap.get _ k) as [g0|] eqn:Eg; [|constructor].
        apply map_get_In in Eg. rewrite Forall_forall in Hg1.
        exact (Hg1 g0 Eg).
      * rewrite Forall_forall in Hg1. exact (Hg1 g I).
Qed.

Lemma finalizeGroups_built (groups : list (list Chunk)) :
  Forall (Forall (fun c => P (snd c))) groups ->
  forall sm : list Message,
    Forall (builtFrom P) sm -> Forall (builtFrom P) (finalizeGroups groups sm).
Proof.
  induction 1 as [|g groups Hg _ IH]; intros sm Hs; [exact Hs|].
  cbn [finalizeGroups].
  assert (Hsorted : Forall (fun c => P (snd c)) (JSArray.sort chunkKey g)).
  { apply Forall_forall. intros c I. apply sort_In in I.
    rewrite Forall_forall in Hg. exact (Hg c I). }
  destruct (JSArray.sort chunkKey g) as [|first tl] eqn:Es; [exact (IH sm Hs)|].
  destruct (negb _); [exact (IH sm Hs)|].
  apply IH, Forall_app. split; [exact Hs|].
  constructor; [|constructor].
  right. exists first, (first :: tl).
  split; [left; reflexivity|]. split; [exact Hsorted | reflexivity].
Qed.

Lemma reassembleMessages_built (events : list MessageSentEvent)
  (msgs : list Message) :
  Forall P events ->
  reassembleMessages this events = Ok msgs ->
  Forall (builtFrom P) msgs.
Proof.
  intros He E. unfold reassembleMessages in E.
  destruct (collectFrames this events JSMap.empty []) as [[groups sm]|err]
    eqn:Ec; [|discriminate].
  cbn [bind] in E. injection E as <-.
  destruct (collectFrames_built events He JSMap.empty [] groups sm
              (Forall_nil _) (Forall_nil _) Ec) as [Hg Hs].
  apply Forall_forall. intros m I. apply sort_In in I.
  pose proof (finalizeGroups_built _ Hg sm Hs) as Hf.
  rewrite Forall_forall in Hf. exact (Hf m I).
Qed.

End Built.

Lemma built_recipient (myAddress : string) (m : Message) :
  builtFrom (fun e => ev_recipient e = myAddress) m ->
  msg_recipient m = myAddress.
Proof.
  intros [[d [e [He ->]]] | [first [chunks [I [Hc ->]]]]]; [exact He|].
  cbn. rewrite Forall_forall in Hc. exact (Hc first I).
Qed.

(** [read] returns its messages ordered by timestamp. *)
Theorem read_sorted (options : option ReadOptions) (w w' : W)
  (msgs : list Message) :
  read this options w = (Ok msgs, w') ->
  StronglySorted byTimestamp msgs.
Proof.
  intros E.
  destruct (read_inv options w w' msgs E)
    as [myAddress [programAddr [fetched [w1 [messages [_ [_ [_ Em]]]]]]]].
  unfold reassembleMessages in Em.
  destruct (collectFrames this _ JSMap.empty []) as [[groups sm]|err];
    [|discriminate].
  cbn [bind] in Em. injection Em as <-.
  apply (sort_sorted msg_timestamp).
Qed.

(** Every message that [read] returns is addressed to the reader, the
    address that [getAddress] gives. *)
Theorem read_for_reader (options : option ReadOptions) (w w' : W)
  (msgs : list Message) :
  read this options w = (Ok msgs, w') ->
  exists myAddress,
    getAddress this w = (Ok myAddress, w) /\
    Forall (fun m => msg_recipient m = myAddress) msgs.
Proof.
  intros E.
  destruct (read_inv options w w' msgs E)
    as [myAddress [programAddr [fetched [w1 [messages [Ea [_ [Er Em]]]]]]]].
  exists myAddress. split; [exact Ea|].
  apply (readBatches_keeps (fun e => ev_recipient e = myAddress)) in Er;
    [| intros e sig He; exact He | constructor].
  assert (Hsl : Forall (fun e => ev_recipient e = myAddress)
                       (slice messages 0 (readLimit options))).
  { apply Forall_forall. intros e I. apply In_slice in I.
    rewrite Forall_forall in Er. exact (Er e I). }
  pose proof (reassembleMessages_built _ _ _ Hsl Em) as Hb.
  apply Forall_forall. intros m I. rewrite Forall_forall in Hb.
  apply built_recipient, Hb, I.
Qed.

(** *** Counting *)

Lemma map_get_set_same {V} (m : JSMap.t V) (k : string) (v : V) :
  JSMap.get (JSMap.set m k v) k = Some v.
Proof.
  induction m as [|[k' v'] m IH]; cbn.
  - rewrite String.eqb_refl. reflexivity.
  - destruct (String.eqb k k') eqn:E; cbn; rewrite E; [reflexivity | exact IH].
Qed.

Lemma map_set_set {V} (m : JSMap.t V) (k : string) (a b : V) :
  JSMap.set (JSMap.set m k a) k b = JSMap.set m k b.
Proof.
  induction m as [|[k' v'] m IH]; cbn.
  - rewrite String.eqb_refl. reflexivity.
  - destruct (String.eqb k k') eqn:E; cbn; rewrite E; [reflexivity|].
    f_equal. exact IH.
Qed.

Lemma held_set_none {V} (m : JSMap.t (list V)) (k : string) (v : list V) :
  JSMap.get m k = None ->
  length (List.concat (JSMap.values (JSMap.set m k v)))
  = (length (List.concat (JSMap.values m)) + length v)%nat.
Proof.
  unfold JSMap.values.
  induction m as [|[k' g] m IH]; cbn; intros E.
  - rewrite app_nil_r. reflexivity.
  - destruct (String.eqb k k'); [discriminate|]. cbn.
    rewrite !length_app, (IH E). lia.
Qed.

Lemma held_set_some {V} (m : JSMap.t (list V)) (k : string)
  (g v : list V) :
  JSMap.get m k = Some g ->
  (length (List.concat (JSMap.values (JSMap.set m k v))) + length g
   = length (List.concat (JSMap.values m)) + length v)%nat.
Proof.
  unfold JSMap.values.
  induction m as [|[k' g'] m IH]; cbn; intros E; [discriminate|].
  destruct (String.eqb k k').
  - injection E as ->. cbn. rewrite !length_app. lia.
  - cbn. rewrite !length_app. specialize (IH E). lia.
Qed.

Lemma groups_held {V} (gs : list (list V)) :
  Forall (fun g => g <> []) gs -> (length gs <= length (List.concat gs))%nat.
Proof.
  induction 1 as [|g gs Hg _ IH]; cbn; [lia|].
  rewrite length_app. destruct g; [contradiction Hg; reflexivity|].
  cbn. lia.
Qed.

Lemma collectFrames_count (events : list MessageSentEvent) :
  forall (groups : JSMap.t (list Chunk)) (sm : list Message)
         (groups' : JSMap.t (list Chunk)) (sm' : list Message) (n : nat),
    Forall (fun g => g <> []) (JSMap.values groups) ->
    (length sm + length (List.concat (JSMap.values groups)) <= n)%nat ->
    collectFrames this events groups sm = Ok (groups', sm') ->
    Forall (fun g => g <> []) (JSMap.values groups') /\
    (length sm' + length (List.concat (JSMap.values groups'))
     <= n + length events)%nat.
Proof.
  induction events as [|e events IH]; intros groups sm groups' sm' n Hg Hn E.
  - cbn in E. injection E as <- <-. split; [exact Hg | cbn; lia].
  - cbn [collectFrames] in E. cbn [length].
    replace (n + S (length events))%nat with (S n + length events)%nat by lia.
    assert (Hn' : (length sm + length (List.concat (JSMap.values groups))
                   <= S n)%nat) by lia.
    destruct (decryptToBytes this e) as [[raw|]|err]; cbn [bind] in E;
      [| exact (IH _ _ _ _ (S n) Hg Hn' E) | discriminate].
    destruct (Crypto.decodeMessage raw) as [d|err];
      [| exact (IH _ _ _ _ (S n) Hg Hn' E)].
    destruct (Crypto.totalChunks d =? 1).
    + apply (IH _ _ _ _ (S n) Hg) in E; [exact E|].
      rewrite length_app. cbn [length]. lia.
    + set (k := hexEncode (Crypto.messageId d)) in *.
      unfold JSMap.has in E.
      destruct (JSMap.get groups k) as [g|] eqn:Eg; cbn [negb] in E.
      * rewrite Eg in E. apply (IH _ _ _ _ (S n)) in E; [exact E | |].
        -- apply Forall_forall. intros x I. apply map_set_In in I.
           destruct I as [->|I]; [destruct g; discriminate|].
           rewrite Forall_forall in Hg. exact (Hg x I).
        -- pose proof (held_set_some groups k g (g ++ [(d, e)]) Eg) as Hh.
           rewrite length_app in Hh. cbn [length] in Hh. lia.
      * rewrite map_get_set_same, map_set_set in E. cbn [app] in E.
        apply (IH _ _ _ _ (S n)) in E; [exact E | |].
        -- apply Forall_forall. intros x I. apply map_set_In in I.
           destruct I as [->|I]; [discriminate|].
           rewrite Forall_forall in Hg. exact (Hg x I).
        -- rewrite (held_set_none groups k [(d, e)] Eg). cbn [length]. lia.
Qed.

Lemma finalizeGroups_count (groups : list (list Chunk)) :
  forall sm : list Message,
    (length (finalizeGroups groups sm) <= length sm + length groups)%nat.
Proof.
  induction groups as [|g groups IH]; intros sm; cbn [finalizeGroups length];
    [lia|].
  destruct (JSArray.sort chunkKey g) as [|first tl];
    [specialize (IH sm); lia|].
  destruct (negb _); [specialize (IH sm); lia|].
  specialize (IH (sm ++ [messageOfChunks first (first :: tl)])).
  rewrite length_app in IH. cbn [length] in IH. lia.
Qed.

Lemma reassembleMessages_count (events : list MessageSentEvent)
  (msgs : list Message) :
  reassembleMessages this events = Ok msgs ->
  (length msgs <= length events)%nat.
Proof.
  intros E. unfold reassembleMessages in E.
  destruct (collectFrames this events JSMap.empty []) as [[groups sm]|err]
    eqn:Ec; [|discriminate].
  cbn [bind] in E. injection E as <-.
  destruct (collectFrames_count events JSMap.empty [] groups sm 0
              (Forall_nil _) ltac:(cbn; lia) Ec) as [Hg Hn].
  rewrite sort_length.
  pose proof (finalizeGroups_count (JSMap.values groups) sm).
  pose proof (groups_held _ Hg). lia.
Qed.

Lemma len_slice_prefix {A} (l : list A) (n : Z) :
  0 <= n -> len (slice l 0 n) <= n.
Proof.
  intros Hn. unfold slice, relIndex. pose proof (len_nonneg l) as Hl.
  replace (0 <? 0) with false by reflexivity.
  replace (n <? 0) with false by (symmetry; apply Z.ltb_ge; lia).
  unfold len in *. rewrite length_firstn. lia.
Qed.

(** With a limit that is not negative, [read] returns at most that many
    messages. *)
Theorem read_at_most_limit (options : option ReadOptions) (w w' : W)
  (msgs : list Message) :
  0 <= readLimit options ->
  read this options w = (Ok msgs, w') ->
  len msgs <= readLimit options.
Proof.
  intros Hl E.
  destruct (read_inv options w w' msgs E)
    as [myAddress [programAddr [fetched [w1 [messages [_ [_ [_ Em]]]]]]]].
  apply reassembleMessages_count in Em.
  pose proof (len_slice_prefix messages (readLimit options) Hl) as Hs.
  unfold len in *. lia.
Qed.

(** *** Standalone frames *)

Lemma collectFrames_standalone (events : list MessageSentEvent) :
  Forall (fun e => exists d, frameOf this e = Some (d, e)
                             /\ Crypto.totalChunks d = 1) events ->
  forall (groups : JSMap.t (list Chunk)) (sm : list Message),
    collectFrames this events groups sm
    = Ok (groups,
          sm ++ map (fun c => standaloneMessage (fst c) (snd c))
                    (decodedChunks this events)).
Proof.
  induction 1 as [|e events [d [Hf Ht]] _ IH]; intros groups sm.
  - cbn. rewrite app_nil_r. reflexivity.
  - rewrite (ReassemblyFacts.decodedChunks_cons this e events (d, e) Hf).
    cbn [collectFrames map fst snd]. unfold frameOf in Hf.
    destruct (decryptToBytes this e) as [[raw|]|err]; try discriminate.
    cbn [bind].
    destruct (Crypto.decodeMessage raw) as [d'|err]; try discriminate.
    injection Hf as ->. rewrite Ht. cbn [Z.eqb Pos.eqb].
    rewrite IH, <- app_assoc. reflexivity.
Qed.

(** Events that all carry standalone frames are never merged or dropped,
    whatever their message ids: [reassembleMessages] returns one message
    per event, ordered by timestamp. *)
Theorem reassembleMessages_standalone (events : list MessageSentEvent) :
  Forall (fun e => exists d, frameOf this e = Some (d, e)
                             /\ Crypto.totalChunks d = 1) events ->
  exists msgs,
    reassembleMessages this events = Ok msgs /\
    Permutation msgs (map (fun c => standaloneMessage (fst c) (snd c))
                          (decodedChunks this events)) /\
    length msgs = length events /\
    StronglySorted byTimestamp msgs.
Proof.
  intros Hall. unfold reassembleMessages.
  rewrite (collectFrames_standalone events Hall). cbn [bind app].
  unfold JSMap.values, JSMap.empty. cbn [map finalizeGroups].
  eexists. split; [reflexivity|].
  split; [apply sort_perm|]. split; [|apply (sort_sorted msg_timestamp)].
  rewrite sort_length, length_map. unfold decodedChunks.
  clear -Hall. induction Hall as [|e events [d [Hf _]] _ IH]; [reflexivity|].
  cbn [map somes]. rewrite Hf. cbn [length]. f_equal. exact IH.
Qed.

(** *** What [listen] delivers *)

Lemma map_delete_In {V} (m : JSMap.t V) (k : string) (x : V) :
  In x (JSMap.values (JSMap.delete m k)) -> In x (JSMap.values m).
Proof.
  unfold JSMap.values.
  induction m as [|[k' v'] m IH]; cbn; [tauto|].
  destruct (String.eqb k k'); cbn; [tauto|].
  intros [E|I]; [left; exact E | right; exact (IH I)].
Qed.

Lemma mapM_chunks (P : MessageSentEvent -> Prop)
  (events : list MessageSentEvent) :
  Forall P events ->
  forall decoded,
    mapM (fun e =>
            bind (decryptToBytes this e)
                 (fun raw =>
                    match raw with
                    | None => Ok None
                    | Some raw =>
                        bind (Crypto.decodeMessage raw)
                             (fun d => Ok (Some (d, e)))
                    end))
         events = Ok decoded ->
    Forall (fun c : Chunk => P (snd c)) (somes decoded).
Proof.
  induction 1 as [|e events He _ IH]; intros decoded E.
  - cbn in E. injection E as <-. constructor.
  - cbn [mapM] in E.
    destruct (decryptToBytes this e) as [[raw|]|err]; cbn [bind] in E;
      [| |discriminate].
    + destruct (Crypto.decodeMessage raw) as [d|err]; cbn [bind] in E;
        [|discriminate].
      destruct (mapM _ events) as [rest|err]; cbn [bind] in E;
        [|discriminate].
      injection E as <-. cbn [somes].
      constructor; [exact He | exact (IH rest eq_refl)].
    + destruct (mapM _ events) as [rest|err]; cbn [bind] in E;
        [|discriminate].
      injection E as <-. cbn [somes]. exact (IH rest eq_refl).
Qed.

Lemma assembleChunks_built (P : MessageSentEvent -> Prop)
  (events : list MessageSentEvent) (m : Message) :
  Forall P events ->
  assembleChunks this events = Ok (Some m) ->
  builtFrom P m.
Proof.
  intros He E. unfold assembleChunks in E.
  destruct (mapM _ events) as [decoded|err] eqn:Em; cbn [bind] in E;
    [|discriminate].
  pose proof (mapM_chunks P events He decoded Em) as Hd.
  match type of E with
  | (if ?c then _ else _) = _ => destruct c; [discriminate|]
  end.
  match type of E with
  | match ?l with [] => _ | _ :: _ => _ end = _ =>
      destruct l as [|first tl] eqn:Es; [discriminate|]
  end.
  injection E as <-. right. exists first, (first :: tl).
  split; [left; reflexivity|]. split; [|reflexivity].
  rewrite <- Es. apply Forall_forall. intros c I. apply sort_In in I.
  rewrite Forall_forall in Hd. exact (Hd c I).
Qed.

(** The buffer holds events addressed to the listener only, and so are
    the messages delivered so far. *)
Lemma listenEvent_for_listener (callbackThrows : Message -> bool)
  (myAddress sig : string) (st : ListenState) (event : MessageSentEvent) :
  Forall (fun buf => Forall (fun e => ev_recipient e = myAddress)
                            (cb_events buf))
         (JSMap.values (fst st)) ->
  Forall (fun m => msg_recipient m = myAddress) (snd st) ->
  let st' := listenEvent this callbackThrows myAddress sig st event in
  Forall (fun buf => Forall (fun e => ev_recipient e = myAddress)
                            (cb_events buf))
         (JSMap.values (fst st')) /\
  Forall (fun m => msg_recipient m = myAddress) (snd st').
Proof.
  destruct st as [chunkBuffer delivered]. cbn [fst snd]. intros Hb Hd.
  cbv zeta. unfold listenEvent.
  destruct (String.eqb_spec (ev_recipient event) myAddress) as [Er|Er];
    cbn [negb]; [|split; assumption].
  destruct (decryptToBytes this (with_txSignature event sig))
    as [[rawFrame|]|err]; try (split; assumption).
  destruct (Crypto.decodeMessage rawFrame) as [decoded|err];
    [|split; assumption].
  destruct (Crypto.totalChunks decoded =? 1).
  { cbn [fst snd]. split; [exact Hb|].
    apply Forall_app. split; [exact Hd|]. constructor; [exact Er|constructor]. }
  set (k := hexEncode (Crypto.messageId decoded)).
  set (cb1 := if negb (JSMap.has chunkBuffer k)
              then JSMap.set chunkBuffer k
                     {| cb_events := [];
                        cb_totalChunks := Crypto.totalChunks decoded |}
              else chunkBuffer).
  assert (Hb1 : Forall (fun buf => Forall (fun e => ev_recipient e = myAddress)
                                         (cb_events buf))
                      (JSMap.values cb1)).
  { unfold cb1. destruct (negb (JSMap.has chunkBuffer k)); [|exact Hb].
    apply Forall_forall. intros x I. apply map_set_In in I.
    destruct I as [->|I]; [constructor|].
    rewrite Forall_forall in Hb. exact (Hb x I). }
  destruct (JSMap.get cb1 k) as [buf|] eqn:Eg; [|split; assumption].
  set (buf' := {| cb_events := cb_events buf
                               ++ [with_txSignature event sig];
                  cb_totalChunks := cb_totalChunks buf |}).
  assert (Hev : Forall (fun e => ev_recipient e = myAddress)
                       (cb_events buf')).
  { cbn [buf' cb_events]. apply Forall_app. split.
    - apply map_get_In in Eg. rewrite Forall_forall in Hb1. exact (Hb1 buf Eg).
    - constructor; [exact Er | constructor]. }
  assert (Hb2 : Forall (fun buf => Forall (fun e => ev_recipient e = myAddress)
                                         (cb_events buf))
                      (JSMap.values (JSMap.set cb1 k buf'))).
  { apply Forall_forall. intros x I. apply map_set_In in I.
    destruct I as [->|I]; [exact Hev|].
    rewrite Forall_forall in Hb1. exact (Hb1 x I). }
  assert (Hb3 : Forall (fun buf => Forall (fun e => ev_recipient e = myAddress)
                                         (cb_events buf))
                      (JSMap.values (JSMap.delete (JSMap.set cb1 k buf') k))).
  { apply Forall_forall. intros x I. apply map_delete_In in I.
    rewrite Forall_forall in Hb2. exact (Hb2 x I). }
  destruct (len (cb_events buf') =? cb_totalChunks buf');
    [|split; assumption].
  destruct (assembleChunks this (cb_events buf')) as [[assembled|]|err]
    eqn:Ea; try (split; assumption).
  assert (Hm : msg_recipient assembled = myAddress)
    by (apply built_recipient, (assembleChunks_built _ _ _ Hev Ea)).
  destruct (callbackThrows assembled); cbn [fst snd];
    (split; [assumption|]); apply Forall_app;
    (split; [exact Hd | constructor; [exact Hm | constructor]]).
Qed.

(** Whatever the notifications and whatever the callback does, after any
    number of them the chunk buffer of [listen] holds only events addressed
    to the listener, and every message handed to the callback so far is
    addressed to the listener. *)
Theorem listen_for_listener (callbackThrows : Message -> bool)
  (myAddress : string) (notifications : list LogsNotification) :
  let st := processLogs this callbackThrows myAddress notifications in
  Forall (fun buf => Forall (fun e => ev_recipient e = myAddress)
                            (cb_events buf))
         (JSMap.values (fst st)) /\
  Forall (fun m => msg_recipient m = myAddress) (snd st).
Proof.
  unfold processLogs.
  set (I := fun st : ListenState =>
              Forall (fun buf => Forall (fun e => ev_recipient e = myAddress)
                                        (cb_events buf))
                     (JSMap.values (fst st)) /\
              Forall (fun m => msg_recipient m = myAddress) (snd st)).
  assert (Hev : forall sig events st,
             I st -> I (fold_left (listenEvent this callbackThrows myAddress
                                               sig) events st)).
  { intros sig events. induction events as [|e events IH]; intros st Hst;
      [exact Hst|].
    cbn [fold_left]. apply IH. destruct Hst as [Hb Hd].
    exact (listenEvent_for_listener callbackThrows myAddress sig st e Hb Hd). }
  assert (Hall : forall st, I st ->
             I (fold_left (listenNotification this callbackThrows myAddress)
                          notifications st)).
  { induction notifications as [|n ns IH]; intros st Hst; [exact Hst|].
    cbn [fold_left]. apply IH. unfold listenNotification.
    destruct (ln_err n); [exact Hst | apply Hev, Hst]. }
  apply (Hall (JSMap.empty, [])). split; constructor.
Qed.

End Delivery.

Lemma read_sorted_witness :
  StronglySorted byTimestamp
    [ {| msg_sender := sampleAddress; msg_recipient := sampleAddress;
         msg_text := "old"; msg_timestamp := 50;
         msg_messageId := sampleMid; msg_txSignatures := ["sigOld"] |};
      sampleMessage "Hello world" ["sig0"; "sig1"];
      {| msg_sender := sampleAddress; msg_recipient := sampleAddress;
         msg_text := "untimed"; msg_timestamp := 103;
         msg_messageId := sampleMid; msg_txSignatures := ["sig3"] |} ].
Proof.
  exact (read_sorted sampleReader None worldWithHistory worldWithHistory _
           sample_read_all).
Defined.

Lemma read_for_reader_witness :
  exists myAddress,
    getAddress sampleReader worldWithHistory
    = (Ok myAddress, worldWithHistory) /\
    Forall (fun m => msg_recipient m = myAddress)
           [sampleMessage "Hello world" ["sig0"; "sig1"]].
Proof.
  exact (read_for_reader sampleReader (Some (sinceOptions 100))
           worldWithHistory worldWithHistory _ sample_read_since).
Defined.

Lemma read_at_most_limit_witness :
  len [sampleMessage "Hello world" ["sig0"; "sig1"]]
  <= readLimit (Some (sinceOptions 100)).
Proof.
  apply (read_at_most_limit sampleReader (Some (sinceOptions 100))
           worldWithHistory worldWithHistory).
  - discriminate.
  - exact sample_read_since.
Defined.

(** Two standalone events with the same message id, the later one
    first. *)
Lemma reassembleMessages_standalone_witness :
  let events := [standaloneEvent "second" 7; standaloneEvent "first" 5] in
  exists msgs,
    reassembleMessages sampleMessenger events = Ok msgs /\
    Permutation msgs (map (fun c => standaloneMessage (fst c) (snd c))
                          (decodedChunks sampleMessenger events)) /\
    length msgs = length events /\
    StronglySorted byTimestamp msgs.
Proof.
  intros events. apply (reassembleMessages_standalone sampleMessenger events).
  constructor; [|constructor; [|constructor]].
  - eexists. split; [vm_compute; reflexivity | reflexivity].
  - eexists. split; [vm_compute; reflexivity | reflexivity].
Defined.

End DeliveryFacts.

(* ================================================================= *)
(** ** messenger.ts: submitting *)

Module SubmitFacts.
Import Messenger. Import Instructions.

Section Submit.
Context `{Library} {W : Type} `{Random W} `{Chain W}.
Variable this : SolanaMessenger (W := W).

(** *** [send] without a key *)

(** A messenger that holds neither the wallet keypair nor an encryption
    keypair cannot send: [send] throws, it never returns signatures.  When
    the caller supplies the key to encrypt to and the wallet address is
    known, the error is the one that asks for [init]. *)
Theorem send_without_key (recipient : string) (message : Text)
  (encryptionPubkey : option (list byte)) (w : W) :
  keypairBytes this = None ->
  encryptionKeypair this = None ->
  (exists e w',
      send this recipient message encryptionPubkey w = (Throw e, w')) /\
  (forall k myAddress,
      encryptionPubkey = Some k ->
      getAddress this w = (Ok myAddress, w) ->
      exists w',
        send this recipient message encryptionPubkey w
        = (Throw "No encryption key available. Call init() first when using external signer mode.",
           w')).
Proof.
  intros Hk He.
  split.
  - unfold send, sendPrepare. unfold mbind at 1. unfold mbind at 1.
    destruct (getAddress this w) as [[myAddress|e] w0]; [|eauto].
    unfold mbind at 1.
    destruct (Crypto.encodeMessage message w0) as [[chunks|e] w1]; [|eauto].
    unfold mbind at 1.
    match goal with
    | |- context [match ?m w1 with _ => _ end] =>
        destruct (m w1) as [[encryptToBytes|e] w2]; [|eauto]
    end.
    rewrite Hk, He. cbn. eauto.
  - intros k myAddress -> Ea.
    destruct (CryptoFacts.encodeMessage_frames message w)
      as [mid [w1 [_ [_ Ee]]]].
    exists w1. unfold send, sendPrepare.
    unfold mbind at 1. unfold mbind at 1. rewrite Ea.
    unfold mbind at 1. rewrite Ee.
    unfold mbind at 1. unfold ret at 1.
    rewrite Hk, He. reflexivity.
Qed.

(** *** The confirmation poll *)

Lemma pollConfirmation_after (sig : string) (k : nat) (w w' : W) :
  Polled sig k w w' ->
  forall n, pollConfirmation (k + n) sig w = pollConfirmation n sig w'.
Proof.
  induction 1 as [w | k w w1 w2 w' status Es [Hc Hf] Et _ IH]; intros n;
    [reflexivity|].
  cbn [Nat.add pollConfirmation]. unfold mbind at 1. rewrite Es.
  assert (Hwait : (_ <~ setTimeout 1000 ;; pollConfirmation (k + n) sig) w1
                  = pollConfirmation n sig w').
  { unfold mbind. rewrite Et. apply IH. }
  destruct status as [st|]; [|exact Hwait].
  destruct (String.eqb_spec st "confirmed") as [->|_];
    [contradiction Hc; reflexivity|].
  destruct (String.eqb_spec st "finalized") as [->|_];
    [contradiction Hf; reflexivity|].
  exact Hwait.
Qed.

Lemma pollConfirmation_confirmed (sig st : string) (n : nat) (w w1 : W) :
  rpc_getSignatureStatuses sig w = (Ok (Some st), w1) ->
  st = "confirmed" \/ st = "finalized" ->
  pollConfirmation (S n) sig w = (Ok sig, w1).
Proof.
  intros E Hst. cbn [pollConfirmation]. unfold mbind. rewrite E.
  destruct Hst as [-> | ->]; reflexivity.
Qed.

(** In external-signer mode [sendInstruction] hands the compiled
    transaction to the signer and broadcasts what comes back.  Then it
    asks for the status up to 30 times, one second apart.  It returns the
    signature at the first query that finds the transaction confirmed or
    finalized, whichever of the 30 it is; after 30 queries that found it
    pending it throws the timeout error, although the transaction was
    broadcast. *)
Theorem sendInstruction_external (instruction : Instruction)
  (sign : ExternalSignerFn) (myAddress feePayer sig : string)
  (latestBlockhash : Blockhash) (unsignedBytes signedBytes : list byte)
  (w w1 w2 w3 : W) :
  externalSigner this = Some sign ->
  getAddress this w = (Ok myAddress, w) ->
  rpc_getLatestBlockhash w = (Ok latestBlockhash, w1) ->
  address myAddress = Ok feePayer ->
  compileAndEncodeTransaction
    {| tm_version := 0;
       tm_feePayer := Some feePayer;
       tm_lifetime := Some latestBlockhash;
       tm_instructions := [instruction] |} = Ok unsignedBytes ->
  sign unsignedBytes (blockhash latestBlockhash) myAddress w1
  = (Ok signedBytes, w2) ->
  getSignatureFromTransaction signedBytes = Ok sig ->
  rpc_sendTransaction (Buffer_toString_base64 signedBytes) w2 = (Ok tt, w3) ->
  (forall (k : nat) (st : string) (w4 w5 : W),
      Polled sig k w3 w4 ->
      (k < 30)%nat ->
      rpc_getSignatureStatuses sig w4 = (Ok (Some st), w5) ->
      st = "confirmed" \/ st = "finalized" ->
      sendInstruction this instruction w = (Ok sig, w5)) /\
  (forall w' : W,
      Polled sig 30 w3 w' ->
      sendInstruction this instruction w
      = (Throw ("Transaction " ++ sig ++ " not confirmed after 30s")%string,
         w')).
Proof.
  intros Hx Ea Eb Ef Ec Es Eg Et.
  assert (E : sendInstruction this instruction w
              = pollConfirmation 30 sig w3).
  { unfold sendInstruction. unfold mbind at 1. rewrite Ea.
    unfold mbind at 1. rewrite Eb. rewrite Hx.
    unfold mbind at 1. unfold lift at 1. rewrite Ef.
    unfold mbind at 1. unfold lift at 1. rewrite Ec.
    unfold mbind at 1. rewrite Es.
    unfold mbind at 1. unfold lift at 1. rewrite Eg.
    unfold mbind at 1. rewrite Et. reflexivity. }
  rewrite E. split.
  - intros k st w4 w5 Hp Hk Est Hst.
    replace 30%nat with (k + S (29 - k))%nat by lia.
    rewrite (pollConfirmation_after sig k w3 w4 Hp).
    apply (pollConfirmation_confirmed sig st _ _ _ Est Hst).
  - intros w' Hp.
    change 30%nat with (30 + 0)%nat.
    rewrite (pollConfirmation_after sig 30 w3 w' Hp). reflexivity.
Qed.

(** *** The registry methods *)

(** A key of more than 32 bytes does not fit the 40-byte instruction:
    [register] and [updateEncryptionKey] throw before anything is sent,
    the world is as it was. *)
Theorem registry_key_too_long (key : list byte) (w : W) :
  32 < len key ->
  (exists e, register this key w = (Throw e, w)) /\
  (exists e, updateEncryptionKey this key w = (Throw e, w)).
Proof.
  intros Hk.
  assert (Hset : forall disc,
             len disc = 8 ->
             exists e,
               bind (set (Uint8Array 40) disc 0)
                    (fun data => set data key 8) = Throw e).
  { intros disc Hd.
    destruct (ConfigFacts.set_fits (Uint8Array 40) disc 0 ltac:(lia)
                ltac:(rewrite Hd; change (len (Uint8Array 40)) with 40; lia))
      as [data E].
    rewrite E. cbn [bind].
    apply set_throws. rewrite (ConfigFacts.len_set _ _ _ _ E).
    change (len (Uint8Array 40)) with 40. lia. }
  split.
  - unfold register. unfold mbind at 1.
    destruct (getAddress this w) as [[myAddress|e] w0] eqn:Ea;
      pose proof (ReadFacts.getAddress_world this _ _ _ Ea) as ->;
      [|eauto].
    unfold mbind at 1. unfold lift at 1.
    destruct (deriveRegistryPda myAddress (Some (programId this)))
      as [pda|e]; [|eauto].
    unfold mbind at 1. unfold lift at 1.
    unfold buildRegisterInstruction. cbv zeta.
    cbn [rg_encryptionPubkey].
    destruct (Hset REGISTER_DISC eq_refl) as [e E].
    destruct (set (Uint8Array 40) REGISTER_DISC 0) as [data|e0];
      cbn [bind] in E |- *; [rewrite E|]; eexists; reflexivity.
  - unfold updateEncryptionKey. unfold mbind at 1.
    destruct (getAddress this w) as [[myAddress|e] w0] eqn:Ea;
      pose proof (ReadFacts.getAddress_world this _ _ _ Ea) as ->;
      [|eauto].
    unfold mbind at 1. unfold lift at 1.
    destruct (deriveRegistryPda myAddress (Some (programId this)))
      as [pda|e]; [|eauto].
    unfold mbind at 1. unfold lift at 1.
    unfold buildUpdateEncryptionKeyInstruction. cbv zeta.
    cbn [up_newEncryptionPubkey].
    destruct (Hset UPDATE_ENCRYPTION_KEY_DISC eq_refl) as [e E].
    destruct (set (Uint8Array 40) UPDATE_ENCRYPTION_KEY_DISC 0) as [data|e0];
      cbn [bind] in E |- *; [rewrite E|]; eexists; reflexivity.
Qed.

(** What the three registry methods submit.  The instruction of
    [register] carries the discriminator and the key and names the
    registry account, the owner and the system program; the one of
    [updateEncryptionKey] carries its discriminator and the key, the one of
    [deregister] the discriminator alone.  In each the signer of a
    self-custody messenger is attached to the owner account, the second of
    the list, and to no other. *)
Theorem registry_methods_submit (key : list byte) (w : W)
  (myAddress pda pa a0 a1 a2 : string) (attached : option KeyPairSigner) :
  getAddress this w = (Ok myAddress, w) ->
  deriveRegistryPda myAddress (Some (programId this)) = Ok pda ->
  len key = 32 ->
  address (programId this) = Ok pa ->
  address pda = Ok a0 ->
  address myAddress = Ok a1 ->
  address SYSTEM_PROGRAM = Ok a2 ->
  signerPromise this = option_map Ok attached ->
  let owner role :=
    {| am_address := a1; am_role := role; am_signer := attached |} in
  register this key w
  = sendInstruction this
      {| programAddress := pa;
         accounts := [mkAccount a0 WRITABLE; owner WRITABLE_SIGNER;
                      mkAccount a2 READONLY];
         data := REGISTER_DISC ++ key |} w /\
  updateEncryptionKey this key w
  = sendInstruction this
      {| programAddress := pa;
         accounts := [mkAccount a0 WRITABLE; owner READONLY_SIGNER];
         data := UPDATE_ENCRYPTION_KEY_DISC ++ key |} w /\
  deregister this w
  = sendInstruction this
      {| programAddress := pa;
         accounts := [mkAccount a0 WRITABLE; owner WRITABLE_SIGNER];
         data := DEREGISTER_DISC |} w.
Proof.
  intros Ea Ed Hk Ep E0 E1 E2 Hs owner.
  assert (Hatt : forall ix,
             (ix <~ match signerPromise this with
                    | Some p => signer <~ lift p ;; ret (withSigner ix 1 signer)
                    | None => ret ix
                    end ;; sendInstruction this ix) w
             = sendInstruction this
                 match attached with
                 | Some s => withSigner ix 1 s
                 | None => ix
                 end w).
  { intros ix. rewrite Hs. destruct attached as [s|]; reflexivity. }
  split; [|split].
  - unfold register. unfold mbind at 1. rewrite Ea.
    unfold mbind at 1. unfold lift at 1. rewrite Ed.
    unfold mbind at 1. unfold lift at 1.
    unfold buildRegisterInstruction. cbv zeta.
    cbn [rg_encryptionPubkey rg_programId rg_registryPda rg_owner orDefault].
    rewrite InstructionFacts.disc_pubkey_layout by (reflexivity || assumption).
    rewrite Ep. cbn [bind]. rewrite E0. cbn [bind]. rewrite E1. cbn [bind].
    rewrite E2. cbn [bind]. rewrite Hatt.
    destruct attached; reflexivity.
  - unfold updateEncryptionKey. unfold mbind at 1. rewrite Ea.
    unfold mbind at 1. unfold lift at 1. rewrite Ed.
    unfold mbind at 1. unfold lift at 1.
    unfold buildUpdateEncryptionKeyInstruction. cbv zeta.
    cbn [up_newEncryptionPubkey up_programId up_registryPda up_owner
         orDefault].
    rewrite InstructionFacts.disc_pubkey_layout by (reflexivity || assumption).
    rewrite Ep. cbn [bind]. rewrite E0. cbn [bind]. rewrite E1. cbn [bind].
    rewrite Hatt. destruct attached; reflexivity.
  - unfold deregister. unfold mbind at 1. rewrite Ea.
    unfold mbind at 1. unfold lift at 1. rewrite Ed.
    unfold mbind at 1. unfold lift at 1.
    unfold buildDeregisterInstruction. cbv zeta.
    cbn [dr_programId dr_registryPda dr_owner orDefault].
    change (set (Uint8Array 8) DEREGISTER_DISC 0) with (Ok DEREGISTER_DISC).
    cbn [bind].
    rewrite Ep. cbn [bind]. rewrite E0. cbn [bind]. rewrite E1. cbn [bind].
    rewrite Hatt. destruct attached; reflexivity.
Qed.

End Submit.

(** The uninitialised external-signer messenger. *)
Lemma send_without_key_witness :
  exists e w',
    send externalMessenger sampleAddress ("hello" : @Text Ref.library) None
         Ref.world0
    = (Throw e, w').
Proof.
  apply (send_without_key externalMessenger sampleAddress
           ("hello" : @Text Ref.library) None Ref.world0); reflexivity.
Defined.

Lemma slow_polled (sig : string) (k : nat) :
  forall w : Ref.Sim,
    Z.of_nat k <= Ref.sim_seed w ->
    @Polled Ref.Sim slowChain sig k w
            (Ref.withSeed w (Ref.sim_seed w - Z.of_nat k)).
Proof.
  induction k as [|k IH]; intros w Hk.
  - replace (Ref.withSeed w (Ref.sim_seed w - Z.of_nat 0)) with w;
      [constructor|].
    destruct w. unfold Ref.withSeed. cbn [Ref.sim_seed Ref.sim_accounts
      Ref.sim_rpcDown Ref.sim_history Ref.sim_logs Ref.sim_budget
      Ref.sim_landed Z.of_nat].
    rewrite Z.sub_0_r. reflexivity.
  - apply (@polled_more Ref.Sim slowChain sig k w w
             (Ref.withSeed w (Ref.sim_seed w - 1)) _
             (Some (if Ref.sim_seed w <=? 0 then "confirmed"
                    else "processed"))).
    + reflexivity.
    + replace (Ref.sim_seed w <=? 0) with false
        by (symmetry; apply Z.leb_gt; lia).
      split; discriminate.
    + reflexivity.
    + replace (Ref.withSeed w (Ref.sim_seed w - Z.of_nat (S k)))
        with (Ref.withSeed (Ref.withSeed w (Ref.sim_seed w - 1))
                (Ref.sim_seed (Ref.withSeed w (Ref.sim_seed w - 1))
                 - Z.of_nat k)).
      * apply IH. cbn [Ref.withSeed Ref.sim_seed]. lia.
      * destruct w. unfold Ref.withSeed. cbn [Ref.sim_seed Ref.sim_accounts
          Ref.sim_rpcDown Ref.sim_history Ref.sim_logs Ref.sim_budget
          Ref.sim_landed].
        f_equal. lia.
Qed.

(** On the slow node: a transaction that is confirmed at the third query
    comes back with its signature; one that needs more than 30 queries
    makes [sendInstruction] throw. *)
Lemma sendInstruction_external_witness :
  let ix := {| programAddress := sampleAddress; accounts := [];
               data := [x01; x02; x03] |} in
  let sig :=
    "1111111111111111111111111111111111111111111111111111111111111111" in
  (exists w',
      @sendInstruction Ref.library Ref.Sim slowChain externalMessenger ix
                       (Ref.withSeed Ref.world0 2)
      = (Ok sig, w')) /\
  (exists w',
      @sendInstruction Ref.library Ref.Sim slowChain externalMessenger ix
                       Ref.world0
      = (Throw ("Transaction " ++ sig ++ " not confirmed after 30s")%string,
         w')).
Proof.
  intros ix sig.
  assert (Hall : forall w0 : Ref.Sim,
             Ref.sim_budget w0 = 1000%nat ->
             exists w3,
               Ref.sim_seed w3 = Ref.sim_seed w0 /\
               ((forall (k : nat) (st : string) (w4 w5 : Ref.Sim),
                    @Polled Ref.Sim slowChain sig k w3 w4 ->
                    (k < 30)%nat ->
                    @rpc_getSignatureStatuses Ref.Sim slowChain sig w4
                    = (Ok (Some st), w5) ->
                    st = "confirmed" \/ st = "finalized" ->
                    @sendInstruction Ref.library Ref.Sim slowChain
                                     externalMessenger ix w0 = (Ok sig, w5)) /\
                (forall w' : Ref.Sim,
                    @Polled Ref.Sim slowChain sig 30 w3 w' ->
                    @sendInstruction Ref.library Ref.Sim slowChain
                                     externalMessenger ix w0
                    = (Throw ("Transaction " ++ sig
                              ++ " not confirmed after 30s")%string, w')))).
  { intros w0 Hb. eexists. split; cycle 1.
    - refine (@sendInstruction_external Ref.library Ref.Sim slowChain
                externalMessenger ix (fun unsignedTx _ _ => ret unsignedTx)
                sampleAddress sampleAddress sig _ _ _ w0 w0 w0 _
                eq_refl eq_refl eq_refl _ _ _ _ _).
      + vm_compute. reflexivity.
      + vm_compute. reflexivity.
      + reflexivity.
      + vm_compute. reflexivity.
      + cbn. unfold Ref.land. rewrite Hb. reflexivity.
    - reflexivity. }
  split.
  - destruct (Hall (Ref.withSeed Ref.world0 2) eq_refl) as [w3 [Hs [Hok _]]].
    eexists.
    apply (Hok 2%nat "confirmed" _ _
             (slow_polled sig 2 w3 ltac:(rewrite Hs; cbn; lia))
             ltac:(lia)).
    + cbn. rewrite Hs. reflexivity.
    + left. reflexivity.
  - destruct (Hall Ref.world0 eq_refl) as [w3 [Hs [_ Hno]]].
    eexists.
    apply (Hno _ (slow_polled sig 30 w3 ltac:(rewrite Hs; cbn; lia))).
Defined.

Lemma registry_key_too_long_witness :
  (exists e, register sampleMessenger (repeat x09 33) Ref.world0
             = (Throw e, Ref.world0)) /\
  (exists e, updateEncryptionKey sampleMessenger (repeat x09 33) Ref.world0
             = (Throw e, Ref.world0)).
Proof.
  apply (registry_key_too_long sampleMessenger (repeat x09 33) Ref.world0).
  vm_compute. reflexivity.
Defined.

(** [deregister] of the sample reader: the signer sits on the owner
    account. *)
Lemma registry_methods_submit_witness :
  let attached :=
    match Ref.createKeyPairSignerFromBytes sampleKeypair with
    | Ok s => Some s
    | Throw _ => None
    end in
  deregister sampleReader Ref.world0
  = sendInstruction sampleReader
      {| programAddress := DEFAULT_PROGRAM_ID;
         accounts := [mkAccount samplePda WRITABLE;
                      {| am_address := sampleAddress;
                         am_role := WRITABLE_SIGNER;
                         am_signer := attached |}];
         data := DEREGISTER_DISC |} Ref.world0.
Proof.
  intros attached.
  refine (proj2 (proj2 (registry_methods_submit sampleReader (repeat x09 32)
                          Ref.world0 sampleAddress samplePda
                          DEFAULT_PROGRAM_ID samplePda sampleAddress
                          SYSTEM_PROGRAM attached _ _ _ _ _ _ _ _))).
  - reflexivity.
  - vm_compute. reflexivity.
  - reflexivity.
  - vm_compute. reflexivity.
  - vm_compute. reflexivity.
  - vm_compute. reflexivity.
  - vm_compute. reflexivity.
  - vm_compute. reflexivity.
Defined.

End SubmitFacts.

(* ================================================================= *)
(** ** The two revisions of [buildSendMessageInstruction] *)

Module RevisionFacts.

Section Revisions.
Context `{Library}.

(** Whenever the builder with six accounts returns an instruction, the
    builder with one account, the one [send] calls, returns an instruction
    for the same program with the same data; its only account is the
    sender, the first of the six. *)
Theorem buildSendMessageInstruction_revisions
  (p : Instructions.SendMessageParams) (ix : Instruction) :
  Instructions.buildSendMessageInstruction p = Ok ix ->
  exists ix0,
    Instructions0.buildSendMessageInstruction
      {| Instructions0.sm_sender := Instructions.sm_sender p;
         Instructions0.sm_recipient := Instructions.sm_recipient p;
         Instructions0.sm_ciphertext := Instructions.sm_ciphertext p;
         Instructions0.sm_nonce := Instructions.sm_nonce p;
         Instructions0.sm_programId := Instructions.sm_programId p |}
    = Ok ix0 /\
    data ix0 = data ix /\
    programAddress ix0 = programAddress ix /\
    accounts ix0 = firstn 1 (accounts ix).
Proof.
  unfold Instructions.buildSendMessageInstruction,
         Instructions0.buildSendMessageInstruction.
  cbv zeta. cbn [Instructions0.sm_sender Instructions0.sm_recipient
                 Instructions0.sm_ciphertext Instructions0.sm_nonce
                 Instructions0.sm_programId].
  intros E.
  destruct (addressToBytes (Instructions.sm_recipient p)) as [rb|e];
    cbn [bind] in E |- *; [|discriminate].
  destruct (Instructions.serializeSendMessageData rb _ _) as [d|e];
    cbn [bind] in E |- *; [|discriminate].
  destruct (address (Instructions.orDefault (Instructions.sm_programId p)))
    as [pa|e]; cbn [bind] in E |- *; [|discriminate].
  destruct (address (Instructions.sm_sender p)) as [a0|e];
    cbn [bind] in E |- *; [|discriminate].
  destruct (address (Instructions.sm_configPda p)) as [a1|e];
    cbn [bind] in E; [|discriminate].
  destruct (address (Instructions.sm_feeVault p)) as [a2|e];
    cbn [bind] in E; [|discriminate].
  destruct (address (Instructions.sm_recipientRegistryPda p)) as [a3|e];
    cbn [bind] in E; [|discriminate].
  destruct (address (Instructions.sm_recipient p)) as [a4|e];
    cbn [bind] in E; [|discriminate].
  destruct (address Instructions.SYSTEM_PROGRAM) as [a5|e];
    cbn [bind] in E; [|discriminate].
  injection E as <-. eexists. split; [reflexivity|].
  repeat split; reflexivity.
Qed.

End Revisions.

Lemma buildSendMessageInstruction_revisions_witness :
  let p := {| Instructions.sm_sender := sampleAddress;
              Instructions.sm_recipient := Instructions.DEFAULT_PROGRAM_ID;
              Instructions.sm_ciphertext := [x01; x02; x03];
              Instructions.sm_nonce := repeat x07 24;
              Instructions.sm_configPda := sampleAddress;
              Instructions.sm_feeVault := sampleAddress;
              Instructions.sm_recipientRegistryPda := sampleAddress;
              Instructions.sm_programId := None |} in
  exists ix ix0,
    Instructions.buildSendMessageInstruction p = Ok ix /\
    Instructions0.buildSendMessageInstruction
      {| Instructions0.sm_sender := sampleAddress;
         Instructions0.sm_recipient := Instructions.DEFAULT_PROGRAM_ID;
         Instructions0.sm_ciphertext := [x01; x02; x03];
         Instructions0.sm_nonce := repeat x07 24;
         Instructions0.sm_programId := None |} = Ok ix0 /\
    data ix0 = data ix.
Proof.
  intros p.
  destruct (Instructions.buildSendMessageInstruction p) as [ix|e] eqn:E;
    [|vm_compute in E; discriminate E].
  destruct (buildSendMessageInstruction_revisions p ix E)
    as [ix0 [E0 [Ed _]]].
  exists ix, ix0. split; [reflexivity|]. split; [exact E0 | exact Ed].
Defined.

End RevisionFacts.

(* ================================================================= *)
(** ** messenger.ts: the address of the subscriptions *)

Module UrlFacts.
Import Messenger.

Lemma prefix_app (p rest : string) : String.prefix p (p ++ rest) = true.
Proof.
  induction p as [|c p IH]; cbn.
  - destruct rest; reflexivity.
  - destruct (ascii_dec c c) as [_|N]; [exact IH | contradiction N; reflexivity].
Qed.

Lemma index_here (p : string) (c : ascii) (s : string) :
  String.prefix p (String c s) = true ->
  String.index 0 p (String c s) = Some 0%nat.
Proof. intros E. cbn [String.index]. rewrite E. reflexivity. Qed.

Lemma index_skip (p : string) (c : ascii) (s : string) :
  String.prefix p (String c s) = false ->
  String.index 0 p (String c s) = option_map S (String.index 0 p s).
Proof.
  intros E. cbn [String.index]. rewrite E.
  destruct (String.index 0 p s); reflexivity.
Qed.

Lemma substring_rest (p rest : string) :
  String.substring (String.length p)
                   (String.length (p ++ rest) - String.length p) (p ++ rest)
  = rest.
Proof.
  induction p as [|c p IH]; cbn [String.append String.length String.substring].
  - rewrite Nat.sub_0_r. induction rest as [|c rest IH]; cbn;
      [reflexivity | f_equal; exact IH].
  - exact IH.
Qed.

Lemma replace_prefix (c : ascii) (p r rest : string) :
  JSString.replace (String c p ++ rest) (String c p) r = (r ++ rest)%string.
Proof.
  unfold JSString.replace.
  change (String c p ++ rest)%string with (String c (p ++ rest)) at 1.
  rewrite index_here by apply (prefix_app (String c p) rest).
  cbn [String.substring Nat.add]. rewrite substring_rest. reflexivity.
Qed.

Lemma replace_absent (s p r : string) :
  String.index 0 p s = None -> JSString.replace s p r = s.
Proof. intros E. unfold JSString.replace. rewrite E. reflexivity. Qed.

(** An explicit [wsUrl] is used as it is.  Without one, an [https://]
    address becomes a [wss://] address and an [http://] address a [ws://]
    address, the rest unchanged, as long as the rest holds neither
    prefix. *)
Theorem subscriptionsUrl_scheme (rest : string) :
  String.index 0 "https://" rest = None ->
  String.index 0 "http://" rest = None ->
  (forall u rpcUrl, subscriptionsUrl (Some u) rpcUrl = u) /\
  subscriptionsUrl None ("https://" ++ rest) = ("wss://" ++ rest)%string /\
  subscriptionsUrl None ("http://" ++ rest) = ("ws://" ++ rest)%string.
Proof.
  intros Hs Hp. split; [reflexivity|].
  unfold subscriptionsUrl. split.
  - rewrite (replace_prefix "h" "ttps://" "wss://" rest).
    apply replace_absent.
    cbn [String.append].
    repeat (rewrite index_skip by reflexivity).
    rewrite Hp. reflexivity.
  - rewrite (replace_absent ("http://" ++ rest) "https://" "wss://").
    + apply (replace_prefix "h" "ttp://" "ws://" rest).
    + cbn [String.append].
      repeat (rewrite index_skip by reflexivity).
      rewrite Hs. reflexivity.
Qed.

Lemma subscriptionsUrl_scheme_witness :
  (forall u rpcUrl, subscriptionsUrl (Some u) rpcUrl = u) /\
  subscriptionsUrl None "https://api.devnet.solana.com"
  = "wss://api.devnet.solana.com" /\
  subscriptionsUrl None "http://api.devnet.solana.com"
  = "ws://api.devnet.solana.com".
Proof.
  apply (subscriptionsUrl_scheme "api.devnet.solana.com"); reflexivity.
Defined.

(** The second replacement is applied to the result of the first: an
    [https://] address that holds [http://] further on loses that too. *)
Example subscriptionsUrl_inner_scheme :
  subscriptionsUrl None "https://node/?via=http://proxy"
  = "wss://node/?via=ws://proxy".
Proof. reflexivity. Qed.

End UrlFacts.

(* ================================================================= *)
(** ** messenger.ts: grouping by message id *)

Module GroupingFacts.
Import Messenger. Import ReassemblyFacts.

(** *** The map of the language *)

Section Maps.
Context {V : Type}.

Lemma map_get_set_other (m : JSMap.t V) (k k' : string) (v : V) :
  k' <> k -> JSMap.get (JSMap.set m k v) k' = JSMap.get m k'.
Proof.
  intros Hk. induction m as [|[k0 v0] m IH]; cbn.
  - destruct (String.eqb_spec k' k); [contradiction | reflexivity].
  - destruct (String.eqb_spec k k0) as [->|Hk0]; cbn.
    + destruct (String.eqb_spec k' k0); [contradiction | reflexivity].
    + rewrite IH. reflexivity.
Qed.

Lemma map_get_delete_other (m : JSMap.t V) (k k' : string) :
  k' <> k -> JSMap.get (JSMap.delete m k) k' = JSMap.get m k'.
Proof.
  intros Hk. induction m as [|[k0 v0] m IH]; cbn; [reflexivity|].
  destruct (String.eqb_spec k k0) as [->|Hk0]; cbn.
  - destruct (String.eqb_spec k' k0); [contradiction | reflexivity].
  - rewrite IH. reflexivity.
Qed.

Lemma map_get_absent (m : JSMap.t V) (k : string) :
  ~ In k (map fst m) -> JSMap.get m k = None.
Proof.
  induction m as [|[k0 v0] m IH]; cbn; intros Hn; [reflexivity|].
  destruct (String.eqb_spec k k0) as [->|Hk0]; [tauto|].
  apply IH. tauto.
Qed.

Lemma map_get_delete_same (m : JSMap.t V) (k : string) :
  NoDup (map fst m) -> JSMap.get (JSMap.delete m k) k = None.
Proof.
  induction m as [|[k0 v0] m IH]; cbn; intros Hnd; [reflexivity|].
  apply NoDup_cons_iff in Hnd. destruct Hnd as [Hn Hnd].
  destruct (String.eqb_spec k k0) as [->|Hk0]; cbn.
  - apply map_get_absent, Hn.
  - destruct (String.eqb_spec k k0); [contradiction|]. apply IH, Hnd.
Qed.

Lemma map_keys_set (m : JSMap.t V) (k : string) (v : V) :
  map fst (JSMap.set m k v)
  = if JSMap.has m k then map fst m else map fst m ++ [k].
Proof.
  unfold JSMap.has. induction m as [|[k0 v0] m IH]; cbn; [reflexivity|].
  destruct (String.eqb_spec k k0) as [->|Hk0]; cbn; [reflexivity|].
  rewrite IH. destruct (JSMap.get m k); reflexivity.
Qed.

Lemma map_has_In (m : JSMap.t V) (k : string) :
  JSMap.has m k = false -> ~ In k (map fst m).
Proof.
  unfold JSMap.has. induction m as [|[k0 v0] m IH]; cbn; intros E; [tauto|].
  destruct (String.eqb_spec k k0) as [->|Hk0]; [discriminate|].
  intros [E0|I]; [congruence | exact (IH E I)].
Qed.

Lemma map_keys_set_NoDup (m : JSMap.t V) (k : string) (v : V) :
  NoDup (map fst m) -> NoDup (map fst (JSMap.set m k v)).
Proof.
  intros Hnd. rewrite map_keys_set. destruct (JSMap.has m k) eqn:E.
  - exact Hnd.
  - apply NoDup_app; [exact Hnd | constructor; [intros [] | constructor] |].
    intros x Ix [Ex|[]]. subst x. exact (map_has_In m k E Ix).
Qed.

Lemma map_keys_delete_NoDup (m : JSMap.t V) (k : string) :
  NoDup (map fst m) -> NoDup (map fst (JSMap.delete m k)).
Proof.
  induction m as [|[k0 v0] m IH]; cbn; intros Hnd; [constructor|].
  apply NoDup_cons_iff in Hnd. destruct Hnd as [Hn Hnd].
  destruct (String.eqb k k0); cbn; [exact Hnd|].
  constructor; [|apply IH, Hnd].
  intros I. apply Hn. clear - I.
  induction m as [|[k1 v1] m IH]; cbn in *; [tauto|].
  destruct (String.eqb k k1); cbn in *; tauto.
Qed.

(** [if (!m.has(k)) m.set(k, d); m.set(k, f(m.get(k)))] in one step. *)
Lemma map_set_default (m : JSMap.t V) (k : string) (d : V) (f : V -> V) :
  let m1 := if negb (JSMap.has m k) then JSMap.set m k d else m in
  JSMap.get m1 k
  = Some (match JSMap.get m k with Some v => v | None => d end) /\
  forall v, JSMap.set m1 k v = JSMap.set m k v.
Proof.
  cbv zeta. unfold JSMap.has.
  destruct (JSMap.get m k) as [v0|] eqn:E; cbn [negb].
  - split; [exact E | reflexivity].
  - split; [apply DeliveryFacts.map_get_set_same|].
    intros v. apply DeliveryFacts.map_set_set.
Qed.

End Maps.

(** *** Maps keyed by the hexadecimal form of an id *)

Section Keyed.
Context {V : Type}.

Lemma hexEncode_eqb (a b : list byte) :
  String.eqb (hexEncode a) (hexEncode b) = sameBytes a b.
Proof.
  unfold sameBytes. destruct (list_eq_dec Byte.byte_eq_dec a b) as [->|Hn].
  - apply String.eqb_refl.
  - apply String.eqb_neq. intros E. apply Hn, CodecFacts.hexEncode_inj, E.
Qed.

Lemma sameBytes_true (a b : list byte) : sameBytes a b = true <-> a = b.
Proof.
  unfold sameBytes. destruct (list_eq_dec Byte.byte_eq_dec a b);
    split; congruence.
Qed.

Lemma sameBytes_false (a b : list byte) : sameBytes a b = false <-> a <> b.
Proof.
  unfold sameBytes. destruct (list_eq_dec Byte.byte_eq_dec a b);
    split; congruence.
Qed.

Lemma sameBytes_refl (a : list byte) : sameBytes a a = true.
Proof. apply sameBytes_true. reflexivity. Qed.

Lemma keyed_get_absent (g : list byte -> V) (ids : list (list byte))
  (m : list byte) :
  ~ In m ids -> JSMap.get (keyed g ids) (hexEncode m) = None.
Proof.
  induction ids as [|x ids IH]; cbn; intros Hn; [reflexivity|].
  rewrite hexEncode_eqb.
  replace (sameBytes m x) with false
    by (symmetry; apply sameBytes_false; intros ->; tauto).
  apply IH. tauto.
Qed.

Lemma keyed_get_present (g : list byte -> V) (ids : list (list byte))
  (m : list byte) :
  In m ids -> JSMap.get (keyed g ids) (hexEncode m) = Some (g m).
Proof.
  induction ids as [|x ids IH]; cbn; intros I; [contradiction|].
  rewrite hexEncode_eqb.
  destruct (sameBytes m x) eqn:E.
  - apply sameBytes_true in E. subst x. reflexivity.
  - apply sameBytes_false in E. destruct I as [->|I]; [congruence|].
    apply IH, I.
Qed.

Lemma keyed_set_absent (g : list byte -> V) (ids : list (list byte))
  (m : list byte) (v : V) :
  ~ In m ids ->
  JSMap.set (keyed g ids) (hexEncode m) v = keyed g ids ++ [(hexEncode m, v)].
Proof.
  induction ids as [|x ids IH]; cbn; intros Hn; [reflexivity|].
  rewrite hexEncode_eqb.
  replace (sameBytes m x) with false
    by (symmetry; apply sameBytes_false; intros ->; tauto).
  f_equal. apply IH. tauto.
Qed.

Lemma keyed_set_present (g : list byte -> V) (ids : list (list byte))
  (m : list byte) (v : V) :
  NoDup ids -> In m ids ->
  JSMap.set (keyed g ids) (hexEncode m) v
  = keyed (fun mid => if sameBytes mid m then v else g mid) ids.
Proof.
  induction 1 as [|x ids Hx Hnd IH]; cbn; intros I; [contradiction|].
  rewrite hexEncode_eqb.
  destruct (sameBytes m x) eqn:E.
  - apply sameBytes_true in E. subst x. rewrite sameBytes_refl.
    f_equal. apply map_ext_in. intros y Iy.
    replace (sameBytes y m) with false; [reflexivity|].
    symmetry. apply sameBytes_false. intros ->. contradiction.
  - apply sameBytes_false in E.
    replace (sameBytes x m) with false
      by (symmetry; apply sameBytes_false; congruence).
    f_equal. destruct I as [->|I]; [congruence|]. apply IH, I.
Qed.

End Keyed.

(** *** The ids in the order of first appearance *)

Lemma firstIds_In (l : list (list byte)) (m : list byte) :
  In m (firstIds l) <-> In m l.
Proof.
  induction l as [|x l IH]; cbn [firstIds]; [tauto|].
  cbn [In]. rewrite filter_In, IH, negb_true_iff, sameBytes_false.
  destruct (list_eq_dec Byte.byte_eq_dec x m) as [->|Hn]; [tauto|].
  split; [tauto|]. intros [E|I]; [tauto|]. right. split; [exact I|congruence].
Qed.

Lemma firstIds_NoDup (l : list (list byte)) : NoDup (firstIds l).
Proof.
  induction l as [|x l IH]; cbn [firstIds]; constructor.
  - rewrite filter_In, negb_true_iff, sameBytes_false. tauto.
  - apply NoDup_filter, IH.
Qed.

Lemma firstIds_snoc_new (l : list (list byte)) (m : list byte) :
  ~ In m l -> firstIds (l ++ [m]) = firstIds l ++ [m].
Proof.
  induction l as [|x l IH]; cbn [firstIds app]; intros Hn; [reflexivity|].
  cbn [In] in Hn. rewrite IH by tauto. rewrite filter_app. cbn [filter].
  replace (sameBytes m x) with false
    by (symmetry; apply sameBytes_false; intros ->; tauto).
  reflexivity.
Qed.

Lemma firstIds_snoc_old (l : list (list byte)) (m : list byte) :
  In m l -> firstIds (l ++ [m]) = firstIds l.
Proof.
  induction l as [|x l IH]; cbn [firstIds app]; intros I; [contradiction|].
  f_equal.
  destruct (in_dec (list_eq_dec Byte.byte_eq_dec) m l) as [Il|Hn].
  - rewrite (IH Il). reflexivity.
  - destruct I as [->|I]; [|contradiction].
    rewrite (firstIds_snoc_new l m Hn), filter_app. cbn [filter].
    rewrite sameBytes_refl. cbn [negb]. apply app_nil_r.
Qed.

(** *** The first loop of [reassembleMessages] *)

Section Groups.
Context `{Library} {W : Type} `{Random W} `{Chain W}.
Variable this : SolanaMessenger (W := W).

Lemma groupsMap_values (cs : list Chunk) :
  JSMap.values (groupsMap cs) = groupsById cs.
Proof.
  unfold JSMap.values, groupsMap, keyed, groupsById. rewrite map_map.
  reflexivity.
Qed.

Lemma filter_sameId_none (cs : list Chunk) (m : list byte) :
  ~ In m (map idOf cs) -> filter (sameId m) cs = [].
Proof.
  induction cs as [|c cs IH]; cbn; intros Hn; [reflexivity|].
  unfold sameId at 1.
  replace (sameBytes (idOf c) m) with false
    by (symmetry; apply sameBytes_false; tauto).
  apply IH. tauto.
Qed.

Lemma groupsMap_step (cs : list Chunk) (c : Chunk) :
  let k := hexEncode (idOf c) in
  let groups := groupsMap cs in
  let groups1 :=
    if negb (JSMap.has groups k) then JSMap.set groups k [] else groups in
  let group := match JSMap.get groups1 k with Some g => g | None => [] end in
  JSMap.set groups1 k (group ++ [c]) = groupsMap (cs ++ [c]).
Proof.
  cbv zeta.
  destruct (map_set_default (groupsMap cs) (hexEncode (idOf c)) []
              (fun g => g)) as [Eg Es].
  rewrite Eg, Es. clear Eg Es.
  unfold groupsMap. rewrite map_app. cbn [map].
  destruct (in_dec (list_eq_dec Byte.byte_eq_dec) (idOf c) (map idOf cs))
    as [I|Hn].
  - rewrite (firstIds_snoc_old _ _ I).
    rewrite keyed_get_present by (apply firstIds_In, I).
    rewrite keyed_set_present
      by (try apply firstIds_NoDup; apply firstIds_In, I).
    unfold keyed. apply map_ext. intros mid. f_equal.
    rewrite filter_app. cbn [filter].
    change (sameId mid c) with (sameBytes (idOf c) mid).
    destruct (sameBytes mid (idOf c)) eqn:E.
    + apply sameBytes_true in E. subst mid. rewrite sameBytes_refl.
      reflexivity.
    + replace (sameBytes (idOf c) mid) with false.
      * rewrite app_nil_r. reflexivity.
      * symmetry. apply sameBytes_false. apply sameBytes_false in E.
        congruence.
  - rewrite (firstIds_snoc_new _ _ Hn).
    rewrite keyed_get_absent by (rewrite firstIds_In; exact Hn).
    rewrite keyed_set_absent by (rewrite firstIds_In; exact Hn).
    unfold keyed. rewrite map_app. cbn [map]. f_equal.
    + apply map_ext_in. intros mid Im. f_equal.
      rewrite filter_app. cbn [filter].
    change (sameId mid c) with (sameBytes (idOf c) mid).
      replace (sameBytes (idOf c) mid) with false.
      * rewrite app_nil_r. reflexivity.
      * symmetry. apply sameBytes_false. intros E. subst mid.
        apply Hn, (proj1 (firstIds_In _ _)), Im.
    + rewrite filter_app, (filter_sameId_none cs _ Hn). cbn [filter app].
      unfold sameId. rewrite sameBytes_refl. reflexivity.
Qed.

Lemma frameOf_cases (e : MessageSentEvent) :
  (exists r, decryptToBytes this e = Ok r) ->
  (frameOf this e = None /\
   forall events groups sm,
     collectFrames this (e :: events) groups sm
     = collectFrames this events groups sm) \/
  (exists d raw,
     frameOf this e = Some (d, e) /\
     decryptToBytes this e = Ok (Some raw) /\
     Crypto.decodeMessage raw = Ok d).
Proof.
  intros [r Er]. unfold frameOf. cbn [collectFrames]. rewrite Er.
  destruct r as [raw|].
  - destruct (Crypto.decodeMessage raw) as [d|err] eqn:Ed.
    + right. exists d, raw. auto.
    + left. split; [reflexivity|]. intros. cbn [bind]. rewrite Ed.
      reflexivity.
  - left. split; [reflexivity|]. intros. reflexivity.
Qed.

Lemma decodedChunks_skip (e : MessageSentEvent)
  (events : list MessageSentEvent) :
  frameOf this e = None ->
  decodedChunks this (e :: events) = decodedChunks this events.
Proof.
  intros E. unfold decodedChunks. cbn [map somes]. rewrite E. reflexivity.
Qed.

Lemma collectFrames_groups (events : list MessageSentEvent) :
  Forall (fun e => exists r, decryptToBytes this e = Ok r) events ->
  forall (cs : list Chunk) (sm : list Message),
    collectFrames this events (groupsMap cs) sm
    = Ok (groupsMap
            (cs ++ filter (fun c => negb (isStandalone c))
                          (decodedChunks this events)),
          sm ++ map standaloneOf
                    (filter isStandalone (decodedChunks this events))).
Proof.
  induction 1 as [|e events He _ IH]; intros cs sm.
  - cbn. rewrite !app_nil_r. reflexivity.
  - destruct (frameOf_cases e He) as [[Hf Hc]|[d [raw [Hf [Er Ed]]]]].
    + rewrite Hc, (decodedChunks_skip e events Hf). apply IH.
    + rewrite (decodedChunks_cons this e events (d, e) Hf).
      cbn [filter].
      change (isStandalone (d, e)) with (Crypto.totalChunks d =? 1).
      destruct (Crypto.totalChunks d =? 1) eqn:Et.
      * cbn [negb map]. cbn [collectFrames]. rewrite Er. cbn [bind].
        rewrite Ed, Et, IH, <- app_assoc. reflexivity.
      * cbn [negb].
        rewrite (collectFrames_step this (Crypto.messageId d) e events _ sm d
                   Hf eq_refl) by (apply Z.eqb_neq, Et).
        cbv zeta.
        pose proof (groupsMap_step cs (d, e)) as Hs. cbv zeta in Hs.
        change (idOf (d, e)) with (Crypto.messageId d) in Hs.
        match goal with
        | |- collectFrames this events ?g sm = _ =>
            replace g with (groupsMap (cs ++ [(d, e)]))
              by (symmetry; exact Hs)
        end.
        rewrite IH, <- app_assoc. reflexivity.
Qed.

Lemma finalizeGroups_flat (groups : list (list Chunk)) :
  forall sm : list Message,
    finalizeGroups groups sm = sm ++ flat_map groupMessage groups.
Proof.
  induction groups as [|g groups IH]; intros sm; cbn [finalizeGroups flat_map].
  - rewrite app_nil_r. reflexivity.
  - unfold groupMessage at 1.
    destruct (JSArray.sort chunkKey g) as [|first rest]; [apply IH|].
    destruct (len (first :: rest) =? Crypto.totalChunks (fst first));
      cbn [negb].
    + rewrite IH, <- app_assoc. reflexivity.
    + apply IH.
Qed.

(** The read path for any events whose decryption does not throw. *)
Lemma reassemble_groups (events : list MessageSentEvent) :
  Forall (fun e => exists r, decryptToBytes this e = Ok r) events ->
  let decoded := decodedChunks this events in
  reassembleMessages this events
  = Ok (JSArray.sort msg_timestamp
          (map standaloneOf (filter isStandalone decoded)
           ++ flat_map groupMessage
                (groupsById
                   (filter (fun c => negb (isStandalone c)) decoded)))).
Proof.
  intros Hall decoded. unfold reassembleMessages.
  change (@JSMap.empty (list Chunk)) with (groupsMap []).
  rewrite (collectFrames_groups events Hall [] []). cbn [bind app].
  rewrite groupsMap_values, finalizeGroups_flat. reflexivity.
Qed.

End Groups.

(** *** One arrival on the listen path *)

Section Arrivals.
Context `{Library} {W : Type} `{Random W} `{Chain W}.
Variable this : SolanaMessenger (W := W).

Lemma listenEvent_chunk (callbackThrows : Message -> bool)
  (myAddress : string) (mid : list byte) (a : string * MessageSentEvent)
  (d : Crypto.DecodedMessage) (buffer : JSMap.t ChunkBuffer)
  (delivered : list Message) :
  arrival this myAddress mid a ->
  frameOf this (stamp a) = Some (d, stamp a) ->
  (forall entry,
      JSMap.get buffer (hexEncode mid) = Some entry ->
      Forall (chunkOfMessage this mid) (cb_events entry)) ->
  listenEvent this callbackThrows myAddress (fst a) (buffer, delivered)
              (snd a)
  = let entry := grownEntry buffer mid d (stamp a) in
    let held := JSMap.set buffer (hexEncode mid) entry in
    if len (cb_events entry) =? cb_totalChunks entry then
      match JSArray.sort chunkKey (decodedChunks this (cb_events entry)) with
      | [] => (JSMap.delete held (hexEncode mid), delivered)
      | first :: rest =>
          let assembled := messageFrom first (first :: rest) in
          (if callbackThrows assembled then held
           else JSMap.delete held (hexEncode mid),
           delivered ++ [assembled])
      end
    else (held, delivered).
Proof.
  intros [Hr [d' [Hf' [Hm Ht]]]] Hf Hheld.
  assert (d' = d) by congruence. subst d'.
  assert (Hprior : Forall (chunkOfMessage this mid)
                          (cb_events (priorEntry buffer mid d))).
  { unfold priorEntry.
    destruct (JSMap.get buffer (hexEncode mid)) as [entry|] eqn:E.
    - apply Hheld. reflexivity.
    - constructor. }
  unfold listenEvent.
  rewrite Hr, String.eqb_refl. cbn [negb]. fold (stamp a).
  pose proof Hf as Hf0. unfold frameOf in Hf0.
  destruct (decryptToBytes this (stamp a)) as [[raw|]|err] eqn:Ed;
    try discriminate.
  destruct (Crypto.decodeMessage raw) as [d'|err] eqn:Er; try discriminate.
  injection Hf0 as ->. rewrite Hm.
  replace (Crypto.totalChunks d =? 1) with false
    by (symmetry; apply Z.eqb_neq; exact Ht).
  destruct (map_set_default buffer (hexEncode mid)
              {| cb_events := []; cb_totalChunks := Crypto.totalChunks d |}
              (fun e => e)) as [Eg Es].
  rewrite Eg, Es. fold (priorEntry buffer mid d).
  fold (grownEntry buffer mid d (stamp a)). cbv zeta.
  destruct (len (cb_events (grownEntry buffer mid d (stamp a)))
            =? cb_totalChunks (grownEntry buffer mid d (stamp a)));
    [|reflexivity].
  rewrite (assembleChunks_group this mid).
  - destruct (JSArray.sort chunkKey
                (decodedChunks this
                   (cb_events (grownEntry buffer mid d (stamp a)))))
      as [|first rest]; [reflexivity|].
    destruct (callbackThrows (messageFrom first (first :: rest)));
      reflexivity.
  - cbn [grownEntry cb_events]. apply Forall_app. split; [exact Hprior|].
    constructor; [|constructor]. exists d. auto.
Qed.

(** One chunk arrives while the buffer holds entries of any messages. *)
Lemma listen_one_arrival (callbackThrows : Message -> bool)
  (myAddress : string) (mid : list byte) (a : string * MessageSentEvent)
  (d : Crypto.DecodedMessage) (buffer : JSMap.t ChunkBuffer)
  (delivered : list Message) :
  NoDup (map fst buffer) ->
  arrival this myAddress mid a ->
  frameOf this (stamp a) = Some (d, stamp a) ->
  (forall entry,
      JSMap.get buffer (hexEncode mid) = Some entry ->
      Forall (chunkOfMessage this mid) (cb_events entry)) ->
  let entry := grownEntry buffer mid d (stamp a) in
  let st :=
    listenEvent this callbackThrows myAddress (fst a) (buffer, delivered)
                (snd a) in
  NoDup (map fst (fst st)) /\
  (forall k, k <> hexEncode mid ->
             JSMap.get (fst st) k = JSMap.get buffer k) /\
  if len (cb_events entry) =? cb_totalChunks entry then
    exists first rest,
      JSArray.sort chunkKey (decodedChunks this (cb_events entry))
      = first :: rest /\
      snd st = delivered ++ [messageFrom first (first :: rest)] /\
      JSMap.get (fst st) (hexEncode mid)
      = if callbackThrows (messageFrom first (first :: rest))
        then Some entry else None
  else
    snd st = delivered /\ JSMap.get (fst st) (hexEncode mid) = Some entry.
Proof.
  intros Hnd Ha Hf Hheld entry st. subst st.
  rewrite (listenEvent_chunk callbackThrows myAddress mid a d buffer
             delivered Ha Hf Hheld).
  cbv zeta. fold entry.
  pose proof (map_keys_set_NoDup buffer (hexEncode mid) entry Hnd) as Hnd1.
  assert (Hall : Forall (chunkOfMessage this mid) (cb_events entry)).
  { unfold entry. cbn [grownEntry cb_events]. apply Forall_app. split.
    - unfold priorEntry.
      destruct (JSMap.get buffer (hexEncode mid)) as [e|] eqn:E;
        [apply Hheld; reflexivity | constructor].
    - destruct Ha as [_ Hc]. constructor; [exact Hc | constructor]. }
  destruct (len (cb_events entry) =? cb_totalChunks entry).
  - pose proof (decodedChunks_length this mid _ Hall) as Hdl.
    pose proof (sort_length chunkKey (decodedChunks this (cb_events entry)))
      as Hsl.
    destruct (JSArray.sort chunkKey (decodedChunks this (cb_events entry)))
      as [|first rest].
    + rewrite Hdl in Hsl. unfold entry in Hsl.
      cbn [grownEntry cb_events] in Hsl. rewrite length_app in Hsl.
      cbn in Hsl. lia.
    + cbv zeta. cbn [fst snd]. split; [|split].
      * destruct (callbackThrows (messageFrom first (first :: rest)));
          [exact Hnd1 | apply map_keys_delete_NoDup, Hnd1].
      * intros k Hk.
        destruct (callbackThrows (messageFrom first (first :: rest)));
          [|rewrite map_get_delete_other by exact Hk];
          apply map_get_set_other, Hk.
      * exists first, rest. split; [reflexivity|]. split; [reflexivity|].
        destruct (callbackThrows (messageFrom first (first :: rest)));
          [apply DeliveryFacts.map_get_set_same
          | apply map_get_delete_same, Hnd1].
  - cbn [fst snd]. split; [exact Hnd1|]. split.
    + intros k Hk. apply map_get_set_other, Hk.
    + split; [reflexivity|]. apply DeliveryFacts.map_get_set_same.
Qed.

(** The frames of one message arrive at a listener that holds nothing. *)
Lemma listen_single_message (callbackThrows : Message -> bool)
  (myAddress : string) (mid : list byte)
  (a0 : string * MessageSentEvent) (more : list (string * MessageSentEvent))
  (d0 : Crypto.DecodedMessage) :
  Forall (arrival this myAddress mid) (a0 :: more) ->
  frameOf this (stamp a0) = Some (d0, stamp a0) ->
  let arrivals := a0 :: more in
  let total := Crypto.totalChunks d0 in
  let entry := {| cb_events := map stamp arrivals; cb_totalChunks := total |} in
  (len arrivals < total \/ total <= 0 ->
   listenEvents this callbackThrows myAddress arrivals (JSMap.empty, [])
   = ([(hexEncode mid, entry)], [])) /\
  (len arrivals = total ->
   exists first rest,
     JSArray.sort chunkKey (decodedChunks this (map stamp arrivals))
     = first :: rest /\
     listenEvents this callbackThrows myAddress arrivals (JSMap.empty, [])
     = (if callbackThrows (messageFrom first (first :: rest))
        then [(hexEncode mid, entry)] else [],
        [messageFrom first (first :: rest)])).
Proof.
  intros Harr Hf arrivals total entry. subst arrivals entry.
  pose proof Harr as Harr'. apply Forall_cons_iff in Harr'.
  destruct Harr' as [Ha0 Hmore].
  pose proof (len_nonneg more) as Hlm.
  assert (Hfirst :
    listenEvents this callbackThrows myAddress (a0 :: more) (JSMap.empty, [])
    = listenEvents this callbackThrows myAddress more
        ([(hexEncode mid,
           {| cb_events := [stamp a0]; cb_totalChunks := total |})], [])).
  { unfold listenEvents. cbn [fold_left].
    rewrite (listen_first_buffered this callbackThrows myAddress mid a0 d0 []
               Ha0 Hf).
    reflexivity. }
  assert (Hc0 : Forall (chunkOfMessage this mid) [stamp a0]).
  { constructor; [apply Ha0 | constructor]. }
  split.
  - intros Hshort. rewrite Hfirst.
    rewrite (listen_buffer_grows this callbackThrows myAddress mid total []
               more Hmore [stamp a0] Hc0).
    + reflexivity.
    + intros j Hj. change (len [stamp a0]) with 1.
      rewrite len_cons in Hshort. lia.
  - intros Hfull. rewrite Hfirst.
    rewrite len_cons in Hfull.
    assert (Hne1 : total <> 1).
    { destruct Ha0 as [_ [d [Hf' [_ Ht]]]]. unfold total. congruence. }
    destruct (exists_last (l := more)) as [pre [lst ->]].
    { intros ->. cbn in Hfull. lia. }
    apply Forall_app in Hmore. destruct Hmore as [Hpre Hlast].
    apply Forall_cons_iff in Hlast. destruct Hlast as [[Hr Hc] _].
    rewrite len_app in Hfull. change (len [lst]) with 1 in Hfull.
    pose proof (len_nonneg pre) as Hlp.
    rewrite listenEvents_app, listenEvents_one.
    rewrite (listen_buffer_grows this callbackThrows myAddress mid total []
               pre Hpre [stamp a0] Hc0).
    2:{ intros j Hj. change (len [stamp a0]) with 1. lia. }
    assert (Hbuf : Forall (chunkOfMessage this mid)
                          ([stamp a0] ++ map stamp pre)).
    { apply Forall_app. split; [exact Hc0|].
      apply (Forall_stamped this myAddress mid pre Hpre). }
    rewrite (listenEvent_buffered this callbackThrows myAddress mid lst
               ([stamp a0] ++ map stamp pre) total [] Hr Hc Hbuf).
    cbv zeta.
    assert (Hsame : ([stamp a0] ++ map stamp pre) ++ [stamp lst]
                    = map stamp (a0 :: pre ++ [lst])).
    { cbn [map app]. rewrite map_app. reflexivity. }
    rewrite Hsame.
    assert (Hlen : len (map stamp (a0 :: pre ++ [lst])) = total).
    { unfold len. rewrite length_map. cbn [length]. rewrite length_app.
      cbn [length]. unfold len in *. lia. }
    rewrite Hlen, Z.eqb_refl.
    assert (Hall : Forall (chunkOfMessage this mid)
                          (map stamp (a0 :: pre ++ [lst]))).
    { rewrite <- Hsame. apply Forall_app. split; [exact Hbuf|].
      constructor; [exact Hc | constructor]. }
    pose proof (decodedChunks_length this mid _ Hall) as Hdl.
    pose proof (sort_length chunkKey
                  (decodedChunks this (map stamp (a0 :: pre ++ [lst]))))
      as Hsl.
    destruct (JSArray.sort chunkKey
                (decodedChunks this (map stamp (a0 :: pre ++ [lst]))))
      as [|first rest].
    + rewrite Hdl in Hsl. cbn in Hsl. discriminate.
    + exists first, rest. split; reflexivity.
Qed.

End Arrivals.

(** *** Frames that occur more than once *)

Section Duplicates.
Context `{Library} {W : Type} `{Random W} `{Chain W}.
Variable this : SolanaMessenger (W := W).

Lemma somes_app {A} (l1 l2 : list (option A)) :
  somes (l1 ++ l2) = somes l1 ++ somes l2.
Proof.
  induction l1 as [|[x|] l1 IH]; cbn; [reflexivity | f_equal |]; exact IH.
Qed.

Lemma decodedChunks_app (l1 l2 : list MessageSentEvent) :
  decodedChunks this (l1 ++ l2)
  = decodedChunks this l1 ++ decodedChunks this l2.
Proof. unfold decodedChunks. rewrite map_app. apply somes_app. Qed.

Lemma decodedChunks_In (events : list MessageSentEvent) (c : Chunk) :
  In c (decodedChunks this events)
  <-> exists e, In e events /\ frameOf this e = Some c.
Proof.
  unfold decodedChunks. induction events as [|e events IH]; cbn [map somes].
  - split; [intros [] | intros [e [[] _]]].
  - destruct (frameOf this e) as [c'|] eqn:E.
    + cbn [In]. rewrite IH. split.
      * intros [->|[e' [I F]]]; [exists e | exists e']; cbn [In]; auto.
      * intros [e' [[->|I] F]]; [left; congruence | right; exists e'; auto].
    + rewrite IH. split.
      * intros [e' [I F]]. exists e'. cbn [In]. auto.
      * intros [e' [[->|I] F]]; [congruence | exists e'; auto].
Qed.

Lemma decodedChunks_incl (l1 l2 : list MessageSentEvent) :
  incl l1 l2 -> incl (decodedChunks this l1) (decodedChunks this l2).
Proof.
  intros Hi c I. apply decodedChunks_In in I. destruct I as [e [I F]].
  apply decodedChunks_In. exists e. split; [apply Hi, I | exact F].
Qed.

Lemma key_inj {A} (key : A -> Z) (l : list A) (x y : A) :
  NoDup (map key l) -> In x l -> In y l -> key x = key y -> x = y.
Proof.
  induction l as [|z l IH]; cbn [map In]; intros Hnd Ix Iy E; [contradiction|].
  apply NoDup_cons_iff in Hnd. destruct Hnd as [Hz Hnd].
  destruct Ix as [->|Ix], Iy as [->|Iy].
  - reflexivity.
  - exfalso. apply Hz. rewrite E. apply in_map, Iy.
  - exfalso. apply Hz. rewrite <- E. apply in_map, Ix.
  - apply IH; assumption.
Qed.

(** The head of a sorted list has a least key. *)
Lemma sort_head_least {A} (key : A -> Z) (l : list A) (first x : A)
  (rest : list A) :
  JSArray.sort key l = first :: rest -> In x l -> key first <= key x.
Proof.
  intros E I. pose proof (DeliveryFacts.sort_sorted key l) as Hs.
  apply (sort_In key) in I. rewrite E in Hs, I.
  apply StronglySorted_inv in Hs. destruct Hs as [_ Hf].
  destruct I as [->|I]; [lia|].
  rewrite Forall_forall in Hf. exact (Hf x I).
Qed.

(** Added frames that repeat frames of a complete group leave no message. *)
Lemma reassemble_with_duplicates (mid : list byte)
  (events dups events' : list MessageSentEvent) (m : Message) :
  Forall (chunkOfMessage this mid) events ->
  NoDup (map chunkKey (decodedChunks this events)) ->
  reassembleMessages this events = Ok [m] ->
  dups <> [] ->
  incl dups events ->
  Permutation events' (events ++ dups) ->
  reassembleMessages this events' = Ok [].
Proof.
  intros Hall Hnd Hm Hne Hi P.
  assert (Hdups : Forall (chunkOfMessage this mid) dups).
  { apply Forall_forall. intros e I. rewrite Forall_forall in Hall.
    apply Hall, Hi, I. }
  assert (Hall' : Forall (chunkOfMessage this mid) events').
  { apply Forall_forall. intros e I.
    apply (Permutation_in e P) in I. apply in_app_or in I.
    rewrite Forall_forall in Hall, Hdups. destruct I; auto. }
  rewrite (reassemble_one_message this mid events Hall) in Hm.
  rewrite (reassemble_one_message this mid events' Hall'). f_equal.
  injection Hm as Hm. unfold groupMessage in *.
  destruct (JSArray.sort chunkKey (decodedChunks this events))
    as [|first rest] eqn:Es; [discriminate|].
  destruct (Z.eqb_spec (len (first :: rest))
                       (Crypto.totalChunks (fst first))) as [Ht|];
    [clear Hm | discriminate].
  destruct (JSArray.sort chunkKey (decodedChunks this events'))
    as [|first' rest'] eqn:Es'; [reflexivity|].
  pose proof (decodedChunks_perm this _ _ P) as PD.
  rewrite decodedChunks_app in PD.
  assert (I1 : In first (decodedChunks this events)).
  { apply (sort_In chunkKey). rewrite Es. left. reflexivity. }
  assert (I1' : In first' (decodedChunks this events')).
  { apply (sort_In chunkKey). rewrite Es'. left. reflexivity. }
  assert (I2 : In first (decodedChunks this events')).
  { apply (Permutation_in first (Permutation_sym PD)).
    apply in_or_app. left. exact I1. }
  assert (I2' : In first' (decodedChunks this events)).
  { apply (Permutation_in first' PD) in I1'. apply in_app_or in I1'.
    destruct I1' as [I|I]; [exact I|].
    apply (decodedChunks_incl dups events Hi), I. }
  pose proof (sort_head_least chunkKey _ first first' rest Es I2') as L1.
  pose proof (sort_head_least chunkKey _ first' first rest' Es' I2) as L2.
  assert (Ef : first' = first).
  { apply (key_inj chunkKey (decodedChunks this events)); try assumption.
    lia. }
  subst first'.
  assert (Hlen : len (first :: rest') <> Crypto.totalChunks (fst first)).
  { rewrite <- Ht. unfold len.
    rewrite <- Es, <- Es', !sort_length.
    rewrite (Permutation_length PD), length_app.
    rewrite (decodedChunks_length this mid dups Hdups).
    destruct dups; [contradiction Hne; reflexivity | cbn [length]; lia]. }
  apply Z.eqb_neq in Hlen. rewrite Hlen. reflexivity.
Qed.

End Duplicates.

(** *** Grouping, order and repetition *)

Section Reassembled.
Context `{Library} {W : Type} `{Random W} `{Chain W}.
Variable this : SolanaMessenger (W := W).

(** C4 (amended).  Chunked frames are grouped by their message id alone:
    the key of a group is the hexadecimal form of the id, which is
    one-to-one, the sender is no part of it, and every frame is counted,
    repeated ones included.  The frames of a group are sorted by chunk
    index, in non-decreasing order.  On the read path, when no decryption
    throws, the result is one message per standalone frame and one per
    group whose number of frames equals the total announced by its first
    frame in index order, sorted by timestamp in non-decreasing order.  On
    the listen path an arriving chunk touches only the buffer entry of its
    own id; the entry takes its total from the first frame that arrives;
    nothing is delivered while the number of frames held differs from this
    total, and the arrival that makes them equal delivers one message; the
    entry is then removed when the callback returns and kept when it
    throws.  On both paths the message is made of the frames in index
    order: text from the concatenated payloads, sender, recipient,
    timestamp and id from the first frame in that order. *)
Theorem frames_grouped_by_message_id :
  (forall m m' : list byte, hexEncode m = hexEncode m' -> m = m') /\
  (forall chunks : list Chunk,
      Permutation (JSArray.sort chunkKey chunks) chunks /\
      StronglySorted byChunkIndex (JSArray.sort chunkKey chunks)) /\
  (forall messages : list Message,
      Permutation (JSArray.sort msg_timestamp messages) messages /\
      StronglySorted byTimestamp (JSArray.sort msg_timestamp messages)) /\
  (forall events : list MessageSentEvent,
      Forall (fun e => exists r, decryptToBytes this e = Ok r) events ->
      reassembleMessages this events = Ok (messagesOf this events)) /\
  (forall (callbackThrows : Message -> bool) (myAddress : string)
          (mid : list byte) (a : string * MessageSentEvent)
          (d : Crypto.DecodedMessage) (buffer : JSMap.t ChunkBuffer)
          (delivered : list Message),
      NoDup (map fst buffer) ->
      arrival this myAddress mid a ->
      frameOf this (stamp a) = Some (d, stamp a) ->
      (forall entry,
          JSMap.get buffer (hexEncode mid) = Some entry ->
          Forall (chunkOfMessage this mid) (cb_events entry)) ->
      let entry := grownEntry buffer mid d (stamp a) in
      let st :=
        listenEvent this callbackThrows myAddress (fst a)
                    (buffer, delivered) (snd a) in
      NoDup (map fst (fst st)) /\
      (forall k, k <> hexEncode mid ->
                 JSMap.get (fst st) k = JSMap.get buffer k) /\
      if len (cb_events entry) =? cb_totalChunks entry then
        exists first rest,
          JSArray.sort chunkKey (decodedChunks this (cb_events entry))
          = first :: rest /\
          snd st = delivered ++ [messageFrom first (first :: rest)] /\
          JSMap.get (fst st) (hexEncode mid)
          = if callbackThrows (messageFrom first (first :: rest))
            then Some entry else None
      else
        snd st = delivered /\
        JSMap.get (fst st) (hexEncode mid) = Some entry) /\
  (forall (callbackThrows : Message -> bool) (myAddress : string)
          (mid : list byte) (a0 : string * MessageSentEvent)
          (more : list (string * MessageSentEvent))
          (d0 : Crypto.DecodedMessage),
      Forall (arrival this myAddress mid) (a0 :: more) ->
      frameOf this (stamp a0) = Some (d0, stamp a0) ->
      let arrivals := a0 :: more in
      let total := Crypto.totalChunks d0 in
      let entry :=
        {| cb_events := map stamp arrivals; cb_totalChunks := total |} in
      (len arrivals < total \/ total <= 0 ->
       listenEvents this callbackThrows myAddress arrivals (JSMap.empty, [])
       = ([(hexEncode mid, entry)], [])) /\
      (len arrivals = total ->
       exists first rest,
         JSArray.sort chunkKey (decodedChunks this (map stamp arrivals))
         = first :: rest /\
         listenEvents this callbackThrows myAddress arrivals
                      (JSMap.empty, [])
         = (if callbackThrows (messageFrom first (first :: rest))
            then [(hexEncode mid, entry)] else [],
            [messageFrom first (first :: rest)]))).
Proof.
  split; [exact CodecFacts.hexEncode_inj|].
  split.
  { intros chunks. split; [apply sort_perm|].
    apply (DeliveryFacts.sort_sorted chunkKey). }
  split.
  { intros messages. split; [apply sort_perm|].
    apply (DeliveryFacts.sort_sorted msg_timestamp). }
  split; [exact (reassemble_groups this)|].
  split; [exact (listen_one_arrival this) | exact (listen_single_message this)].
Qed.

(** C5 (amended).  For the chunk events of one message in which no chunk
    index occurs twice, the reassembly stage returns the same result for
    every permutation of the events.  Repeated chunks are not tolerated:
    when such a list is complete, so that it yields a message, the list
    with any of its events added again, any number of times and in any
    order, yields no message. *)
Theorem reassembly_order_and_duplicates (mid : list byte)
  (events : list MessageSentEvent) :
  Forall (chunkOfMessage this mid) events ->
  NoDup (map chunkKey (decodedChunks this events)) ->
  (forall events' : list MessageSentEvent,
      Permutation events events' ->
      reassembleMessages this events' = reassembleMessages this events) /\
  (forall (dups events' : list MessageSentEvent) (m : Message),
      reassembleMessages this events = Ok [m] ->
      dups <> [] ->
      incl dups events ->
      Permutation events' (events ++ dups) ->
      reassembleMessages this events' = Ok []).
Proof.
  intros Hall Hnd. split.
  - intros events' P.
    exact (reassemble_permuted this mid events events' Hall Hnd P).
  - intros dups events' m Hm Hne Hi P.
    exact (reassemble_with_duplicates this mid events dups events' m
             Hall Hnd Hm Hne Hi P).
Qed.

End Reassembled.

(* ----------------------------------------------------------------- *)
(** *** Two sample messages *)

Lemma sample_decrypts (events : list MessageSentEvent) :
  Forall (fun e => exists d, frameOf sampleMessenger e = Some (d, e)) events ->
  Forall (fun e => exists r, decryptToBytes sampleMessenger e = Ok r) events.
Proof.
  apply Forall_impl. intros e [d E]. unfold frameOf in E.
  destruct (decryptToBytes sampleMessenger e) as [r|err];
    [exists r; reflexivity | discriminate].
Qed.

(** The frames of two messages, read interleaved. *)
Example sample_messagesOf :
  messagesOf sampleMessenger [chunk0; otherChunk0; chunk1; otherChunk1]
  = [otherMessage; sampleMessage "Hello world" ["sig0"; "sig1"]].
Proof. reflexivity. Qed.

(** The frames of two messages read interleaved, and the second frame of
    the sample message heard while the buffer holds the first frames of
    both messages, by a callback that throws. *)
Lemma frames_grouped_by_message_id_witness :
  let buffer :=
    [(hexEncode otherMid,
      {| cb_events := [otherChunk0]; cb_totalChunks := 2 |});
     (hexEncode sampleMid,
      {| cb_events := [chunk0]; cb_totalChunks := 2 |})] in
  let st :=
    listenEvent sampleMessenger (fun _ => true) sampleAddress "sig1"
                (buffer, []) chunk1 in
  reassembleMessages sampleMessenger
    [chunk0; otherChunk0; chunk1; otherChunk1]
  = Ok (messagesOf sampleMessenger
          [chunk0; otherChunk0; chunk1; otherChunk1]) /\
  JSMap.get (fst st) (hexEncode otherMid)
  = Some {| cb_events := [otherChunk0]; cb_totalChunks := 2 |}.
Proof.
  intros buffer st.
  destruct (frames_grouped_by_message_id sampleMessenger)
    as [_ [_ [_ [Hread [Hstep _]]]]].
  split.
  - apply Hread, sample_decrypts.
    repeat constructor; eexists; vm_compute; reflexivity.
  - destruct (Hstep (fun _ => true) sampleAddress sampleMid ("sig1", chunk1)
                {| Crypto.flags := 1; Crypto.messageId := sampleMid;
                   Crypto.chunkIndex := 1; Crypto.totalChunks := 2;
                   Crypto.payload := list_byte_of_string "world" |}
                buffer [])
      as [_ [Hother _]].
    + vm_compute. constructor; [|constructor; [|constructor]].
      * intros [E|[]]. discriminate.
      * intros [].
    + split; [reflexivity | sample_chunk].
    + vm_compute. reflexivity.
    + intros entry E. vm_compute in E. injection E as <-.
      constructor; [sample_chunk | constructor].
    + apply (Hother (hexEncode otherMid)). vm_compute. discriminate.
Defined.

(** The two frames of the sample message swapped, and with the second one
    presented twice. *)
Lemma reassembly_order_and_duplicates_witness :
  reassembleMessages sampleMessenger [chunk1; chunk0]
  = reassembleMessages sampleMessenger [chunk0; chunk1] /\
  reassembleMessages sampleMessenger [chunk1; chunk0; chunk1] = Ok [].
Proof.
  destruct (reassembly_order_and_duplicates sampleMessenger sampleMid
              [chunk0; chunk1]) as [Hp Hd].
  - constructor; [sample_chunk|]. constructor; [sample_chunk|]. constructor.
  - vm_compute. constructor; [|constructor; [|constructor]].
    + intros [E|[]]. discriminate.
    + intros [].
  - split; [apply Hp, perm_swap|].
    apply (Hd [chunk1] [chunk1; chunk0; chunk1]
              (sampleMessage "Hello world" ["sig0"; "sig1"])).
    + reflexivity.
    + discriminate.
    + intros e [<-|[]]. right. left. reflexivity.
    + apply perm_swap.
Defined.

End GroupingFacts.
